(** * Shortest paths over a GraphML graph: model of [graph.ts] and [index.ts]

    The development embeds the graph classes, the GraphML loader
    [parseGraphMl] and the query [findShortestPathBetween] / [dijkstra],
    and settles the properties of the specification on that embedding.

    Objects are modelled by their address in a store: a [GraphNode] is a
    cell of the heap, a reference to it is the index of the cell, and [===]
    on nodes is equality of addresses.  The [Graph] object owns one array
    of node references; the query keeps a second name ([unvisited]) for
    that same array, so the model threads it through the query. *)

From Stdlib Require Import String ZArith List Bool Arith Lia.
Import ListNotations.

Set Implicit Arguments.

(* ================================================================== *)
(** ** Numbers *)

(** The values of type [number] that the program can build.  The finite
    ones are modelled by the integers; fractions are outside the model.
    [Fin z] is a double when rounding leaves [z] as it is: every integer
    below [2^53] in magnitude is one, and so is every sum that [add]
    computes. *)
Inductive number : Type :=
| NaN
| NegInfinity
| Fin (z : Z)
| Infinity.

(** [2^53]: below it every integer is a double. *)
Definition two53 : Z := 9007199254740992%Z.

(** [2^1024]: the first magnitude that is no finite double. *)
Definition two1024 : Z := Z.shiftl 1 1024.

(** The test of round-to-nearest, ties to even, on the magnitude
    [q * 2^e + r] with [r < 2^e]: whether the significand [q] goes up. *)
Definition roundsUp (e q r : Z) : bool :=
  (2 ^ e <? 2 * r)%Z || ((2 * r =? 2 ^ e)%Z && Z.odd q).

(** The magnitude [a] rounded to 53 significant bits. *)
Definition roundMagnitude (a : Z) : Z :=
  if (a <? two53)%Z then a
  else
    let e := (Z.log2 a - 52)%Z in
    let q := (a / 2 ^ e)%Z in
    let r := (a mod 2 ^ e)%Z in
    ((if roundsUp e q r then q + 1 else q) * 2 ^ e)%Z.

(** The double that an integer rounds to; from [2^1024] on it is an
    infinity. *)
Definition roundDouble (z : Z) : number :=
  let m := roundMagnitude (Z.abs z) in
  if (two1024 <=? m)%Z
  then (if (z <? 0)%Z then NegInfinity else Infinity)
  else Fin (if (z <? 0)%Z then (- m)%Z else m).

(** [a + b]: the sum of two finite numbers is rounded as the sum of
    two doubles is. *)
Definition add (a b : number) : number :=
  match a, b with
  | NaN, _ | _, NaN => NaN
  | Infinity, NegInfinity | NegInfinity, Infinity => NaN
  | Infinity, _ | _, Infinity => Infinity
  | NegInfinity, _ | _, NegInfinity => NegInfinity
  | Fin x, Fin y => roundDouble (x + y)
  end.

(** [a < b]: false as soon as one side is [NaN]. *)
Definition ltb (a b : number) : bool :=
  match a, b with
  | NaN, _ | _, NaN => false
  | NegInfinity, NegInfinity => false
  | NegInfinity, _ => true
  | Fin _, NegInfinity => false
  | Fin x, Fin y => Z.ltb x y
  | Fin _, Infinity => true
  | Infinity, _ => false
  end.

(** [!a]: a number is falsy when it is zero or [NaN]. *)
Definition falsy (a : number) : bool :=
  match a with
  | NaN => true
  | Fin z => Z.eqb z 0
  | _ => false
  end.

(* ================================================================== *)
(** ** Outcomes *)

(** What a call can raise: an [Error] built by the program with its
    message, or the [TypeError] of the run time when a property of
    [null] or [undefined] is read. *)
Inductive exn : Type :=
| Error (message : string)
| TypeError.

(** A call returns, throws, or is still running when the fuel of the
    model is spent. *)
Inductive result (A : Type) : Type :=
| Return (a : A)
| Throw (e : exn)
| OutOfFuel.

Arguments Return {A} a.
Arguments Throw {A} e.
Arguments OutOfFuel {A}.

Definition bind {A B : Type} (r : result A) (k : A -> result B) : result B :=
  match r with
  | Return a => k a
  | Throw e => Throw e
  | OutOfFuel => OutOfFuel
  end.

Notation "'do' x <- r ; k" := (bind r (fun x => k))
  (at level 10, x name, r at level 100, k at level 200).

(* ================================================================== *)
(** ** Arrays *)

Section Arrays.
Variable A : Type.
Variable same : A -> A -> bool.

(** [arr.includes(x)] *)
Definition includes (arr : list A) (x : A) : bool := existsb (same x) arr.

(** [arr.indexOf(x)]: the first position of [x], or [-1]. *)
Fixpoint indexOf_from (i : Z) (arr : list A) (x : A) : Z :=
  match arr with
  | [] => (-1)%Z
  | y :: rest => if same y x then i else indexOf_from (i + 1) rest x
  end.

Definition indexOf (arr : list A) (x : A) : Z := indexOf_from 0 arr x.

(** [arr.findIndex(p)] as an option. *)
Fixpoint findIndex_from (i : nat) (p : A -> bool) (arr : list A) : option nat :=
  match arr with
  | [] => None
  | y :: rest => if p y then Some i else findIndex_from (S i) p rest
  end.

Definition findIndex (p : A -> bool) (arr : list A) : option nat :=
  findIndex_from 0 p arr.

(** [arr.splice(start, 1)]: a negative [start] counts from the end and
    is clamped to 0; a [start] beyond the end removes nothing. *)
Fixpoint remove_at (i : nat) (arr : list A) : list A :=
  match arr, i with
  | [], _ => []
  | _ :: rest, O => rest
  | y :: rest, S j => y :: remove_at j rest
  end.

Definition splice1 (arr : list A) (start : Z) : list A :=
  let len := Z.of_nat (length arr) in
  let from := if (start <? 0)%Z then Z.max (len + start) 0 else Z.min start len in
  remove_at (Z.to_nat from) arr.

(** In-place update of one cell. *)
Fixpoint update (i : nat) (f : A -> A) (arr : list A) : list A :=
  match arr, i with
  | [], _ => []
  | y :: rest, O => f y :: rest
  | y :: rest, S j => y :: update j f rest
  end.
End Arrays.

(* ================================================================== *)
(** ** graph.ts *)

(** A reference to a [GraphNode] object. *)
Definition ref : Type := nat.

Record EdgeToNode : Type := mkEdgeToNode {
  targetNode : ref;
  weight : number
}.

Record GraphNode : Type := mkGraphNode {
  name : string;
  edgesToNodes : list EdgeToNode
}.

(** The store: the [GraphNode] objects by address, and the [graphNodes]
    array of the one [Graph] object. *)
Record Store : Type := mkStore {
  heap : list GraphNode;
  graphNodes : list ref
}.

(** [new Graph([])] *)
Definition newGraph : Store := mkStore [] [].

Definition getGraphNodesList (s : Store) : list ref := graphNodes s.

Definition addGraphNode (s : Store) (graphNode : ref) : Store :=
  mkStore (heap s) (graphNodes s ++ [graphNode]).

(** [new GraphNode(name, edgesToNodes)]: the new object and the store. *)
Definition newGraphNode (s : Store) (nm : string) (es : list EdgeToNode)
  : ref * Store :=
  (length (heap s), mkStore (heap s ++ [mkGraphNode nm es]) (graphNodes s)).

Definition getName (h : list GraphNode) (graphNode : ref) : option string :=
  option_map name (nth_error h graphNode).

Definition getEdgesToNodes (h : list GraphNode) (graphNode : ref)
  : option (list EdgeToNode) :=
  option_map edgesToNodes (nth_error h graphNode).

Definition addAdjacentWeightedNode (s : Store) (graphNode : ref)
  (edgeToNodes : EdgeToNode) : Store :=
  mkStore
    (update graphNode
       (fun n => mkGraphNode (name n) (edgesToNodes n ++ [edgeToNodes]))
       (heap s))
    (graphNodes s).

Definition areSameGraphNodes (h : list GraphNode) (node1 node2 : ref) : bool :=
  match getName h node1, getName h node2 with
  | Some a, Some b => String.eqb a b
  | _, _ => false
  end.

(** [graph.getGraphNodesList().find(graphNode => graphNode.getName() === nm)] *)
Definition findByName (s : Store) (nm : string) : option ref :=
  find (fun graphNode =>
          match getName (heap s) graphNode with
          | Some n => String.eqb n nm
          | None => false
          end)
       (getGraphNodesList s).

(* ================================================================== *)
(** ** index.ts: the loader *)

(** What the loader reads of the parsed document.  An [edge] tag has its
    two attributes, absent or not, and its [data] child, absent or holding
    the number that [Number(data.val)] evaluates to.  A [node] tag is
    read through its [id] attribute, the string that names the node. *)
Record EdgeTag : Type := mkEdgeTag {
  source : option string;
  target : option string;
  data : option number
}.

Record GraphTag : Type := mkGraphTag {
  nodes : list string;
  edges : list EdgeTag
}.

(** [results.childNamed("graph")] *)
Definition XmlDocument : Type := option GraphTag.

Definition msg_no_graph : string :=
  "There is no graph tag in the GraphML file.".
Definition msg_two_nodes : string :=
  "There must be at least two node tags in the GraphML file.".
Definition msg_one_edge : string :=
  "There must be at least one edge tag in the GraphML file.".
Definition msg_edge_attr : string :=
  "The edge tag has either no source or target attribute in the GraphMl file.".
Definition msg_edge_data : string :=
  "The current edge tag has no children tag named data in the GraphML file.".
Definition msg_edge_weight : string :=
  "The weight of the current edge is not a valid number.".
Definition msg_edge_node : string :=
  "The node specified in the edge tag is not present in the GraphML file.".
Definition msg_filtered_empty : string :=
  "The filtered lookup table does not contain any elements.".
Definition msg_not_represented : string :=
  "Either the start node or the target node is not represented in the given graph".
Definition msg_not_contained : string :=
  "The graph does not contain either the start node or the target node.".

(** [!s] for an attribute: absent or the empty string. *)
Definition attr_missing (a : option string) : bool :=
  match a with
  | None => true
  | Some s => String.eqb s EmptyString
  end.

(** The body of [nodes.forEach]. *)
Definition addNodeTag (s : Store) (id : string) : Store :=
  let (graphNode, s') := newGraphNode s id [] in
  addGraphNode s' graphNode.

(** The body of [edges.forEach]. *)
Definition addEdgeTag (s : Store) (edge : EdgeTag) : result Store :=
  if attr_missing (source edge) || attr_missing (target edge)
  then Throw (Error msg_edge_attr)
  else
    match source edge, target edge with
    | Some sourceNodeName, Some targetNodeName =>
        match data edge with
        | None => Throw (Error msg_edge_data)
        | Some edgeWeight =>
            if falsy edgeWeight then Throw (Error msg_edge_weight)
            else
              match findByName s sourceNodeName, findByName s targetNodeName with
              | Some sourceGraphNode, Some targetGraphNode =>
                  let s1 := addAdjacentWeightedNode s sourceGraphNode
                              (mkEdgeToNode targetGraphNode edgeWeight) in
                  Return (addAdjacentWeightedNode s1 targetGraphNode
                            (mkEdgeToNode sourceGraphNode edgeWeight))
              | _, _ => Throw (Error msg_edge_node)
              end
        end
    | _, _ => Throw (Error msg_edge_attr)
    end.

Fixpoint addEdgeTags (s : Store) (es : list EdgeTag) : result Store :=
  match es with
  | [] => Return s
  | edge :: rest => do s' <- addEdgeTag s edge; addEdgeTags s' rest
  end.

Definition parseGraphMl (results : XmlDocument) : result Store :=
  match results with
  | None => Throw (Error msg_no_graph)
  | Some graphTag =>
      if length (nodes graphTag) <? 2 then Throw (Error msg_two_nodes)
      else
        let graph := fold_left addNodeTag (nodes graphTag) newGraph in
        if length (edges graphTag) =? 0 then Throw (Error msg_one_edge)
        else addEdgeTags graph (edges graphTag)
  end.

(* ================================================================== *)
(** ** index.ts: the shortest-path engine *)

Record LookupTableEntry : Type := mkEntry {
  node : ref;
  shortestDistanceToTargetNode : number;
  previousNode : option ref
}.

Definition initLookupTable (s : Store) (startNode : ref) : list LookupTableEntry :=
  map (fun graphNode =>
         mkEntry graphNode
                 (if Nat.eqb graphNode startNode then Fin 0 else Infinity)
                 None)
      (getGraphNodesList s).

(** The scan of [findNodeWithSmallestKnownDistance]: the running smallest
    entry is replaced only by a strictly smaller one. *)
Definition smaller (smallestTableEntry e : LookupTableEntry) : LookupTableEntry :=
  if ltb (shortestDistanceToTargetNode e)
         (shortestDistanceToTargetNode smallestTableEntry)
  then e else smallestTableEntry.

(** The result is what [unvisited.find] gives: a node or [undefined]. *)
Definition findNodeWithSmallestKnownDistance
  (lookupTable : list LookupTableEntry) (unvisited : list ref)
  : result (option ref) :=
  let filteredLookupTable :=
    filter (fun e => includes Nat.eqb unvisited (node e)) lookupTable in
  match filteredLookupTable with
  | [] => Throw (Error msg_filtered_empty)
  | first :: _ =>
      let smallestTableEntry := fold_left smaller filteredLookupTable first in
      Return (find (fun graphNode => Nat.eqb graphNode (node smallestTableEntry))
                   unvisited)
  end.

(** The table entry of a node, as the position of the entry in the table:
    entries are objects that [checkNeighboringNodes] updates in place. *)
Definition getTableEntryforNode (lookupTable : list LookupTableEntry)
  (graphNode : ref) : option nat :=
  findIndex (fun e => Nat.eqb (node e) graphNode) lookupTable.

(** The body of [getEdgesToNodes().forEach] in [checkNeighboringNodes]. *)
Definition relaxEdge (graphNode : ref) (nodeTableEntry : option nat)
  (lookupTable : list LookupTableEntry) (edgeToNode : EdgeToNode)
  : result (list LookupTableEntry) :=
  let adjacentNodeTableEntry :=
    getTableEntryforNode lookupTable (targetNode edgeToNode) in
  match nodeTableEntry with
  | None => Throw TypeError
  | Some i =>
      match nth_error lookupTable i with
      | None => Throw TypeError
      | Some ne =>
          let newDistance :=
            add (shortestDistanceToTargetNode ne) (weight edgeToNode) in
          match adjacentNodeTableEntry with
          | None => Throw TypeError
          | Some j =>
              match nth_error lookupTable j with
              | None => Throw TypeError
              | Some ae =>
                  if ltb newDistance (shortestDistanceToTargetNode ae)
                  then Return (update j
                                 (fun e => mkEntry (node e) newDistance
                                                   (Some graphNode))
                                 lookupTable)
                  else Return lookupTable
              end
          end
      end
  end.

Fixpoint relaxEdges (graphNode : ref) (nodeTableEntry : option nat)
  (lookupTable : list LookupTableEntry) (es : list EdgeToNode)
  : result (list LookupTableEntry) :=
  match es with
  | [] => Return lookupTable
  | edgeToNode :: rest =>
      do t <- relaxEdge graphNode nodeTableEntry lookupTable edgeToNode;
      relaxEdges graphNode nodeTableEntry t rest
  end.

Definition checkNeighboringNodes (h : list GraphNode)
  (lookupTable : list LookupTableEntry) (graphNode : ref)
  : result (list LookupTableEntry) :=
  let nodeTableEntry := getTableEntryforNode lookupTable graphNode in
  match getEdgesToNodes h graphNode with
  | None => Throw TypeError
  | Some es => relaxEdges graphNode nodeTableEntry lookupTable es
  end.

Record ShortestPath : Type := mkShortestPath {
  nodeNames : list string;
  shortestDistance : number
}.

(** The variables of the main loop; [unvisited] is the array of the
    graph itself. *)
Record LoopState : Type := mkLoop {
  lookupTable : list LookupTableEntry;
  visited : list ref;
  unvisited : list ref
}.

(** One turn of [while (visited.length < graphNodesLength)].  When
    [unvisited.find] gave [undefined], [checkNeighboringNodes] reads
    [getEdgesToNodes] of it. *)
Definition loopBody (h : list GraphNode) (st : LoopState) : result LoopState :=
  do nextNode <- findNodeWithSmallestKnownDistance (lookupTable st) (unvisited st);
  match nextNode with
  | None => Throw TypeError
  | Some nextNode =>
      do t <- checkNeighboringNodes h (lookupTable st) nextNode;
      Return (mkLoop t
                     (visited st ++ [nextNode])
                     (splice1 (unvisited st)
                              (indexOf Nat.eqb (unvisited st) nextNode)))
  end.

(** The main loop: the state it stops in, and how it stops. *)
Fixpoint mainLoop (fuel : nat) (h : list GraphNode) (graphNodesLength : nat)
  (st : LoopState) : LoopState * result unit :=
  if length (visited st) <? graphNodesLength then
    match fuel with
    | O => (st, OutOfFuel)
    | S fuel' =>
        match loopBody h st with
        | Return st' => mainLoop fuel' h graphNodesLength st'
        | Throw e => (st, Throw e)
        | OutOfFuel => (st, OutOfFuel)
        end
    end
  else (st, Return tt).

(** The loop that rewinds the path: [nodeToCheck] is a node or [null].
    The array [pathNames] is a list; the limit on the length of an
    array, at which [push] fails, is outside the model. *)
Fixpoint rewind (fuel : nat) (h : list GraphNode)
  (lookupTable : list LookupTableEntry) (startNode : ref)
  (nodeToCheck : option ref) (pathNames : list string)
  : result (list string) :=
  if match nodeToCheck with
     | Some n => Nat.eqb n startNode
     | None => false
     end
  then Return pathNames
  else
    match fuel with
    | O => OutOfFuel
    | S fuel' =>
        match nodeToCheck with
        | None => Throw TypeError
        | Some n =>
            match getName h n with
            | None => Throw TypeError
            | Some nm =>
                match getTableEntryforNode lookupTable n with
                | None => Throw TypeError
                | Some i =>
                    match nth_error lookupTable i with
                    | None => Throw TypeError
                    | Some previousNodeTableEntry =>
                        rewind fuel' h lookupTable startNode
                               (previousNode previousNodeTableEntry)
                               (pathNames ++ [nm])
                    end
                end
            end
        end
    end.

(** The value of a table entry read through [getTableEntryforNode]. *)
Definition entryOf (lookupTable : list LookupTableEntry) (graphNode : ref)
  : option LookupTableEntry :=
  match getTableEntryforNode lookupTable graphNode with
  | Some i => nth_error lookupTable i
  | None => None
  end.

(** [findShortestPathBetween]: the store after the call and its outcome.
    The heap is only read; the array of the graph is the one the loop
    splices. *)
Definition findShortestPathBetween (fuel : nat) (s : Store)
  (startNode targetNode : ref) : Store * result ShortestPath :=
  let graphNodes0 := getGraphNodesList s in
  let graphNodesLength := length graphNodes0 in
  if negb (includes Nat.eqb graphNodes0 startNode)
     || negb (includes Nat.eqb graphNodes0 targetNode)
  then (s, Throw (Error msg_not_represented))
  else
    let lookupTable0 := initLookupTable s startNode in
    let (st, r) :=
      mainLoop fuel (heap s) graphNodesLength
               (mkLoop lookupTable0 [] graphNodes0) in
    let s' := mkStore (heap s) (unvisited st) in
    (s',
     do _ <- r;
     do pathNames <- rewind fuel (heap s) (lookupTable st) startNode
                            (Some targetNode) [];
     match getName (heap s) startNode with
     | None => Throw TypeError
     | Some startName =>
         match entryOf (lookupTable st) targetNode with
         | None => Throw TypeError
         | Some targetNodeTableEntry =>
             Return (mkShortestPath
                       (rev (pathNames ++ [startName]))
                       (shortestDistanceToTargetNode targetNodeTableEntry))
         end
     end).

Definition dijkstra (fuel : nat) (s : Store)
  (startNodeName targetNodeName : string) : Store * result ShortestPath :=
  match findByName s startNodeName, findByName s targetNodeName with
  | Some startNode, Some targetNode =>
      findShortestPathBetween fuel s startNode targetNode
  | _, _ => (s, Throw (Error msg_not_contained))
  end.

(* ================================================================== *)
(** ** Scenario graphs *)

Definition edgeTag (a b : string) (w : Z) : EdgeTag :=
  mkEdgeTag (Some a) (Some b) (Some (Fin w)).

Definition scenario1 : XmlDocument :=
  Some (mkGraphTag
          ["A"; "B"; "C"; "D"; "E"]%string
          [edgeTag "A" "B" 4; edgeTag "A" "C" 2; edgeTag "C" "B" 1;
           edgeTag "B" "D" 5; edgeTag "C" "D" 8; edgeTag "D" "E" 3;
           edgeTag "B" "E" 10]).

(** The script at the end of [index.ts]: load, then query. *)
Definition query (fuel : nat) (doc : XmlDocument) (a b : string)
  : result ShortestPath :=
  do s <- parseGraphMl doc; snd (dijkstra fuel s a b).

(* ================================================================== *)
(** ** Predicates of the properties *)

(** The adjacency list of a node of the heap. *)
Definition edgesOf (h : list GraphNode) (u : ref) : list EdgeToNode :=
  match nth_error h u with
  | Some n => edgesToNodes n
  | None => []
  end.

(** The shape of a store built by the loader: the array of the graph
    lists the objects in the order of their creation, and adjacency
    records point into the heap. *)
Definition wf (s : Store) : Prop :=
  graphNodes s = seq 0 (length (heap s)) /\
  forall u e, In e (edgesOf (heap s) u) -> targetNode e < length (heap s).

(** Every adjacency record has its reciprocal record. *)
Definition undirected (h : list GraphNode) : Prop :=
  forall u e, In e (edgesOf h u) ->
              In (mkEdgeToNode u (weight e)) (edgesOf h (targetNode e)).

(** Every weight is a strictly positive finite number. *)
Definition positiveWeights (h : list GraphNode) : Prop :=
  forall u e, In e (edgesOf h u) -> exists z, weight e = Fin z /\ (0 < z)%Z.

Definition finiteWeights (h : list GraphNode) : Prop :=
  forall u e, In e (edgesOf h u) -> exists z, weight e = Fin z.

(** A walk along adjacency records, from [u] to [v]. *)
Fixpoint isPath (h : list GraphNode) (u : ref) (steps : list EdgeToNode)
  (v : ref) : Prop :=
  match steps with
  | [] => u = v
  | e :: rest => In e (edgesOf h u) /\ isPath h (targetNode e) rest v
  end.

Definition pathNodes (u : ref) (steps : list EdgeToNode) : list ref :=
  u :: map targetNode steps.

(** The weights of a walk, added from the start on. *)
Definition pathWeight (steps : list EdgeToNode) : number :=
  fold_left (fun acc e => add acc (weight e)) steps (Fin 0).

Definition reachable (h : list GraphNode) (u v : ref) : Prop :=
  exists steps, isPath h u steps v.


(** The state in which [findShortestPathBetween] enters its main loop. *)
Definition initialState (s : Store) (startNode : ref) : LoopState :=
  mkLoop (initLookupTable s startNode) [] (getGraphNodesList s).

(** The states in which the test of the main loop is evaluated. *)
Inductive loopState (h : list GraphNode) (graphNodesLength : nat)
  (st0 : LoopState) : LoopState -> Prop :=
| loop_enter : loopState h graphNodesLength st0 st0
| loop_turn st st' :
    loopState h graphNodesLength st0 st ->
    length (visited st) < graphNodesLength ->
    loopBody h st = Return st' ->
    loopState h graphNodesLength st0 st'.

(** The table as the main loop leaves it. *)
Definition finalTable (fuel : nat) (s : Store) (startNode : ref)
  : list LookupTableEntry :=
  lookupTable (fst (mainLoop fuel (heap s) (length (graphNodes s))
                             (initialState s startNode))).

Definition distanceOf (t : list LookupTableEntry) (r : ref) : option number :=
  option_map shortestDistanceToTargetNode (entryOf t r).

Definition previousOf (t : list LookupTableEntry) (r : ref) : option ref :=
  match entryOf t r with
  | Some e => previousNode e
  | None => None
  end.

(** The invariant of the edge loop of the loader. *)
Record loaded (ids : list string) (s : Store) : Prop := mkLoaded {
  loaded_wf : wf s;
  loaded_names : map name (heap s) = ids;
  loaded_sym : undirected (heap s);
  loaded_weights :
    forall u e, In e (edgesOf (heap s) u) -> falsy (weight e) = false
}.


(** The fields of the entry stored at a position of the table. *)
Definition dOf (t : list LookupTableEntry) (r : nat) : number :=
  match nth_error t r with
  | Some e => shortestDistanceToTargetNode e
  | None => NaN
  end.

Definition pOf (t : list LookupTableEntry) (r : nat) : option ref :=
  match nth_error t r with
  | Some e => previousNode e
  | None => None
  end.

(** What [relaxEdge] does to a table whose entry of node [r] is at
    position [r]. *)
Definition relax1 (u : ref) (t : list LookupTableEntry) (e : EdgeToNode)
  : list LookupTableEntry :=
  if ltb (add (dOf t u) (weight e)) (dOf t (targetNode e))
  then update (targetNode e)
              (fun en => mkEntry (node en) (add (dOf t u) (weight e)) (Some u))
              t
  else t.

(** A table with one entry per object of the heap, in order. *)
Definition tableShape (n : nat) (t : list LookupTableEntry) : Prop :=
  map node t = seq 0 n.

(** The bookkeeping of the main loop over a loaded graph of [n] nodes. *)
Record structInv (n : nat) (st : LoopState) : Prop := mkStructInv {
  si_shape : tableShape n (lookupTable st);
  si_nodup : NoDup (unvisited st);
  si_count : length (visited st) + length (unvisited st) = n;
  si_cover : forall x, x < n -> In x (visited st) \/ In x (unvisited st);
  si_unvisited : forall x, In x (unvisited st) -> x < n;
  si_visited : forall x, In x (visited st) -> x < n /\ ~ In x (unvisited st);
  si_nan : forall x, x < n -> dOf (lookupTable st) x <> NaN
}.

(** A distance that the engine computes from positive weights:
    [Infinity], or a double that is not negative. *)
Definition nonneg (a : number) : Prop :=
  a = Infinity
  \/ exists z, a = Fin z /\ (0 <= z)%Z /\ roundDouble z = Fin z.

(** The invariant of the main loop over positive weights. *)
Record posInv (h : list GraphNode) (startNode : ref) (n : nat)
  (st : LoopState) : Prop := mkPosInv {
  pi_nonneg : forall x, x < n -> nonneg (dOf (lookupTable st) x);
  pi_order :
    forall v x, In v (visited st) -> In x (unvisited st) ->
                ltb (dOf (lookupTable st) x) (dOf (lookupTable st) v) = false;
  pi_prev :
    forall x p, x < n -> pOf (lookupTable st) x = Some p ->
                In p (visited st) /\
                exists e, In e (edgesOf h p) /\ targetNode e = x /\
                          dOf (lookupTable st) x
                          = add (dOf (lookupTable st) p) (weight e);
  pi_start :
    dOf (lookupTable st) startNode = Fin 0 /\
    pOf (lookupTable st) startNode = None;
  pi_noprev :
    forall x, x < n -> pOf (lookupTable st) x = None ->
              x = startNode \/ dOf (lookupTable st) x = Infinity;
  pi_relaxed :
    forall v e, In v (visited st) -> In e (edgesOf h v) ->
                ltb (add (dOf (lookupTable st) v) (weight e))
                    (dOf (lookupTable st) (targetNode e)) = false
}.

(** The number of nodes that a table puts nearer to the start than [v]. *)
Definition nearer (t : list LookupTableEntry) (n : nat) (v : ref) : nat :=
  length (filter (fun x => ltb (dOf t x) (dOf t v)) (seq 0 n)).

(** What the table keeps whatever the weights are. *)
Record genInv (h : list GraphNode) (startNode : ref) (n : nat)
  (t : list LookupTableEntry) : Prop := mkGenInv {
  gi_inf_noprev : forall x, x < n -> dOf t x = Infinity -> pOf t x = None;
  gi_start : dOf t startNode <> Infinity;
  gi_reach : forall x, x < n -> dOf t x <> Infinity -> reachable h startNode x;
  gi_noprev :
    forall x, x < n -> x <> startNode -> pOf t x = None -> dOf t x = Infinity
}.

(** The weight of an adjacency record as an integer: 0 when it is not
    finite. *)
Definition weightOf (e : EdgeToNode) : Z :=
  match weight e with
  | Fin z => z
  | _ => 0%Z
  end.

(** The exact weight of a walk: the sum of the weights of its steps,
    not rounded. *)
Definition walkSum (steps : list EdgeToNode) : Z :=
  fold_right (fun e acc => (weightOf e + acc)%Z) 0%Z steps.

(** The magnitudes of the weights of adjacency records, added up: of a
    list of records, of every record of a heap, and of the records of
    the nodes of a list. *)
Definition load (es : list EdgeToNode) : Z :=
  fold_right (fun e acc => (Z.abs (weightOf e) + acc)%Z) 0%Z es.

Definition totalLoad (h : list GraphNode) : Z :=
  fold_right (fun nd acc => (load (edgesToNodes nd) + acc)%Z) 0%Z h.

Definition visitedLoad (h : list GraphNode) (l : list ref) : Z :=
  fold_right (fun v acc => (load (edgesOf h v) + acc)%Z) 0%Z l.

(** Weights so small that no sum of a query reaches [2^53]: no addition
    of the query rounds or overflows. *)
Definition smallWeights (h : list GraphNode) : Prop :=
  (2 * totalLoad h < two53)%Z.

(** A table whose distances are [Infinity] or at most [B] in
    magnitude. *)
Definition boundedTable (n : nat) (B : Z) (t : list LookupTableEntry)
  : Prop :=
  forall x, x < n ->
            dOf t x = Infinity
            \/ exists z, dOf t x = Fin z /\ (Z.abs z <= B)%Z.

(** The invariant of the main loop over finite weights: the distances
    are bounded by the weights of the records checked so far. *)
Record finInv (h : list GraphNode) (n : nat) (st : LoopState) : Prop := mkFinInv {
  fi_nodup : NoDup (visited st);
  fi_bound :
    boundedTable n (visitedLoad h (visited st)) (lookupTable st);
  fi_edges :
    forall v e, In v (visited st) -> dOf (lookupTable st) v <> Infinity ->
                In e (edgesOf h v) ->
                dOf (lookupTable st) (targetNode e) <> Infinity;
  fi_rest :
    forall v x, In v (visited st) -> dOf (lookupTable st) v = Infinity ->
                In x (unvisited st) -> dOf (lookupTable st) x = Infinity
}.

(** A table whose distances are finite or [Infinity]. *)
Definition finiteTable (n : nat) (t : list LookupTableEntry) : Prop :=
  forall x, x < n -> dOf t x = Infinity \/ exists z, dOf t x = Fin z.

(* ================================================================== *)
(** ** Documents used as examples *)

Definition document (ids : list string) (es : list EdgeTag) : XmlDocument :=
  Some (mkGraphTag ids es).

Definition weighted (a b : string) (w : number) : EdgeTag :=
  mkEdgeTag (Some a) (Some b) (Some w).

(** The store that a document loads, for documents that load. *)
Definition storeOf (doc : XmlDocument) : Store :=
  match parseGraphMl doc with
  | Return s => s
  | _ => newGraph
  end.

(** Node C has no edge. *)
Definition isolatedDoc : XmlDocument :=
  document ["A"; "B"; "C"]%string [edgeTag "A" "B" 1].

Definition negativeDoc : XmlDocument :=
  document ["A"; "B"]%string [edgeTag "A" "B" (-1)].

Definition infiniteDoc : XmlDocument :=
  document ["A"; "B"]%string [weighted "A" "B" Infinity].

Definition duplicateDoc : XmlDocument :=
  document ["A"; "A"]%string [edgeTag "A" "A" 1].

(** Two shortest paths between A and D, of weight 3 each. *)
Definition tieDoc : XmlDocument :=
  document ["A"; "B"; "C"; "D"]%string
           [edgeTag "A" "B" 1; edgeTag "B" "D" 2;
            edgeTag "A" "C" 2; edgeTag "C" "D" 1].

Definition twoNodeDoc : XmlDocument :=
  document ["A"; "B"]%string [edgeTag "A" "B" 7].

(** A chain whose first weight is [2^53]: added to it, a weight of 1
    is lost. *)
Definition roundingDoc : XmlDocument :=
  document ["A"; "B"; "C"; "D"]%string
           [edgeTag "A" "B" 9007199254740992; edgeTag "B" "C" 1;
            edgeTag "C" "D" 1].


(** The walk back along the reciprocal records of a walk from [u]. *)
Fixpoint reverseWalk (u : ref) (steps : list EdgeToNode) : list EdgeToNode :=
  match steps with
  | [] => []
  | e :: rest =>
      reverseWalk (targetNode e) rest ++ [mkEdgeToNode u (weight e)]
  end.

(* ================================================================== *)
(** ** Predicates of the further properties *)

(** An edge tag that passes every check of the loader over the node
    identifiers [ids]. *)
Definition acceptable (ids : list string) (edge : EdgeTag) : bool :=
  match source edge, target edge, data edge with
  | Some a, Some b, Some w =>
      negb (String.eqb a EmptyString) && negb (String.eqb b EmptyString)
      && negb (falsy w)
      && existsb (String.eqb a) ids && existsb (String.eqb b) ids
  | _, _, _ => false
  end.

(** The number of adjacency records of a heap. *)
Definition recordCount (h : list GraphNode) : nat :=
  list_sum (map (fun n => length (edgesToNodes n)) h).

(** The nodes are listed by non-decreasing distance of the table. *)
Fixpoint byDistance (t : list LookupTableEntry) (l : list ref) : Prop :=
  match l with
  | [] => True
  | a :: rest =>
      (forall b da db,
          In b rest -> distanceOf t a = Some da -> distanceOf t b = Some db ->
          db <> NaN /\ da <> NaN /\ ltb db da = false)
      /\ byDistance t rest
  end.

(** A graph on which a query leaves two nodes as predecessors of each
    other. *)
Definition cycleDoc : XmlDocument :=
  document ["S"; "X"; "Y"]%string
           [edgeTag "S" "X" 10; edgeTag "S" "Y" 1; edgeTag "Y" "X" (-3)].

(** Scenario 5: the second edge tag names a node that no node tag
    declares. *)
Definition unknownEndpointDoc : XmlDocument :=
  document ["A"; "B"]%string [edgeTag "A" "B" 1; edgeTag "A" "Z" 2].

(** Every predecessor of the table is a node of the graph with an edge
    to the node whose entry names it. *)
Definition prevEdge (h : list GraphNode) (n : nat)
  (t : list LookupTableEntry) : Prop :=
  forall x p, x < n -> pOf t x = Some p ->
              p < n /\ exists e, In e (edgesOf h p) /\ targetNode e = x.
(* ================================================================== *)
(** ** Arrays: lemmas *)

Section ArrayLemmas.
Variable A : Type.

Lemma update_length (i : nat) (f : A -> A) (l : list A) :
  length (update i f l) = length l.
Proof.
  revert i; induction l as [|y l IH]; intros [|i]; simpl; auto.
Qed.

Lemma nth_error_update_eq (i : nat) (f : A -> A) (l : list A) :
  nth_error (update i f l) i = option_map f (nth_error l i).
Proof.
  revert i; induction l as [|y l IH]; intros [|i]; simpl; auto.
Qed.

Lemma nth_error_update_neq (i j : nat) (f : A -> A) (l : list A) :
  i <> j -> nth_error (update i f l) j = nth_error l j.
Proof.
  revert i j; induction l as [|y l IH]; intros [|i] [|j] Hij; simpl; auto.
  congruence.
Qed.

Lemma map_update (B : Type) (g : A -> B) (i : nat) (f : A -> A) (l : list A) :
  (forall x, g (f x) = g x) -> map g (update i f l) = map g l.
Proof.
  intros Hg; revert i; induction l as [|y l IH]; intros [|i]; simpl;
    rewrite ?Hg, ?IH; auto.
Qed.

End ArrayLemmas.

(* ================================================================== *)
(** ** The loader: lemmas *)

Lemma edgesOf_update (h : list GraphNode) (i u : ref) (e : EdgeToNode) :
  edgesOf (update i
             (fun n => mkGraphNode (name n) (edgesToNodes n ++ [e])) h) u
  = if Nat.eqb u i
    then match nth_error h u with
         | Some _ => edgesOf h u ++ [e]
         | None => []
         end
    else edgesOf h u.
Proof.
  unfold edgesOf.
  destruct (Nat.eqb_spec u i) as [->|Hne].
  - rewrite nth_error_update_eq. destruct (nth_error h i); reflexivity.
  - rewrite nth_error_update_neq by congruence. reflexivity.
Qed.

Lemma addNodeTags_spec (ids : list string) (h : list GraphNode) :
  fold_left addNodeTag ids (mkStore h (seq 0 (length h)))
  = mkStore (h ++ map (fun id => mkGraphNode id []) ids)
            (seq 0 (length h + length ids)).
Proof.
  revert h; induction ids as [|id ids IH]; intros h; simpl.
  - rewrite app_nil_r, Nat.add_0_r. reflexivity.
  - assert (E : addNodeTag (mkStore h (seq 0 (length h))) id
               = mkStore (h ++ [mkGraphNode id []])
                         (seq 0 (length (h ++ [mkGraphNode id []])))).
    { unfold addNodeTag, newGraphNode, addGraphNode; simpl.
      rewrite length_app, seq_app. reflexivity. }
    rewrite E, IH, <- app_assoc, length_app. simpl.
    f_equal. f_equal. lia.
Qed.

Lemma findByName_some (s : Store) (nm : string) (r : ref) :
  findByName s nm = Some r ->
  In r (graphNodes s) /\ getName (heap s) r = Some nm.
Proof.
  unfold findByName, getGraphNodesList. intros H.
  apply find_some in H. destruct H as [Hin Hp]. split; auto.
  destruct (getName (heap s) r) as [n|]; try discriminate.
  apply String.eqb_eq in Hp. congruence.
Qed.

(** What one edge tag changes: two adjacency records are appended. *)
Lemma addEdgeTag_spec (s s' : Store) (edge : EdgeTag) :
  addEdgeTag s edge = Return s' ->
  exists a b w u v,
    source edge = Some a /\ target edge = Some b /\ data edge = Some w /\
    falsy w = false /\
    findByName s a = Some u /\ findByName s b = Some v /\
    s' = addAdjacentWeightedNode
           (addAdjacentWeightedNode s u (mkEdgeToNode v w))
           v (mkEdgeToNode u w).
Proof.
  unfold addEdgeTag. intros H.
  destruct (attr_missing (source edge) || attr_missing (target edge));
    try discriminate.
  destruct (source edge) as [a|]; try discriminate.
  destruct (target edge) as [b|]; try discriminate.
  destruct (data edge) as [w|]; try discriminate.
  destruct (falsy w) eqn:Hw; try discriminate.
  destruct (findByName s a) as [u|] eqn:Hu; try discriminate.
  destruct (findByName s b) as [v|] eqn:Hv; try discriminate.
  inversion H; subst. exists a, b, w, u, v. repeat split; auto.
Qed.



Lemma edgesOf_addEdge (s : Store) (u v : ref) (w : number) (x : ref)
  (e : EdgeToNode) :
  u < length (heap s) -> v < length (heap s) ->
  In e (edgesOf (heap (addAdjacentWeightedNode
                         (addAdjacentWeightedNode s u (mkEdgeToNode v w))
                         v (mkEdgeToNode u w))) x)
  <-> In e (edgesOf (heap s) x)
      \/ (x = u /\ e = mkEdgeToNode v w)
      \/ (x = v /\ e = mkEdgeToNode u w).
Proof.
  intros Hu Hv. simpl. rewrite !edgesOf_update.
  assert (Hsome : forall y, y < length (heap s) ->
                            exists n, nth_error (heap s) y = Some n).
  { intros y Hy. destruct (nth_error (heap s) y) eqn:E; eauto.
    apply nth_error_None in E. lia. }
  destruct (Nat.eqb_spec x v) as [->|Hxv].
  - destruct (Hsome v Hv) as [nv Env].
    destruct (Nat.eqb_spec v u) as [->|Hvu].
    + rewrite nth_error_update_eq, Env. simpl.
      rewrite !in_app_iff. simpl. intuition.
    + rewrite nth_error_update_neq by congruence. rewrite Env.
      rewrite in_app_iff. simpl. intuition.
  - destruct (Nat.eqb_spec x u) as [->|Hxu].
    + destruct (Hsome u Hu) as [nu Enu]. rewrite Enu.
      rewrite in_app_iff. simpl. intuition.
    + intuition.
Qed.

Lemma addEdgeTag_loaded (ids : list string) (s s' : Store) (edge : EdgeTag) :
  loaded ids s -> addEdgeTag s edge = Return s' -> loaded ids s'.
Proof.
  intros [[Hg Ht] Hn Hs Hw] H.
  apply addEdgeTag_spec in H.
  destruct H as (a & b & w & u & v & _ & _ & _ & Hfw & Hu & Hv & ->).
  apply findByName_some in Hu. apply findByName_some in Hv.
  destruct Hu as [Hu _]. destruct Hv as [Hv _].
  rewrite Hg in Hu, Hv. apply in_seq in Hu. apply in_seq in Hv.
  assert (Hlen : length (heap (addAdjacentWeightedNode
                                 (addAdjacentWeightedNode s u (mkEdgeToNode v w))
                                 v (mkEdgeToNode u w))) = length (heap s)).
  { simpl. rewrite !update_length. reflexivity. }
  constructor.
  - split.
    + simpl. rewrite !update_length. exact Hg.
    + intros x e He. rewrite Hlen.
      apply edgesOf_addEdge in He; try lia.
      destruct He as [He|[[_ ->]|[_ ->]]]; simpl; eauto; lia.
  - simpl. rewrite !map_update; auto.
  - intros x e He.
    apply edgesOf_addEdge in He; try lia.
    apply edgesOf_addEdge; try lia.
    destruct He as [He|[[-> ->]|[-> ->]]]; simpl; auto.
  - intros x e He.
    apply edgesOf_addEdge in He; try lia.
    destruct He as [He|[[_ ->]|[_ ->]]]; simpl; eauto.
Qed.

Lemma addEdgeTags_loaded (ids : list string) (es : list EdgeTag) (s s' : Store) :
  loaded ids s -> addEdgeTags s es = Return s' -> loaded ids s'.
Proof.
  revert s; induction es as [|edge es IH]; intros s Hl H; simpl in H.
  - inversion H; subst; auto.
  - destruct (addEdgeTag s edge) as [s1| |] eqn:E; simpl in H; try discriminate.
    eapply IH; [eapply addEdgeTag_loaded; eauto | exact H].
Qed.

Lemma addEdgeTags_data (es : list EdgeTag) (s s' : Store) :
  addEdgeTags s es = Return s' ->
  forall edge, In edge es ->
               exists w, data edge = Some w /\ falsy w = false.
Proof.
  revert s; induction es as [|e0 es IH]; intros s H edge Hin; simpl in *.
  - contradiction.
  - destruct (addEdgeTag s e0) as [s1| |] eqn:E; simpl in H; try discriminate.
    destruct Hin as [<-|Hin]; [|eauto].
    apply addEdgeTag_spec in E.
    destruct E as (a & b & w & u & v & _ & _ & Hd & Hfw & _). eauto.
Qed.

Lemma nodeStore_loaded (ids : list string) :
  loaded ids (fold_left addNodeTag ids newGraph).
Proof.
  unfold newGraph.
  change (mkStore [] [])
    with (mkStore (@nil GraphNode) (seq 0 (length (@nil GraphNode)))).
  rewrite addNodeTags_spec. simpl.
  assert (Hedges : forall u, edgesOf (map (fun id => mkGraphNode id []) ids) u = []).
  { intros u. unfold edgesOf. rewrite nth_error_map.
    destruct (nth_error ids u); reflexivity. }
  constructor; simpl.
  - split; simpl.
    + rewrite length_map. reflexivity.
    + intros u e He. rewrite Hedges in He. contradiction.
  - rewrite map_map. simpl. apply map_id.
  - intros u e He. rewrite Hedges in He. contradiction.
  - intros u e He. rewrite Hedges in He. contradiction.
Qed.

(** What a successful load establishes. *)
Lemma parseGraphMl_loaded (doc : XmlDocument) (s : Store) :
  parseGraphMl doc = Return s ->
  exists graphTag,
    doc = Some graphTag /\ loaded (nodes graphTag) s /\
    2 <= length (nodes graphTag) /\
    addEdgeTags (fold_left addNodeTag (nodes graphTag) newGraph)
                (edges graphTag) = Return s.
Proof.
  unfold parseGraphMl. destruct doc as [g|]; try discriminate.
  destruct (Nat.ltb_spec (length (nodes g)) 2) as [Hlt|Hge]; try discriminate.
  destruct (length (edges g) =? 0); try discriminate.
  intros H. exists g.
  split; [reflexivity|]. split; [|split; [exact Hge | exact H]].
  eapply addEdgeTags_loaded; [apply nodeStore_loaded | exact H].
Qed.

Lemma loaded_length (ids : list string) (s : Store) :
  loaded ids s -> length (heap s) = length ids.
Proof.
  intros [_ Hn _ _]. rewrite <- Hn, length_map. reflexivity.
Qed.

(* ================================================================== *)
(** ** Numbers: lemmas *)

Ltac num_cases :=
  repeat match goal with
         | x : number |- _ => destruct x
         end;
  simpl in *; try congruence;
  rewrite ?Z.ltb_lt, ?Z.ltb_ge in *;
  try congruence; try (f_equal; lia); try lia.

Lemma ltb_irrefl (a : number) : ltb a a = false.
Proof. destruct a; simpl; auto. apply Z.ltb_irrefl. Qed.

Lemma ltb_trans (a b c : number) :
  ltb a b = true -> ltb b c = true -> ltb a c = true.
Proof. intros; num_cases. Qed.

Lemma ltb_not_nan (a b : number) :
  ltb a b = true -> a <> NaN /\ b <> NaN.
Proof. intros; split; num_cases. Qed.

Lemma ltb_antisym (a b : number) :
  a <> NaN -> b <> NaN -> ltb a b = false -> ltb b a = false -> a = b.
Proof. intros; num_cases. Qed.

Lemma ltb_asym (a b : number) : ltb a b = true -> ltb b a = false.
Proof. intros; num_cases. Qed.


(** [a < b <= c] *)
Lemma ltb_leb_trans (a b c : number) :
  c <> NaN -> ltb a b = true -> ltb c b = false -> ltb a c = true.
Proof. intros; num_cases. Qed.

(** [a <= b <= c] *)
Lemma leb_trans (a b c : number) :
  b <> NaN -> ltb b a = false -> ltb c b = false -> ltb c a = false.
Proof. intros; num_cases. Qed.

Lemma falsy_spec (w : number) :
  falsy w = false <-> w <> NaN /\ w <> Fin 0.
Proof.
  destruct w; simpl.
  - split; [discriminate | intros [H _]; congruence].
  - split; [split; discriminate | reflexivity].
  - rewrite Z.eqb_neq. split.
    + intros H. split; [discriminate | congruence].
    + intros [_ H] E. apply H. congruence.
  - split; [split; discriminate | reflexivity].
Qed.

Lemma add_infinity_not_less (w b : number) : ltb (add Infinity w) b = false.
Proof. destruct w, b; reflexivity. Qed.


Unset Implicit Arguments.

Section Rounding.
Local Open Scope Z_scope.

Lemma two53_pow : two53 = 2 ^ 53.
Proof. reflexivity. Qed.

Lemma roundMagnitude_small (a : Z) : a < two53 -> roundMagnitude a = a.
Proof.
  intros H. unfold roundMagnitude.
  destruct (Z.ltb_spec a two53); [reflexivity | lia].
Qed.

(** The shape of a magnitude from [2^53] on. *)
Lemma magnitude_shape (a : Z) :
  two53 <= a ->
  exists e q r,
    e = Z.log2 a - 52 /\ 1 <= e /\
    q = a / 2 ^ e /\ r = a mod 2 ^ e /\
    2 ^ 52 <= q < 2 ^ 53 /\ 0 <= r < 2 ^ e /\ a = q * 2 ^ e + r /\
    0 < 2 ^ e.
Proof.
  intros Ha. rewrite two53_pow in Ha.
  assert (Hpos : 0 < a) by (assert (0 < 2 ^ 53) by (apply Z.pow_pos_nonneg; lia); lia).
  pose proof (Z.log2_spec a Hpos) as [Hlo Hhi].
  assert (Hk : 53 <= Z.log2 a).
  { apply Z.log2_le_pow2; auto. }
  set (e := Z.log2 a - 52) in *.
  assert (He : 1 <= e) by (unfold e; lia).
  assert (Hpe : 0 < 2 ^ e) by (apply Z.pow_pos_nonneg; lia).
  assert (E1 : 2 ^ Z.log2 a = 2 ^ 52 * 2 ^ e).
  { rewrite <- Z.pow_add_r by lia. f_equal. unfold e. lia. }
  assert (E2 : 2 ^ Z.succ (Z.log2 a) = 2 ^ 53 * 2 ^ e).
  { rewrite <- Z.pow_add_r by lia. f_equal. unfold e. lia. }
  exists e, (a / 2 ^ e), (a mod 2 ^ e).
  pose proof (Z.div_mod a (2 ^ e) ltac:(lia)) as Hdm.
  pose proof (Z.mod_pos_bound a (2 ^ e) Hpe) as Hm.
  split; [reflexivity|]. split; [exact He|].
  split; [reflexivity|]. split; [reflexivity|].
  split; [|split; [exact Hm | split; [|exact Hpe]]].
  - split.
    + apply Z.div_le_lower_bound; lia.
    + apply Z.div_lt_upper_bound; lia.
  - rewrite Z.mul_comm. exact Hdm.
Qed.

Lemma roundsUp_mono (e q r r' : Z) :
  r <= r' -> roundsUp e q r = true -> roundsUp e q r' = true.
Proof.
  unfold roundsUp. intros Hr Up.
  apply orb_true_iff in Up. apply orb_true_iff.
  destruct Up as [Up|Up].
  - left. apply Z.ltb_lt in Up. apply Z.ltb_lt. lia.
  - apply andb_true_iff in Up. destruct Up as [Up Ho].
    apply Z.eqb_eq in Up.
    destruct (Z.eq_dec (2 * r') (2 ^ e)) as [E|N].
    + right. rewrite E, Z.eqb_refl, Ho. reflexivity.
    + left. apply Z.ltb_lt. lia.
Qed.

Lemma roundsUp_zero (e q : Z) : 0 < 2 ^ e -> roundsUp e q 0 = false.
Proof.
  intros H. unfold roundsUp.
  replace (2 ^ e <? 2 * 0) with false by (symmetry; apply Z.ltb_ge; lia).
  replace (2 * 0 =? 2 ^ e) with false by (symmetry; apply Z.eqb_neq; lia).
  reflexivity.
Qed.

Lemma roundMagnitude_large (a : Z) :
  two53 <= a ->
  exists e q r,
    e = Z.log2 a - 52 /\ 1 <= e /\
    2 ^ 52 <= q < 2 ^ 53 /\ 0 <= r < 2 ^ e /\ a = q * 2 ^ e + r /\
    0 < 2 ^ e /\
    roundMagnitude a = (if roundsUp e q r then q + 1 else q) * 2 ^ e.
Proof.
  intros Ha.
  destruct (magnitude_shape a Ha)
    as (e & q & r & Ee & He & Eq & Er & Hq & Hr & Ea & Hpe).
  exists e, q, r.
  split; [exact Ee|]. split; [exact He|]. split; [exact Hq|].
  split; [exact Hr|]. split; [exact Ea|]. split; [exact Hpe|].
  unfold roundMagnitude, roundsUp.
  destruct (Z.ltb_spec a two53); [lia|].
  cbv zeta. rewrite <- Ee, <- Eq, <- Er.
  destruct ((2 ^ e <? 2 * r) || ((2 * r =? 2 ^ e) && Z.odd q)); reflexivity.
Qed.

Lemma roundMagnitude_mono (a b : Z) :
  a <= b -> roundMagnitude a <= roundMagnitude b.
Proof.
  intros Hab.
  destruct (Z.lt_ge_cases b two53) as [Hb|Hb].
  - rewrite !roundMagnitude_small by lia. exact Hab.
  - destruct (roundMagnitude_large b Hb)
      as (eb & qb & rb & Eeb & Heb & Hqb & Hrb & Eb & Hpb & Mb).
    assert (Hlow : qb * 2 ^ eb <= roundMagnitude b).
    { rewrite Mb. destruct (roundsUp eb qb rb); nia. }
    destruct (Z.lt_ge_cases a two53) as [Ha|Ha].
    + rewrite (roundMagnitude_small a Ha).
      rewrite two53_pow in Ha.
      assert (2 ^ 1 <= 2 ^ eb) by (apply Z.pow_le_mono_r; lia).
      change (2 ^ 53) with (2 ^ 52 * 2 ^ 1) in Ha. nia.
    + destruct (roundMagnitude_large a Ha)
        as (ea & qa & ra & Eea & Hea & Hqa & Hra & Ea & Hpa & Ma).
      assert (Hup : roundMagnitude a <= (qa + 1) * 2 ^ ea).
      { rewrite Ma. destruct (roundsUp ea qa ra); nia. }
      assert (Hle : ea <= eb).
      { pose proof (Z.log2_le_mono a b Hab). lia. }
      destruct (Z.eq_dec ea eb) as [E|N].
      * rewrite <- E in *.
        destruct (Z.lt_trichotomy qa qb) as [Hq|[Hq|Hq]].
        -- nia.
        -- rewrite <- Hq in *. assert (Hr : ra <= rb) by nia.
           rewrite Ma, Mb.
           destruct (roundsUp ea qa ra) eqn:Ua.
           ++ rewrite (roundsUp_mono ea qa ra rb Hr Ua). lia.
           ++ destruct (roundsUp ea qa rb); nia.
        -- exfalso. nia.
      * assert (Hp : 2 ^ (ea + 1) <= 2 ^ eb) by (apply Z.pow_le_mono_r; lia).
        rewrite Z.pow_add_r in Hp by lia. change (2 ^ 1) with 2 in Hp.
        change (2 ^ 53) with (2 ^ 52 * 2) in *.
        nia.
Qed.

Lemma multiple_unique (p x y r : Z) :
  0 < p -> 0 <= r < p -> x * p = y * p + r -> y = x /\ r = 0.
Proof.
  intros Hp Hr E.
  destruct (Z.lt_trichotomy x y) as [H|[H|H]]; [exfalso; nia | split; nia | exfalso; nia].
Qed.

(** A rounded magnitude is not rounded again. *)
Lemma roundMagnitude_fixed (a : Z) :
  0 <= a -> roundMagnitude (roundMagnitude a) = roundMagnitude a.
Proof.
  intros H0.
  destruct (Z.lt_ge_cases a two53) as [Ha|Ha].
  - rewrite !roundMagnitude_small; auto. rewrite roundMagnitude_small; auto.
  - destruct (roundMagnitude_large a Ha)
      as (e & q & r & Ee & He & Hq & Hr & Ea & Hpe & M).
    set (q' := if roundsUp e q r then q + 1 else q) in *.
    assert (Hq' : 2 ^ 52 <= q' <= 2 ^ 53) by (unfold q'; destruct (roundsUp e q r); lia).
    assert (Hm : two53 <= roundMagnitude a).
    { rewrite M, two53_pow.
      assert (2 ^ 1 <= 2 ^ e) by (apply Z.pow_le_mono_r; lia).
      change (2 ^ 53) with (2 ^ 52 * 2 ^ 1). nia. }
    destruct (roundMagnitude_large _ Hm)
      as (e2 & q2 & r2 & Ee2 & He2 & Hq2 & Hr2 & Ea2 & Hpe2 & M2).
    destruct (Z.eq_dec q' (2 ^ 53)) as [Etop|Ntop].
    + assert (El : Z.log2 (roundMagnitude a) = 53 + e).
      { rewrite M, Etop, <- Z.pow_add_r by lia. apply Z.log2_pow2. lia. }
      assert (e2 = e + 1) by lia. clear Ee2. subst e2.
      assert (Ep : 2 ^ (e + 1) = 2 ^ e * 2)
        by (rewrite Z.pow_add_r by lia; reflexivity).
      rewrite Ep in *.
      rewrite M in Ea2. rewrite Etop in Ea2.
      change (2 ^ 53) with (2 ^ 52 * 2) in *.
      assert (Ea3 : 2 ^ 52 * (2 ^ e * 2) = q2 * (2 ^ e * 2) + r2) by lia.
      destruct (multiple_unique (2 ^ e * 2) (2 ^ 52) q2 r2 ltac:(lia) Hr2 Ea3) as [-> ->].
      rewrite M2, roundsUp_zero by lia.
      rewrite M, Etop. change (2 ^ 53) with (2 ^ 52 * 2). lia.
    + assert (El : Z.log2 (roundMagnitude a) = 52 + e).
      { apply Z.log2_unique; [lia|].
        replace (Z.succ (52 + e)) with (53 + e) by lia.
        rewrite M, !Z.pow_add_r by lia.
        assert (q' < 2 ^ 53) by lia.
        split; [apply Z.mul_le_mono_nonneg_r | apply Z.mul_lt_mono_pos_r]; lia. }
      assert (e2 = e) by lia. clear Ee2. subst e2.
      rewrite M in Ea2.
      destruct (multiple_unique (2 ^ e) q' q2 r2 Hpe Hr2 Ea2) as [-> ->].
      rewrite M2, roundsUp_zero by lia.
      rewrite M. reflexivity.
Qed.

Lemma two53_lt_two1024 : two53 < two1024.
Proof. reflexivity. Qed.

(** Below [2^53] nothing is rounded. *)
Lemma roundDouble_exact (z : Z) :
  Z.abs z < two53 -> roundDouble z = Fin z.
Proof.
  intros H. unfold roundDouble. rewrite (roundMagnitude_small _ H).
  pose proof two53_lt_two1024.
  destruct (Z.leb_spec two1024 (Z.abs z)); [lia|].
  f_equal. destruct (Z.ltb_spec z 0); lia.
Qed.

Lemma roundMagnitude_nonneg (a : Z) : 0 <= a -> 0 <= roundMagnitude a.
Proof.
  intros H. rewrite <- (roundMagnitude_small 0) by reflexivity.
  apply roundMagnitude_mono. exact H.
Qed.

(** What a magnitude rounds to. *)
Lemma roundDouble_nonneg (z : Z) :
  0 <= z ->
  roundDouble z = Infinity
  \/ (roundDouble z = Fin (roundMagnitude z) /\ roundMagnitude z < two1024).
Proof.
  intros H. unfold roundDouble. rewrite (Z.abs_eq z H).
  destruct (Z.ltb_spec z 0); [lia|].
  destruct (Z.leb_spec two1024 (roundMagnitude z)); auto.
Qed.

(** The doubles that are not negative, in the model: the values that
    rounding leaves as they are. *)
Lemma roundDouble_fixed_nonneg (z : Z) :
  0 <= z -> roundDouble z = Fin z -> roundMagnitude z = z.
Proof.
  intros H E.
  destruct (roundDouble_nonneg z H) as [E'|[E' _]]; congruence.
Qed.

Lemma roundDouble_rounded (z : Z) :
  0 <= z -> roundMagnitude z < two1024 ->
  roundDouble (roundMagnitude z) = Fin (roundMagnitude z).
Proof.
  intros H Hm.
  pose proof (roundMagnitude_nonneg z H) as H0.
  destruct (roundDouble_nonneg _ H0) as [E|[E _]].
  - unfold roundDouble in E. rewrite (Z.abs_eq _ H0) in E.
    rewrite (roundMagnitude_fixed z H) in E.
    destruct (Z.leb_spec two1024 (roundMagnitude z)); [lia|discriminate].
  - rewrite E. rewrite (roundMagnitude_fixed z H). reflexivity.
Qed.
End Rounding.

Set Implicit Arguments.

Lemma roundDouble_not_nan (z : Z) : roundDouble z <> NaN.
Proof.
  unfold roundDouble.
  destruct (two1024 <=? roundMagnitude (Z.abs z))%Z;
    [destruct (z <? 0)%Z|]; discriminate.
Qed.

Lemma add_exact (x y : Z) :
  (Z.abs (x + y) < two53)%Z -> add (Fin x) (Fin y) = Fin (x + y).
Proof. intros H. simpl. apply roundDouble_exact. exact H. Qed.

Lemma add_comm (a b : number) : add a b = add b a.
Proof. destruct a, b; simpl; auto. rewrite Z.add_comm. reflexivity. Qed.

(** A double that is not negative, or [Infinity]: the distances that
    the engine computes from positive weights. *)
Lemma nonneg_zero : nonneg (Fin 0).
Proof. right. exists 0%Z. split; [reflexivity|]. split; [lia | reflexivity]. Qed.

Lemma nonneg_not_nan (a : number) : nonneg a -> a <> NaN.
Proof. intros [->|(z & -> & _)]; discriminate. Qed.

(** Adding a positive weight to a distance gives a distance again,
    and never a smaller one: rounding is monotone. *)
Lemma nonneg_add (a : number) (z : Z) :
  nonneg a -> (0 < z)%Z ->
  nonneg (add a (Fin z)) /\ ltb (add a (Fin z)) a = false.
Proof.
  intros [->|(x & -> & Hx & Ex)] Hz.
  - split; [left; reflexivity | reflexivity].
  - simpl.
    assert (Hxz : (0 <= x + z)%Z) by lia.
    pose proof (roundDouble_fixed_nonneg x Hx Ex) as Mx.
    pose proof (roundMagnitude_mono x (x + z) ltac:(lia)) as Hm.
    rewrite Mx in Hm.
    destruct (roundDouble_nonneg (x + z) Hxz) as [E|[E Hlt]]; rewrite E.
    + split; [left; reflexivity | reflexivity].
    + split.
      * right. exists (roundMagnitude (x + z)).
        split; [reflexivity|]. split; [lia|].
        apply roundDouble_rounded; assumption.
      * simpl. apply Z.ltb_ge. exact Hm.
Qed.

Lemma add_pos_not_less (a : number) (z : Z) :
  nonneg a -> (0 < z)%Z -> ltb (add a (Fin z)) a = false.
Proof. intros Ha Hz. apply (nonneg_add Ha Hz). Qed.

Lemma add_pos_less_inv (a b : number) (z : Z) :
  nonneg a -> (0 < z)%Z -> ltb (add a (Fin z)) b = true ->
  exists x, a = Fin x /\ (0 <= x)%Z /\ ltb a b = true /\
            nonneg (add a (Fin z)).
Proof.
  intros Ha Hz L.
  destruct (nonneg_add Ha Hz) as [Hn Hle].
  destruct Ha as [->|(x & -> & Hx & Ex)].
  - destruct b; discriminate.
  - exists x. split; [reflexivity|]. split; [exact Hx|]. split; [|exact Hn].
    destruct (add (Fin x) (Fin z)) as [| |c|], b as [| |d|];
      simpl in *; try discriminate; auto.
    apply Z.ltb_lt in L. apply Z.ltb_ge in Hle. apply Z.ltb_lt. lia.
Qed.

(* ================================================================== *)
(** ** Walks: lemmas *)

Lemma isPath_snoc (h : list GraphNode) (u p v : ref)
  (steps : list EdgeToNode) (e : EdgeToNode) :
  isPath h u steps p -> In e (edgesOf h p) -> targetNode e = v ->
  isPath h u (steps ++ [e]) v.
Proof.
  revert u; induction steps as [|e0 steps IH]; intros u Hp He Et; simpl in *.
  - subst. auto.
  - destruct Hp as [H0 Hp]. split; auto.
Qed.

Lemma pathWeight_snoc (steps : list EdgeToNode) (e : EdgeToNode) :
  pathWeight (steps ++ [e]) = add (pathWeight steps) (weight e).
Proof.
  unfold pathWeight. rewrite fold_left_app. reflexivity.
Qed.


Lemma isPath_last (h : list GraphNode) (steps : list EdgeToNode)
  (u v d : ref) :
  isPath h u steps v -> last (pathNodes u steps) d = v.
Proof.
  revert u; induction steps as [|e steps IH]; intros u Hp; simpl in *.
  - auto.
  - destruct Hp as [_ Hp]. apply IH in Hp. exact Hp.
Qed.

Lemma last_map_default (A B : Type) (f : A -> B) (l : list A) (d : A) :
  last (map f l) (f d) = f (last l d).
Proof.
  induction l as [|x l IH]; simpl; auto.
  destruct l; simpl in *; auto.
Qed.

Lemma isPath_bound (h : list GraphNode) (n : nat) (steps : list EdgeToNode)
  (u v : ref) :
  (forall x e, In e (edgesOf h x) -> targetNode e < n) ->
  u < n -> isPath h u steps v -> v < n.
Proof.
  intros Ht. revert u; induction steps as [|e steps IH]; intros u Hu Hp;
    simpl in Hp.
  - subst. exact Hu.
  - destruct Hp as [He Hp]. apply IH with (u := targetNode e); auto.
    eapply Ht; eauto.
Qed.

Lemma isPath_snoc_inv (h : list GraphNode) (steps : list EdgeToNode)
  (e : EdgeToNode) (u v : ref) :
  isPath h u (steps ++ [e]) v ->
  exists p, isPath h u steps p /\ In e (edgesOf h p) /\ targetNode e = v.
Proof.
  revert u; induction steps as [|e0 steps IH]; intros u Hp; simpl in *.
  - destruct Hp as [He Hv]. exists u. auto.
  - destruct Hp as [He0 Hp]. destruct (IH _ Hp) as (p & Hp' & He & Hv).
    exists p. auto.
Qed.


Lemma reverseWalk_weights (u : ref) (steps : list EdgeToNode) :
  map weight (reverseWalk u steps) = rev (map weight steps).
Proof.
  revert u; induction steps as [|e steps IH]; intros u; simpl; auto.
  rewrite map_app, IH. reflexivity.
Qed.


(** In an undirected graph the walk back is a walk. *)
Lemma isPath_reverse (h : list GraphNode) (steps : list EdgeToNode)
  (u v : ref) :
  undirected h -> isPath h u steps v -> isPath h v (reverseWalk u steps) u.
Proof.
  intros Hsym. revert u; induction steps as [|e steps IH]; intros u Hp;
    simpl in *.
  - auto.
  - destruct Hp as [He Hp].
    apply isPath_snoc with (p := targetNode e); auto.
Qed.

Lemma weightOf_reversed (u : ref) (e : EdgeToNode) :
  weightOf (mkEdgeToNode u (weight e)) = weightOf e.
Proof. reflexivity. Qed.

Lemma walkSum_snoc (steps : list EdgeToNode) (e : EdgeToNode) :
  walkSum (steps ++ [e]) = (walkSum steps + weightOf e)%Z.
Proof.
  induction steps as [|e0 steps IH]; simpl.
  - lia.
  - rewrite IH. lia.
Qed.

(** A walk and the walk back weigh the same. *)
Lemma walkSum_reverse (u : ref) (steps : list EdgeToNode) :
  walkSum (reverseWalk u steps) = walkSum steps.
Proof.
  revert u; induction steps as [|e steps IH]; intros u; simpl; auto.
  rewrite walkSum_snoc, IH, weightOf_reversed. lia.
Qed.

(** The walk back passes through the same nodes, in reverse. *)
Lemma pathNodes_reverse (h : list GraphNode) (steps : list EdgeToNode)
  (u v : ref) :
  isPath h u steps v ->
  pathNodes v (reverseWalk u steps) = rev (pathNodes u steps).
Proof.
  unfold pathNodes.
  revert u; induction steps as [|e steps IH]; intros u Hp; simpl in *.
  - subst. reflexivity.
  - destruct Hp as [_ Hp]. rewrite map_app. simpl.
    rewrite app_comm_cons, (IH _ Hp). simpl. reflexivity.
Qed.

Lemma Zabs_weightOf_le_load (es : list EdgeToNode) (e : EdgeToNode) :
  In e es -> (Z.abs (weightOf e) <= load es)%Z.
Proof.
  assert (H0 : forall l, (0 <= load l)%Z).
  { induction l as [|x l IH]; simpl; lia. }
  induction es as [|x es IH]; simpl; [contradiction|].
  intros [->|H].
  - pose proof (H0 es). lia.
  - specialize (IH H). lia.
Qed.

Lemma load_nonneg (es : list EdgeToNode) : (0 <= load es)%Z.
Proof. induction es as [|x l IH]; simpl; lia. Qed.

Lemma load_app (l1 l2 : list EdgeToNode) :
  load (l1 ++ l2) = (load l1 + load l2)%Z.
Proof. induction l1 as [|x l1 IH]; simpl; [reflexivity | rewrite IH; lia]. Qed.

Lemma visitedLoad_nonneg (h : list GraphNode) (l : list ref) :
  (0 <= visitedLoad h l)%Z.
Proof.
  induction l as [|x l IH]; simpl; [lia|].
  pose proof (load_nonneg (edgesOf h x)). lia.
Qed.

Lemma visitedLoad_snoc (h : list GraphNode) (l : list ref) (u : ref) :
  visitedLoad h (l ++ [u]) = (visitedLoad h l + load (edgesOf h u))%Z.
Proof. induction l as [|x l IH]; simpl; [lia | rewrite IH; lia]. Qed.

(** The records of the nodes up to [n], each node once, weigh no more
    than the records of the heap. *)
Lemma visitedLoad_seq (h : list GraphNode) :
  visitedLoad h (seq 0 (length h)) = totalLoad h.
Proof.
  assert (G : forall pre l,
             visitedLoad (pre ++ l) (seq (length pre) (length l))
             = totalLoad l).
  { intros pre l. revert pre. induction l as [|nd l IH]; intros pre; simpl.
    - reflexivity.
    - unfold edgesOf at 1. rewrite nth_error_app2 by lia.
      rewrite Nat.sub_diag. simpl.
      replace (pre ++ nd :: l) with ((pre ++ [nd]) ++ l)
        by (rewrite <- app_assoc; reflexivity).
      replace (S (length pre)) with (length (pre ++ [nd]))
        by (rewrite length_app; simpl; lia).
      rewrite IH. reflexivity. }
  apply (G [] h).
Qed.

Lemma NoDup_remove_elt (l : list ref) (x : ref) :
  NoDup l -> NoDup (remove Nat.eq_dec x l).
Proof.
  induction 1 as [|y l Hy Hnd IH]; simpl; [constructor|].
  destruct (Nat.eq_dec x y); auto.
  constructor; auto.
  intros Hin. apply in_remove in Hin. tauto.
Qed.

Lemma visitedLoad_remove (h : list GraphNode) (l : list ref) (x : ref) :
  NoDup l -> In x l ->
  visitedLoad h l
  = (load (edgesOf h x) + visitedLoad h (remove Nat.eq_dec x l))%Z.
Proof.
  induction l as [|y l IH]; intros Hnd Hin; [contradiction|].
  inversion Hnd as [|? ? Hy Hnd']; subst. simpl.
  destruct (Nat.eq_dec x y) as [->|Hne].
  - rewrite notin_remove by exact Hy. reflexivity.
  - destruct Hin as [E|Hin]; [congruence|].
    simpl. rewrite (IH Hnd' Hin). lia.
Qed.

Lemma visitedLoad_le (h : list GraphNode) (l : list ref) :
  NoDup l -> (forall x, In x l -> x < length h) ->
  (visitedLoad h l <= totalLoad h)%Z.
Proof.
  rewrite <- visitedLoad_seq.
  assert (G : forall l2 l1 : list ref,
             NoDup l1 -> NoDup l2 -> incl l1 l2 ->
             (visitedLoad h l1 <= visitedLoad h l2)%Z).
  { intros l2 l1. revert l2. induction l1 as [|x l1 IH]; intros l2 N1 N2 Hi.
    - simpl. apply visitedLoad_nonneg.
    - inversion N1 as [|? ? Hx N1']; subst.
      assert (Hx2 : In x l2) by (apply Hi; simpl; auto).
      rewrite (@visitedLoad_remove h l2 x N2 Hx2). simpl.
      assert (visitedLoad h l1 <= visitedLoad h (remove Nat.eq_dec x l2))%Z;
        [|lia].
      apply IH; auto.
      + apply NoDup_remove_elt. exact N2.
      + intros y Hy. apply in_in_remove.
        * intros ->. contradiction.
        * apply Hi. simpl. auto. }
  intros Hnd Hlt. apply G; auto.
  - apply seq_NoDup.
  - intros x Hx. apply in_seq. specialize (Hlt x Hx). lia.
Qed.

Lemma weight_le_totalLoad (h : list GraphNode) (u : ref) (e : EdgeToNode) :
  u < length h -> In e (edgesOf h u) ->
  (Z.abs (weightOf e) <= totalLoad h)%Z.
Proof.
  intros Hu He.
  pose proof (@Zabs_weightOf_le_load _ _ He) as H1.
  assert (H2 : (visitedLoad h [u] <= totalLoad h)%Z).
  { apply visitedLoad_le.
    - constructor; [intros [] | constructor].
    - intros x [<-|[]]. exact Hu. }
  simpl in H2. lia.
Qed.

(* ================================================================== *)
(** ** The lookup table: lemmas *)

Lemma findIndex_from_shape (t : list LookupTableEntry) (i k r : nat) :
  map node t = seq i k -> i <= r < i + k ->
  findIndex_from i (fun e => Nat.eqb (node e) r) t = Some r.
Proof.
  revert i k; induction t as [|e t IH]; intros i k Hs Hr.
  - destruct k; simpl in Hs; [lia | discriminate].
  - destruct k as [|k]; simpl in Hs; [discriminate|].
    injection Hs as He Ht. simpl. rewrite He.
    destruct (Nat.eqb_spec i r) as [->|Hne]; [reflexivity|].
    apply IH with (k := k); [exact Ht | lia].
Qed.

Lemma tableShape_length (n : nat) (t : list LookupTableEntry) :
  tableShape n t -> length t = n.
Proof.
  unfold tableShape. intros H.
  rewrite <- (length_map node), H, length_seq. reflexivity.
Qed.

Lemma tableShape_nth (n : nat) (t : list LookupTableEntry) (r : nat) :
  tableShape n t -> r < n ->
  exists e, nth_error t r = Some e /\ node e = r.
Proof.
  intros Hs Hr.
  destruct (nth_error t r) as [e|] eqn:E.
  - exists e. split; auto.
    assert (H : nth_error (map node t) r = Some (node e))
      by (rewrite nth_error_map, E; reflexivity).
    rewrite Hs in H. rewrite nth_error_seq in H.
    destruct (Nat.ltb_spec r n); simpl in H; [congruence | lia].
  - apply nth_error_None in E. rewrite (tableShape_length Hs) in E. lia.
Qed.

Lemma getTableEntryforNode_shape (n : nat) (t : list LookupTableEntry) (r : ref) :
  tableShape n t -> r < n -> getTableEntryforNode t r = Some r.
Proof.
  intros Hs Hr. unfold getTableEntryforNode, findIndex.
  apply findIndex_from_shape with (k := n); [exact Hs | lia].
Qed.

Lemma entryOf_shape (n : nat) (t : list LookupTableEntry) (r : ref) :
  tableShape n t -> r < n -> entryOf t r = nth_error t r.
Proof.
  intros Hs Hr. unfold entryOf.
  rewrite (getTableEntryforNode_shape Hs Hr). reflexivity.
Qed.

Lemma distanceOf_shape (n : nat) (t : list LookupTableEntry) (r : ref) :
  tableShape n t -> r < n -> distanceOf t r = Some (dOf t r).
Proof.
  intros Hs Hr. unfold distanceOf, dOf. rewrite (entryOf_shape Hs Hr).
  destruct (tableShape_nth Hs Hr) as (e & -> & _). reflexivity.
Qed.

Lemma previousOf_shape (n : nat) (t : list LookupTableEntry) (r : ref) :
  tableShape n t -> r < n -> previousOf t r = pOf t r.
Proof.
  intros Hs Hr. unfold previousOf, pOf. rewrite (entryOf_shape Hs Hr).
  reflexivity.
Qed.

Lemma relax1_shape (n : nat) (u : ref) (t : list LookupTableEntry)
  (e : EdgeToNode) :
  tableShape n t -> tableShape n (relax1 u t e).
Proof.
  unfold tableShape, relax1. intros Hs.
  destruct (ltb _ _); auto. rewrite map_update; auto.
Qed.

Lemma relaxEdge_shape (n : nat) (u : ref) (t : list LookupTableEntry)
  (e : EdgeToNode) :
  tableShape n t -> u < n -> targetNode e < n ->
  relaxEdge u (Some u) t e = Return (relax1 u t e).
Proof.
  intros Hs Hu Hv. unfold relaxEdge, relax1, dOf.
  rewrite (getTableEntryforNode_shape Hs Hv).
  destruct (tableShape_nth Hs Hu) as (eu & -> & _).
  destruct (tableShape_nth Hs Hv) as (ev & -> & _).
  destruct (ltb _ _); reflexivity.
Qed.

Lemma relaxEdges_shape (n : nat) (u : ref) (es : list EdgeToNode)
  (t : list LookupTableEntry) :
  tableShape n t -> u < n -> (forall e, In e es -> targetNode e < n) ->
  relaxEdges u (Some u) t es = Return (fold_left (relax1 u) es t).
Proof.
  revert t; induction es as [|e es IH]; intros t Hs Hu Hes; cbn [relaxEdges].
  - reflexivity.
  - rewrite (relaxEdge_shape e Hs Hu) by (apply Hes; simpl; auto).
    cbn [bind fold_left].
    apply IH; auto.
    + apply relax1_shape; auto.
    + intros e' He'. apply Hes. simpl; auto.
Qed.

Lemma fold_relax1_shape (n : nat) (u : ref) (es : list EdgeToNode)
  (t : list LookupTableEntry) :
  tableShape n t -> tableShape n (fold_left (relax1 u) es t).
Proof.
  revert t; induction es as [|e es IH]; intros t Hs; simpl; auto.
  apply IH. apply relax1_shape; auto.
Qed.

(** The table after one adjacency record, read position by position. *)
Lemma dOf_relax1 (u : ref) (t : list LookupTableEntry) (e : EdgeToNode)
  (x : nat) :
  dOf (relax1 u t e) x
  = if Nat.eqb x (targetNode e)
       && ltb (add (dOf t u) (weight e)) (dOf t (targetNode e))
    then add (dOf t u) (weight e)
    else dOf t x.
Proof.
  unfold relax1.
  destruct (ltb (add (dOf t u) (weight e)) (dOf t (targetNode e))) eqn:L;
    [|rewrite andb_false_r; reflexivity].
  rewrite andb_true_r.
  destruct (Nat.eqb_spec x (targetNode e)) as [->|Hne].
  - unfold dOf at 1. rewrite nth_error_update_eq.
    destruct (nth_error t (targetNode e)) eqn:E; simpl; auto.
    unfold dOf in L at 2. rewrite E in L.
    destruct (add _ _); discriminate.
  - unfold dOf at 1. rewrite nth_error_update_neq by congruence. reflexivity.
Qed.

Lemma pOf_relax1 (u : ref) (t : list LookupTableEntry) (e : EdgeToNode)
  (x : nat) :
  pOf (relax1 u t e) x
  = if Nat.eqb x (targetNode e)
       && ltb (add (dOf t u) (weight e)) (dOf t (targetNode e))
    then Some u
    else pOf t x.
Proof.
  unfold relax1.
  destruct (ltb (add (dOf t u) (weight e)) (dOf t (targetNode e))) eqn:L;
    [|rewrite andb_false_r; reflexivity].
  rewrite andb_true_r.
  destruct (Nat.eqb_spec x (targetNode e)) as [->|Hne].
  - unfold pOf at 1. rewrite nth_error_update_eq.
    destruct (nth_error t (targetNode e)) eqn:E; simpl; auto.
    unfold dOf in L at 2. rewrite E in L.
    destruct (add _ _); discriminate.
  - unfold pOf at 1. rewrite nth_error_update_neq by congruence. reflexivity.
Qed.

(* ================================================================== *)
(** ** The selection of the next node: lemmas *)

Section Scan.
Local Abbreviation d := shortestDistanceToTargetNode.

(** The scan keeps the first entry of smallest distance. *)
Lemma smaller_scan (l : list LookupTableEntry) (a : LookupTableEntry) :
  (forall e, In e l -> d e <> NaN) -> d a <> NaN ->
  (fold_left smaller l a = a /\ forall e, In e l -> ltb (d e) (d a) = false)
  \/ exists l1 l2,
      l = l1 ++ fold_left smaller l a :: l2 /\
      ltb (d (fold_left smaller l a)) (d a) = true /\
      (forall e, In e l1 -> ltb (d (fold_left smaller l a)) (d e) = true) /\
      (forall e, In e l2 -> ltb (d e) (d (fold_left smaller l a)) = false).
Proof.
  revert a; induction l as [|e l IH]; intros a Hl Ha; simpl.
  - left. split; [reflexivity | contradiction].
  - assert (He : d e <> NaN) by (apply Hl; simpl; auto).
    assert (Hl' : forall e', In e' l -> d e' <> NaN)
      by (intros; apply Hl; simpl; auto).
    change (smaller a e) with (if ltb (d e) (d a) then e else a).
    destruct (ltb (d e) (d a)) eqn:L.
    + right. destruct (IH e Hl' He) as [[Em Hmin]|(l1 & l2 & El & Lm & H1 & H2)].
      * exists [], l. rewrite Em. simpl. repeat split; auto.
      * exists (e :: l1), l2. simpl. repeat split; auto.
        -- f_equal. exact El.
        -- eapply ltb_trans; eauto.
        -- intros e' [<-|He']; auto.
    + destruct (IH a Hl' Ha) as [[Em Hmin]|(l1 & l2 & El & Lm & H1 & H2)].
      * left. split; auto. intros e' [<-|He']; auto.
      * right. exists (e :: l1), l2. simpl. repeat split; auto.
        -- f_equal. exact El.
        -- intros e' [<-|He']; auto.
           eapply ltb_leb_trans; eauto.
Qed.

Lemma first_smallest (first : LookupTableEntry) (rest : list LookupTableEntry) :
  (forall e, In e (first :: rest) -> d e <> NaN) ->
  exists l1 l2,
    first :: rest = l1 ++ fold_left smaller (first :: rest) first :: l2 /\
    (forall e, In e l1 ->
               ltb (d (fold_left smaller (first :: rest) first)) (d e) = true) /\
    (forall e, In e l2 ->
               ltb (d e) (d (fold_left smaller (first :: rest) first)) = false).
Proof.
  intros Hn. simpl.
  change (smaller first first)
    with (if ltb (d first) (d first) then first else first).
  rewrite ltb_irrefl.
  destruct (@smaller_scan rest first) as [[Em Hmin]|(l1 & l2 & El & Lm & H1 & H2)].
  - intros; apply Hn; simpl; auto.
  - apply Hn; simpl; auto.
  - exists [], rest. rewrite Em. simpl. repeat split; auto.
  - exists (first :: l1), l2. simpl. repeat split; auto.
    + f_equal. exact El.
    + intros e [<-|He]; auto.
Qed.
End Scan.

Lemma includes_In (l : list ref) (x : ref) :
  includes Nat.eqb l x = true <-> In x l.
Proof.
  unfold includes. rewrite existsb_exists. split.
  - intros (y & Hy & E). apply Nat.eqb_eq in E. subst. exact Hy.
  - intros H. exists x. split; auto. apply Nat.eqb_refl.
Qed.

Lemma find_ref (l : list ref) (x : ref) :
  In x l -> find (fun g => Nat.eqb g x) l = Some x.
Proof.
  induction l as [|y l IH]; simpl; [contradiction|].
  intros H. destruct (Nat.eqb_spec y x) as [->|Hne]; auto.
  destruct H; [congruence | auto].
Qed.

Lemma shape_nodes_ge (t : list LookupTableEntry) (i k : nat) :
  map node t = seq i k -> forall e, In e t -> i <= node e < i + k.
Proof.
  intros Hs e He. apply (in_map node) in He. rewrite Hs in He.
  apply in_seq in He. exact He.
Qed.

(** The filtered table lists its entries by increasing node. *)
Lemma filter_shape_after (p : LookupTableEntry -> bool)
  (t : list LookupTableEntry) (i k : nat) (l1 l2 : list LookupTableEntry)
  (m : LookupTableEntry) :
  map node t = seq i k -> filter p t = l1 ++ m :: l2 ->
  forall e, In e l2 -> node m < node e.
Proof.
  revert i k l1; induction t as [|e0 t IH]; intros i k l1 Hs Hf e He.
  - destruct l1; discriminate.
  - destruct k as [|k]; [discriminate|]. simpl in Hs.
    injection Hs as He0 Ht. simpl in Hf.
    destruct (p e0).
    + destruct l1 as [|e1 l1]; simpl in Hf; injection Hf as E1 E2.
      * subst m. assert (In e t).
        { apply (proj1 (filter_In p e t)). rewrite E2. exact He. }
        pose proof (@shape_nodes_ge _ _ _ Ht e H). lia.
      * eapply IH; eauto.
    + eapply IH; eauto.
Qed.

Lemma shape_In_nth (n : nat) (t : list LookupTableEntry) (m : LookupTableEntry) :
  tableShape n t -> In m t -> nth_error t (node m) = Some m /\ node m < n.
Proof.
  intros Hs Hm. destruct (In_nth_error _ _ Hm) as [i Hi].
  assert (H : nth_error (map node t) i = Some (node m))
    by (rewrite nth_error_map, Hi; reflexivity).
  rewrite Hs, nth_error_seq in H.
  destruct (Nat.ltb_spec i n); simpl in H; [|discriminate].
  injection H as <-. auto.
Qed.

(** What [findNodeWithSmallestKnownDistance] returns on a table in
    shape: an unvisited node that no unvisited node beats, and that
    every earlier unvisited node exceeds strictly. *)
Lemma findNode_spec (n : nat) (t : list LookupTableEntry) (unv : list ref) :
  tableShape n t ->
  (forall x, x < n -> dOf t x <> NaN) ->
  unv <> [] ->
  (forall x, In x unv -> x < n) ->
  exists u,
    findNodeWithSmallestKnownDistance t unv = Return (Some u) /\
    In u unv /\
    (forall x, In x unv -> ltb (dOf t x) (dOf t u) = false) /\
    (forall x, In x unv -> x < u -> ltb (dOf t u) (dOf t x) = true).
Proof.
  intros Hs Hnan Hne Hlt.
  unfold findNodeWithSmallestKnownDistance.
  set (p := fun e => includes Nat.eqb unv (node e)).
  assert (Hin : forall x, In x unv ->
                          exists e, nth_error t x = Some e /\ node e = x /\
                                    In e (filter p t)).
  { intros x Hx. destruct (tableShape_nth Hs (Hlt x Hx)) as (e & He & Hnode).
    exists e. repeat split; auto. apply filter_In. split.
    - eapply nth_error_In; eauto.
    - unfold p. rewrite Hnode. apply includes_In. exact Hx. }
  assert (Hd : forall e, In e (filter p t) ->
                         shortestDistanceToTargetNode e <> NaN).
  { intros e He. apply filter_In in He. destruct He as [He _].
    destruct (shape_In_nth e Hs He) as [Hnth Hn].
    specialize (Hnan _ Hn). unfold dOf in Hnan. rewrite Hnth in Hnan. auto. }
  remember (filter p t) as fl eqn:Ef.
  destruct fl as [|first rest].
  - destruct unv as [|x unv]; [congruence|].
    destruct (Hin x (or_introl eq_refl)) as (e & _ & _ & []).
  - destruct (first_smallest Hd) as (l1 & l2 & El & H1 & H2).
    set (m := fold_left smaller (first :: rest) first) in *.
    assert (Hm : In m (filter p t)).
    { rewrite <- Ef, El. apply in_elt. }
    apply filter_In in Hm. destruct Hm as [Hmt Hpm].
    unfold p in Hpm. apply includes_In in Hpm.
    destruct (shape_In_nth m Hs Hmt) as [Hnth Hmn].
    exists (node m). split; [|split; [exact Hpm | split]].
    + rewrite (find_ref _ _ Hpm). reflexivity.
    + intros x Hx. destruct (Hin x Hx) as (e & He & Hnode & Hef).
      unfold dOf. rewrite He, Hnth.
      rewrite El in Hef. apply in_app_or in Hef.
      destruct Hef as [Hef|[<-|Hef]].
      * apply ltb_asym. auto.
      * apply ltb_irrefl.
      * auto.
    + intros x Hx Hxm. destruct (Hin x Hx) as (e & He & Hnode & Hef).
      unfold dOf. rewrite He, Hnth.
      rewrite El in Hef. apply in_app_or in Hef.
      destruct Hef as [Hef|[<-|Hef]].
      * auto.
      * lia.
      * assert (node m < node e).
        { eapply filter_shape_after with (t := t) (p := p); eauto.
          rewrite <- Ef. exact El. }
        lia.
Qed.

(* ================================================================== *)
(** ** The main loop: bookkeeping *)

Lemma indexOf_from_split (l : list ref) (u : ref) (i : Z) :
  In u l ->
  exists l1 l2,
    l = l1 ++ u :: l2 /\ ~ In u l1 /\
    indexOf_from Nat.eqb i l u = (i + Z.of_nat (length l1))%Z.
Proof.
  revert i; induction l as [|y l IH]; intros i Hin; [contradiction|].
  simpl. destruct (Nat.eqb_spec y u) as [->|Hne].
  - exists [], l. simpl. repeat split; auto. lia.
  - destruct Hin as [E|Hin]; [congruence|].
    destruct (IH (i + 1)%Z Hin) as (l1 & l2 & -> & Hn & E).
    exists (y :: l1), l2. simpl. repeat split; auto.
    + intros [E'|H']; [congruence | auto].
    + rewrite E. lia.
Qed.

Lemma remove_at_middle (A : Type) (l1 l2 : list A) (x : A) :
  remove_at (length l1) (l1 ++ x :: l2) = l1 ++ l2.
Proof.
  induction l1 as [|y l1 IH]; simpl; [reflexivity|].
  rewrite IH. reflexivity.
Qed.

(** Splicing out a node that the array holds removes its first
    occurrence. *)
Lemma splice_indexOf (l : list ref) (u : ref) :
  In u l ->
  exists l1 l2,
    l = l1 ++ u :: l2 /\ ~ In u l1 /\
    splice1 l (indexOf Nat.eqb l u) = l1 ++ l2.
Proof.
  intros Hin. destruct (@indexOf_from_split l u 0%Z Hin) as (l1 & l2 & El & Hn & E).
  exists l1, l2. repeat split; auto.
  unfold splice1, indexOf. rewrite E.
  assert (Hlen : (Z.of_nat (length l1) < Z.of_nat (length l))%Z).
  { rewrite El, length_app. simpl. lia. }
  destruct (Z.ltb_spec (0 + Z.of_nat (length l1)) 0); [lia|].
  rewrite Z.min_l by lia.
  replace (Z.to_nat (0 + Z.of_nat (length l1))) with (length l1) by lia.
  rewrite El at 1. apply remove_at_middle.
Qed.

Lemma relax1_nan (n : nat) (u : ref) (t : list LookupTableEntry) (e : EdgeToNode) :
  (forall x, x < n -> dOf t x <> NaN) ->
  forall x, x < n -> dOf (relax1 u t e) x <> NaN.
Proof.
  intros H x Hx. rewrite dOf_relax1.
  destruct (Nat.eqb x (targetNode e)); simpl; auto.
  destruct (ltb _ _) eqn:L; auto.
  apply ltb_not_nan in L. tauto.
Qed.

Lemma fold_relax1_nan (n : nat) (u : ref) (es : list EdgeToNode)
  (t : list LookupTableEntry) :
  (forall x, x < n -> dOf t x <> NaN) ->
  forall x, x < n -> dOf (fold_left (relax1 u) es t) x <> NaN.
Proof.
  revert t; induction es as [|e es IH]; intros t H; simpl; auto.
  apply IH. apply relax1_nan. exact H.
Qed.

Section Engine.
Variable h : list GraphNode.
Variable n : nat.
Hypothesis Hlen : length h = n.
Hypothesis Htargets : forall u e, In e (edgesOf h u) -> targetNode e < n.

Lemma getEdgesToNodes_edgesOf (u : ref) :
  u < n -> getEdgesToNodes h u = Some (edgesOf h u).
Proof.
  intros Hu. unfold getEdgesToNodes, edgesOf.
  destruct (nth_error h u) eqn:E; [reflexivity|].
  apply nth_error_None in E. lia.
Qed.

Lemma checkNeighboringNodes_spec (t : list LookupTableEntry) (u : ref) :
  tableShape n t -> u < n ->
  checkNeighboringNodes h t u = Return (fold_left (relax1 u) (edgesOf h u) t).
Proof.
  intros Hs Hu. unfold checkNeighboringNodes.
  rewrite (getTableEntryforNode_shape Hs Hu), (getEdgesToNodes_edgesOf Hu).
  apply relaxEdges_shape with (n := n); auto.
  intros e He. eapply Htargets; eauto.
Qed.

(** One turn of the loop on a state that keeps the books. *)
Lemma loopBody_spec (st : LoopState) :
  structInv n st -> length (visited st) < n ->
  exists u l1 l2,
    unvisited st = l1 ++ u :: l2 /\
    loopBody h st
    = Return (mkLoop (fold_left (relax1 u) (edgesOf h u) (lookupTable st))
                     (visited st ++ [u]) (l1 ++ l2)) /\
    findNodeWithSmallestKnownDistance (lookupTable st) (unvisited st)
    = Return (Some u) /\
    (forall x, In x (unvisited st) ->
               ltb (dOf (lookupTable st) x) (dOf (lookupTable st) u) = false) /\
    (forall x, In x (unvisited st) -> x < u ->
               ltb (dOf (lookupTable st) u) (dOf (lookupTable st) x) = true).
Proof.
  intros [Hs Hnd Hc Hcov Hunv Hvis Hnan] Hlt.
  assert (Hne : unvisited st <> []).
  { intros E. rewrite E in Hc. simpl in Hc. lia. }
  destruct (findNode_spec Hs Hnan Hne Hunv) as (u & Hf & Hu & Hmin & Hfirst).
  destruct (@splice_indexOf _ _ Hu) as (l1 & l2 & El & Hn1 & Esp).
  exists u, l1, l2. repeat split; auto.
  unfold loopBody. rewrite Hf. cbn [bind].
  rewrite (checkNeighboringNodes_spec Hs (Hunv u Hu)). cbn [bind].
  rewrite Esp. reflexivity.
Qed.

Lemma structInv_step (st : LoopState) (u : ref) (l1 l2 : list ref) :
  structInv n st -> unvisited st = l1 ++ u :: l2 ->
  structInv n (mkLoop (fold_left (relax1 u) (edgesOf h u) (lookupTable st))
                      (visited st ++ [u]) (l1 ++ l2)).
Proof.
  intros [Hs Hnd Hc Hcov Hunv Hvis Hnan] El.
  rewrite El in *.
  assert (Hu1 : ~ In u (l1 ++ l2)) by (apply NoDup_remove_2; exact Hnd).
  constructor; simpl.
  - apply fold_relax1_shape. exact Hs.
  - eapply NoDup_remove_1; eauto.
  - rewrite !length_app in *. simpl in *. lia.
  - intros x Hx. destruct (Hcov x Hx) as [Hv|Hv].
    + left. apply in_or_app. auto.
    + apply in_app_or in Hv. rewrite !in_app_iff. simpl in *.
      destruct Hv as [Hv|[Hv|Hv]]; auto.
  - intros x Hx. apply Hunv. apply in_app_or in Hx.
    apply in_or_app. simpl. tauto.
  - intros x Hx. apply in_app_or in Hx. destruct Hx as [Hx|[<-|[]]].
    + destruct (Hvis x Hx) as [Hxn Hxu]. split; auto.
      intros Hin. apply Hxu. apply in_app_or in Hin.
      apply in_or_app. simpl. tauto.
    + split; auto. apply Hunv. apply in_elt.
  - apply fold_relax1_nan. exact Hnan.
Qed.

Variable st0 : LoopState.
Hypothesis Hinit : structInv n st0.

Lemma loopState_structInv (st : LoopState) :
  loopState h n st0 st -> structInv n st.
Proof.
  induction 1 as [|st st' Hst IH Hlt Hbody]; auto.
  destruct (loopBody_spec IH Hlt) as (u & l1 & l2 & El & Eb & _).
  rewrite Eb in Hbody. injection Hbody as <-.
  apply structInv_step; auto.
Qed.

Lemma mainLoop_loopState (fuel : nat) (st : LoopState) :
  loopState h n st0 st ->
  loopState h n st0 (fst (mainLoop fuel h n st)).
Proof.
  revert st; induction fuel as [|fuel IH]; intros st Hst; simpl.
  - destruct (length (visited st) <? n); auto.
  - destruct (Nat.ltb_spec (length (visited st)) n) as [Hlt|Hge]; auto.
    destruct (loopBody h st) as [st'| |] eqn:Eb; auto.
    apply IH. eapply loop_turn; eauto.
Qed.

(** With one unit of fuel per node left to visit, the main loop runs
    to its end and empties [unvisited]. *)
Lemma mainLoop_returns (fuel : nat) (st : LoopState) :
  loopState h n st0 st -> n - length (visited st) <= fuel ->
  exists st',
    mainLoop fuel h n st = (st', Return tt) /\
    loopState h n st0 st' /\
    length (visited st') = n /\ unvisited st' = [].
Proof.
  revert st; induction fuel as [|fuel IH]; intros st Hst Hfuel.
  - pose proof (loopState_structInv Hst) as Hi.
    assert (length (visited st) = n).
    { pose proof (si_count Hi). lia. }
    exists st. simpl.
    destruct (Nat.ltb_spec (length (visited st)) n); [lia|].
    repeat split; auto.
    pose proof (si_count Hi).
    destruct (unvisited st); simpl in *; [reflexivity | lia].
  - simpl. pose proof (loopState_structInv Hst) as Hi.
    destruct (Nat.ltb_spec (length (visited st)) n) as [Hlt|Hge].
    + destruct (loopBody_spec Hi Hlt) as (u & l1 & l2 & El & Eb & _).
      rewrite Eb. apply IH.
      * eapply loop_turn; eauto.
      * simpl. rewrite length_app. simpl. lia.
    + exists st. repeat split; auto.
      * pose proof (si_count Hi). lia.
      * pose proof (si_count Hi).
        destruct (unvisited st); simpl in *; [reflexivity | lia].
Qed.
End Engine.

(* ================================================================== *)
(** ** The main loop over positive weights *)

Section RelaxPositive.
Variable u : ref.
Variable du : number.
Hypothesis Hdu : nonneg du.

(** The table after the adjacency records [es] of [u]: every entry is
    untouched, or lowered to the distance through [u]. *)
Lemma relax_fold_pos (es : list EdgeToNode) (t : list LookupTableEntry) :
  (forall e, In e es -> exists z, weight e = Fin z /\ (0 < z)%Z) ->
  dOf t u = du ->
  dOf (fold_left (relax1 u) es t) u = du /\
  (forall x,
      (dOf (fold_left (relax1 u) es t) x = dOf t x /\
       pOf (fold_left (relax1 u) es t) x = pOf t x)
      \/ (ltb (dOf (fold_left (relax1 u) es t) x) (dOf t x) = true /\
          pOf (fold_left (relax1 u) es t) x = Some u /\
          exists e, In e es /\ targetNode e = x /\
                    dOf (fold_left (relax1 u) es t) x = add du (weight e))) /\
  (forall e, In e es ->
             ltb (add du (weight e))
                 (dOf (fold_left (relax1 u) es t) (targetNode e)) = false).
Proof.
  revert t; induction es as [|e es IH]; intros t Hw Hu; simpl.
  - repeat split; auto. intros e [].
  - destruct (Hw e (or_introl eq_refl)) as (z & Ez & Hz).
    assert (Hu1 : dOf (relax1 u t e) u = du).
    { rewrite dOf_relax1, Hu, Ez.
      destruct (Nat.eqb_spec u (targetNode e)) as [<-|_]; simpl; auto.
      rewrite Hu, add_pos_not_less; auto. }
    destruct (IH (relax1 u t e)) as (Hd & Hx & Hc); auto.
    { intros e' He'. apply Hw. simpl; auto. }
    split; [exact Hd|]. split.
    + intros x. destruct (Hx x) as [[Ed Ep]|(L & Ep & e' & He' & Et & Ed)].
      * rewrite Ed, Ep, dOf_relax1, pOf_relax1.
        destruct (Nat.eqb_spec x (targetNode e)) as [->|_]; simpl; auto.
        destruct (ltb (add (dOf t u) (weight e)) (dOf t (targetNode e)))
          eqn:L; auto.
        right. repeat split; auto.
        exists e. rewrite Hu. auto.
      * right. split; [|split; [exact Ep | exists e'; auto]].
        rewrite dOf_relax1 in L.
        destruct (Nat.eqb_spec x (targetNode e)) as [E|_]; simpl in L; auto.
        destruct (ltb (add (dOf t u) (weight e)) (dOf t (targetNode e)))
          eqn:L'; auto.
        replace (dOf t x) with (dOf t (targetNode e))
          by (rewrite E; reflexivity).
        eapply ltb_trans; eauto.
    + intros e' [<-|He']; auto.
      assert (L1 : ltb (add du (weight e)) (dOf (relax1 u t e) (targetNode e))
                   = false).
      { rewrite dOf_relax1, Nat.eqb_refl, Hu. simpl.
        destruct (ltb (add du (weight e)) (dOf t (targetNode e))) eqn:L; auto.
        apply ltb_irrefl. }
      destruct (Hx (targetNode e)) as [[Ed _]|(L & _)].
      * rewrite Ed. exact L1.
      * destruct (ltb (add du (weight e))
                      (dOf (fold_left (relax1 u) es (relax1 u t e))
                           (targetNode e))) eqn:L2; auto.
        rewrite (ltb_trans _ _ _ L2 L) in L1. discriminate.
Qed.
End RelaxPositive.

Lemma nth_error_initLookupTable (s : Store) (startNode : ref) (x : nat) :
  graphNodes s = seq 0 (length (heap s)) -> x < length (heap s) ->
  nth_error (initLookupTable s startNode) x
  = Some (mkEntry x (if Nat.eqb x startNode then Fin 0 else Infinity) None).
Proof.
  intros Hg Hx. unfold initLookupTable, getGraphNodesList.
  rewrite Hg, nth_error_map, nth_error_seq.
  destruct (Nat.ltb_spec x (length (heap s))); [reflexivity | lia].
Qed.

Lemma dOf_init (s : Store) (startNode : ref) (x : nat) :
  graphNodes s = seq 0 (length (heap s)) -> x < length (heap s) ->
  dOf (initLookupTable s startNode) x
  = if Nat.eqb x startNode then Fin 0 else Infinity.
Proof.
  intros Hg Hx. unfold dOf.
  rewrite (@nth_error_initLookupTable s startNode x Hg Hx). reflexivity.
Qed.

Lemma pOf_init (s : Store) (startNode : ref) (x : nat) :
  pOf (initLookupTable s startNode) x = None.
Proof.
  unfold pOf, initLookupTable. rewrite nth_error_map.
  destruct (nth_error (getGraphNodesList s) x); reflexivity.
Qed.

Lemma initial_structInv (s : Store) (startNode : ref) :
  wf s -> structInv (length (heap s)) (initialState s startNode).
Proof.
  intros [Hg Ht]. constructor; simpl.
  - unfold tableShape, initLookupTable, getGraphNodesList.
    rewrite map_map. simpl. rewrite map_id. exact Hg.
  - unfold getGraphNodesList. rewrite Hg. apply seq_NoDup.
  - unfold getGraphNodesList. rewrite Hg, length_seq. reflexivity.
  - intros x Hx. right. unfold getGraphNodesList. rewrite Hg.
    apply in_seq. lia.
  - intros x Hx. unfold getGraphNodesList in Hx. rewrite Hg in Hx.
    apply in_seq in Hx. lia.
  - intros x [].
  - intros x Hx. rewrite (@dOf_init s startNode x Hg Hx).
    destruct (Nat.eqb x startNode); discriminate.
Qed.

Section Positive.
Variable h : list GraphNode.
Variable n : nat.
Variable startNode : ref.
Hypothesis Hlen : length h = n.
Hypothesis Htargets : forall u e, In e (edgesOf h u) -> targetNode e < n.
Hypothesis Hpos : positiveWeights h.

Lemma posInv_step (st : LoopState) (u : ref) (l1 l2 : list ref) :
  structInv n st -> posInv h startNode n st ->
  unvisited st = l1 ++ u :: l2 ->
  (forall x, In x (unvisited st) ->
             ltb (dOf (lookupTable st) x) (dOf (lookupTable st) u) = false) ->
  posInv h startNode n
         (mkLoop (fold_left (relax1 u) (edgesOf h u) (lookupTable st))
                 (visited st ++ [u]) (l1 ++ l2)).
Proof.
  intros Hsi [Hnn Hord Hprev Hstart Hnoprev Hrel] El Hmin.
  set (t := lookupTable st) in *.
  assert (Hu : In u (unvisited st)) by (rewrite El; apply in_elt).
  assert (Hun : u < n) by (apply (si_unvisited Hsi); exact Hu).
  assert (Hdu : nonneg (dOf t u)) by (apply Hnn; exact Hun).
  destruct (@relax_fold_pos u (dOf t u) Hdu (edgesOf h u) t (Hpos u) eq_refl)
    as (Hd & Hx & Hc).
  set (t' := fold_left (relax1 u) (edgesOf h u) t) in *.
  assert (Hupd : forall x,
             ltb (dOf t' x) (dOf t x) = true ->
             (exists e, In e (edgesOf h u) /\ targetNode e = x /\
                        dOf t' x = add (dOf t u) (weight e)) ->
             nonneg (dOf t' x) /\
             ltb (dOf t u) (dOf t x) = true /\
             ltb (dOf t' x) (dOf t u) = false).
  { intros x L (e & He & Et & Ed).
    destruct (Hpos u e He) as (z & Ez & Hz). rewrite Ed, Ez in L.
    destruct (@add_pos_less_inv _ _ _ Hdu Hz L) as (a & Ea & Ha & L2 & Hn).
    rewrite Ed, Ez. split; [exact Hn|]. split; [exact L2|].
    apply add_pos_not_less; assumption. }
  assert (Hvis : forall v, In v (visited st) ->
                           dOf t' v = dOf t v /\ pOf t' v = pOf t v).
  { intros v Hv. destruct (Hx v) as [H|(L & _ & He)]; auto.
    destruct (Hupd v L He) as (_ & L2 & _).
    rewrite (Hord v u Hv Hu) in L2. discriminate. }
  assert (Hge : forall x, ltb (dOf t x) (dOf t u) = false ->
                          ltb (dOf t' x) (dOf t u) = false).
  { intros x Hm. destruct (Hx x) as [[Ed _]|(L & _ & He)].
    - rewrite Ed. exact Hm.
    - destruct (Hupd x L He) as (_ & _ & Hle). exact Hle. }
  assert (Hmono : forall y a, ltb a (dOf t y) = false ->
                              ltb a (dOf t' y) = false).
  { intros y a Ha. destruct (Hx y) as [[Ed _]|(L & _)].
    - rewrite Ed. exact Ha.
    - destruct (ltb a (dOf t' y)) eqn:L2; auto.
      rewrite (ltb_trans _ _ _ L2 L) in Ha. discriminate. }
  constructor; simpl; fold t'.
  - intros x Hxn. destruct (Hx x) as [[Ed _]|(L & _ & He)].
    + rewrite Ed. auto.
    + destruct (Hupd x L He) as (Hn & _). exact Hn.
  - intros v x Hv Hxin.
    assert (Hxu : In x (unvisited st)).
    { rewrite El. apply in_app_or in Hxin. apply in_or_app. simpl. tauto. }
    pose proof (Hge x (Hmin x Hxu)) as Hxd.
    apply in_app_or in Hv. destruct Hv as [Hv|[<-|[]]].
    + destruct (Hvis v Hv) as [Ev _]. rewrite Ev.
      apply leb_trans with (b := dOf t u); auto.
      apply nonneg_not_nan. exact Hdu.
    + rewrite Hd. exact Hxd.
  - intros x p Hxn Hp.
    destruct (Hx x) as [[Ed Ep]|(L & Ep & e & He & Et & Ed)].
    + rewrite Ep in Hp.
      destruct (Hprev x p Hxn Hp) as (Hpv & e & He & Et & Ee).
      destruct (Hvis p Hpv) as [Edp _]. rewrite Ed, Edp.
      split; [apply in_or_app; auto|]. eauto.
    + rewrite Ep in Hp. injection Hp as <-.
      split; [apply in_or_app; simpl; auto|]. rewrite Hd. eauto.
  - destruct Hstart as [Es Eps].
    destruct (Hx startNode) as [[Ed Ep]|(L & _ & He)].
    + rewrite Ed, Ep. auto.
    + destruct (Hupd startNode L He) as (_ & L2 & _).
      rewrite Es in L2.
      destruct Hdu as [E|(a & E & Ha & _)]; rewrite E in L2;
        simpl in L2; [discriminate|].
      apply Z.ltb_lt in L2. lia.
  - intros x Hxn Hp. destruct (Hx x) as [[Ed Ep]|(L & Ep & _)].
    + rewrite Ed. apply Hnoprev; auto. rewrite <- Ep. exact Hp.
    + congruence.
  - intros v e Hv He.
    apply in_app_or in Hv. destruct Hv as [Hv|[<-|[]]].
    + destruct (Hvis v Hv) as [Ev _]. rewrite Ev. apply Hmono.
      apply Hrel; auto.
    + rewrite Hd. apply Hc. exact He.
Qed.

Variable st0 : LoopState.
Hypothesis Hinit : structInv n st0.
Hypothesis Hpinit : posInv h startNode n st0.

Lemma loopState_posInv (st : LoopState) :
  loopState h n st0 st -> posInv h startNode n st.
Proof.
  induction 1 as [|st st' Hst IH Hlt Hbody]; auto.
  pose proof (@loopState_structInv h n Hlen Htargets st0 Hinit st Hst) as Hsi.
  destruct (@loopBody_spec h n Hlen Htargets st Hsi Hlt)
    as (u & l1 & l2 & El & Eb & _ & Hmin & _).
  rewrite Eb in Hbody. injection Hbody as <-.
  apply posInv_step; auto.
Qed.
End Positive.

Lemma initial_posInv (s : Store) (startNode : ref) :
  wf s -> startNode < length (heap s) ->
  posInv (heap s) startNode (length (heap s)) (initialState s startNode).
Proof.
  intros [Hg Ht] Hs. constructor; simpl.
  - intros x Hx. rewrite (@dOf_init s startNode x Hg Hx).
    destruct (Nat.eqb x startNode); [apply nonneg_zero | left; auto].
  - intros v x [].
  - intros x p _ Hp. rewrite pOf_init in Hp. discriminate.
  - rewrite (@dOf_init s startNode startNode Hg Hs), Nat.eqb_refl, pOf_init. auto.
  - intros x Hx _. rewrite (@dOf_init s startNode x Hg Hx).
    destruct (Nat.eqb_spec x startNode); auto.
  - intros v e [].
Qed.

(* ================================================================== *)
(** ** The main loop whatever the weights *)

Lemma ltb_infinity_l (b : number) : ltb Infinity b = false.
Proof. destruct b; reflexivity. Qed.

Lemma relax1_infinity (u : ref) (t : list LookupTableEntry) (e : EdgeToNode) :
  dOf t u = Infinity -> relax1 u t e = t.
Proof.
  intros E. unfold relax1. rewrite E, add_infinity_not_less. reflexivity.
Qed.

(** Relaxing the adjacency records of a node at distance [Infinity]
    changes nothing. *)
Lemma fold_relax1_infinity (u : ref) (es : list EdgeToNode)
  (t : list LookupTableEntry) :
  dOf t u = Infinity -> fold_left (relax1 u) es t = t.
Proof.
  intros E. induction es as [|e es IH]; simpl; auto.
  rewrite relax1_infinity; auto.
Qed.

Lemma reachable_step (h : list GraphNode) (s u : ref) (e : EdgeToNode) :
  reachable h s u -> In e (edgesOf h u) -> reachable h s (targetNode e).
Proof.
  intros [steps Hp] He. exists (steps ++ [e]).
  eapply isPath_snoc; eauto.
Qed.

(** An entry after one adjacency record: untouched, or lowered. *)
Lemma relax1_cases (u : ref) (t : list LookupTableEntry) (e : EdgeToNode)
  (x : nat) :
  (dOf (relax1 u t e) x = dOf t x /\ pOf (relax1 u t e) x = pOf t x)
  \/ (x = targetNode e /\
      ltb (add (dOf t u) (weight e)) (dOf t x) = true /\
      dOf (relax1 u t e) x = add (dOf t u) (weight e) /\
      pOf (relax1 u t e) x = Some u).
Proof.
  rewrite dOf_relax1, pOf_relax1.
  destruct (Nat.eqb_spec x (targetNode e)) as [E|_]; simpl; auto.
  destruct (ltb (add (dOf t u) (weight e)) (dOf t (targetNode e))) eqn:L; auto.
  right. rewrite E. auto.
Qed.

Lemma updated_not_infinity (a w b : number) :
  ltb (add a w) b = true -> a <> Infinity /\ add a w <> Infinity.
Proof.
  intros L. split; intros E; rewrite E in L.
  - rewrite add_infinity_not_less in L. discriminate.
  - rewrite ltb_infinity_l in L. discriminate.
Qed.

Section General.
Variable h : list GraphNode.
Variable n : nat.
Variable startNode : ref.
Hypothesis Hlen : length h = n.
Hypothesis Htargets : forall u e, In e (edgesOf h u) -> targetNode e < n.

Lemma relax1_genInv (u : ref) (t : list LookupTableEntry) (e : EdgeToNode) :
  u < n -> In e (edgesOf h u) ->
  genInv h startNode n t -> genInv h startNode n (relax1 u t e).
Proof.
  intros Hu He [Hin Hst Hre Hno]. constructor.
  - intros x Hx Ex.
    destruct (relax1_cases u t e x) as [[Ed Ep]|(_ & L & Ed & _)].
    + rewrite Ep. apply Hin; auto. rewrite <- Ed. exact Ex.
    + apply updated_not_infinity in L. rewrite Ed in Ex. tauto.
  - destruct (relax1_cases u t e startNode) as [[Ed Ep]|(_ & L & Ed & _)].
    + rewrite Ed. exact Hst.
    + apply updated_not_infinity in L. rewrite Ed. tauto.
  - intros x Hx Ex.
    destruct (relax1_cases u t e x) as [[Ed Ep]|(Et & L & Ed & _)].
    + apply Hre; auto. rewrite <- Ed. exact Ex.
    + apply updated_not_infinity in L. rewrite Et.
      apply reachable_step with (u := u); auto.
      apply Hre; tauto.
  - intros x Hx Hne Ep.
    destruct (relax1_cases u t e x) as [[Ed Ep']|(_ & _ & _ & Ep')].
    + rewrite Ed. apply Hno; auto. rewrite <- Ep'. exact Ep.
    + congruence.
Qed.

Lemma fold_genInv (u : ref) (es : list EdgeToNode) (t : list LookupTableEntry) :
  u < n -> (forall e, In e es -> In e (edgesOf h u)) ->
  genInv h startNode n t ->
  genInv h startNode n (fold_left (relax1 u) es t).
Proof.
  intros Hu. revert t; induction es as [|e es IH]; intros t Hes Hg; simpl; auto.
  apply IH.
  - intros e' He'. apply Hes. simpl; auto.
  - apply relax1_genInv; auto. apply Hes. simpl; auto.
Qed.

Variable st0 : LoopState.
Hypothesis Hinit : structInv n st0.
Hypothesis Hginit : genInv h startNode n (lookupTable st0).

Lemma loopState_genInv (st : LoopState) :
  loopState h n st0 st -> genInv h startNode n (lookupTable st).
Proof.
  induction 1 as [|st st' Hst IH Hlt Hbody]; auto.
  pose proof (@loopState_structInv h n Hlen Htargets st0 Hinit st Hst) as Hsi.
  destruct (@loopBody_spec h n Hlen Htargets st Hsi Hlt)
    as (u & l1 & l2 & El & Eb & _).
  rewrite Eb in Hbody. injection Hbody as <-. simpl.
  apply fold_genInv; auto.
  apply (si_unvisited Hsi). rewrite El. apply in_elt.
Qed.
End General.

Lemma initial_genInv (s : Store) (startNode : ref) :
  wf s -> startNode < length (heap s) ->
  genInv (heap s) startNode (length (heap s)) (initLookupTable s startNode).
Proof.
  intros [Hg Ht] Hs. constructor.
  - intros x _ _. apply pOf_init.
  - rewrite (@dOf_init s startNode startNode Hg Hs), Nat.eqb_refl. discriminate.
  - intros x Hx Hd. rewrite (@dOf_init s startNode x Hg Hx) in Hd.
    destruct (Nat.eqb_spec x startNode) as [->|_]; [|congruence].
    exists []. reflexivity.
  - intros x Hx Hne _. rewrite (@dOf_init s startNode x Hg Hx).
    destruct (Nat.eqb_spec x startNode); [contradiction | reflexivity].
Qed.

Lemma relax1_keeps_finite (u : ref) (t : list LookupTableEntry)
  (e : EdgeToNode) (x : nat) :
  dOf t x <> Infinity -> dOf (relax1 u t e) x <> Infinity.
Proof.
  intros Hx. destruct (relax1_cases u t e x) as [[Ed _]|(_ & L & Ed & _)].
  - rewrite Ed. exact Hx.
  - apply updated_not_infinity in L. rewrite Ed. tauto.
Qed.

Lemma fold_keeps_finite (u : ref) (es : list EdgeToNode)
  (t : list LookupTableEntry) (x : nat) :
  dOf t x <> Infinity -> dOf (fold_left (relax1 u) es t) x <> Infinity.
Proof.
  revert t; induction es as [|e es IH]; intros t Hx; simpl; auto.
  apply IH. apply relax1_keeps_finite. exact Hx.
Qed.

Lemma NoDup_add_last (A : Type) (l : list A) (x : A) :
  NoDup l -> ~ In x l -> NoDup (l ++ [x]).
Proof.
  intros Hnd Hx. induction Hnd as [|y l Hy Hnd IH]; simpl.
  - constructor; [intros [] | constructor].
  - constructor.
    + intros Hin. apply in_app_or in Hin. destruct Hin as [Hin|[<-|[]]].
      * contradiction.
      * apply Hx. simpl. auto.
    + apply IH. intros Hin. apply Hx. simpl. auto.
Qed.

Lemma boundedTable_le (n : nat) (B B' : Z) (t : list LookupTableEntry) :
  (B <= B')%Z -> boundedTable n B t -> boundedTable n B' t.
Proof.
  intros Hle Hb x Hx. destruct (Hb x Hx) as [E|(z & E & Hz)]; auto.
  right. exists z. split; [exact E | lia].
Qed.

Lemma boundedTable_finite (n : nat) (B : Z) (t : list LookupTableEntry) :
  boundedTable n B t -> finiteTable n t.
Proof.
  intros Hb x Hx. destruct (Hb x Hx) as [E|(z & E & _)]; eauto.
Qed.

Section Finite.
Variable h : list GraphNode.
Variable n : nat.
Hypothesis Hlen : length h = n.
Hypothesis Htargets : forall u e, In e (edgesOf h u) -> targetNode e < n.
Hypothesis Hfin : finiteWeights h.
Hypothesis Hsmall : smallWeights h.

Lemma finite_weightOf (u : ref) (e : EdgeToNode) :
  In e (edgesOf h u) -> weight e = Fin (weightOf e).
Proof.
  intros He. destruct (Hfin u e He) as [z Ez].
  unfold weightOf. rewrite Ez. reflexivity.
Qed.

(** Within the bound of the weights the candidate distance of a record
    is the exact sum: nothing is rounded. *)
Lemma candidate_exact (u : ref) (t : list LookupTableEntry) (e : EdgeToNode)
  (B a : Z) :
  In e (edgesOf h u) -> (B + Z.abs (weightOf e) <= totalLoad h)%Z ->
  dOf t u = Fin a -> (Z.abs a <= B)%Z ->
  add (dOf t u) (weight e) = Fin (a + weightOf e).
Proof.
  intros He HB Ea Ha. rewrite Ea, (finite_weightOf u e He).
  apply add_exact. unfold smallWeights in Hsmall. lia.
Qed.

Lemma relax1_bounded (u : ref) (t : list LookupTableEntry) (e : EdgeToNode)
  (B : Z) :
  u < n -> In e (edgesOf h u) ->
  boundedTable n B t -> (B + Z.abs (weightOf e) <= totalLoad h)%Z ->
  boundedTable n (B + Z.abs (weightOf e)) (relax1 u t e).
Proof.
  intros Hu He Hv HB x Hx.
  destruct (relax1_cases u t e x) as [[Ed _]|(_ & L & Ed & _)].
  - rewrite Ed. destruct (Hv x Hx) as [E|(z & E & Hz)]; auto.
    right. exists z. split; [exact E | lia].
  - rewrite Ed. apply updated_not_infinity in L. destruct L as [L _].
    destruct (Hv u Hu) as [E|(a & Ea & Ha)]; [contradiction|].
    rewrite (candidate_exact u t e He HB Ea Ha).
    right. eexists. split; [reflexivity | lia].
Qed.

Lemma fold_bounded (u : ref) (es : list EdgeToNode)
  (t : list LookupTableEntry) (B : Z) :
  u < n -> (forall e, In e es -> In e (edgesOf h u)) ->
  boundedTable n B t -> (B + load es <= totalLoad h)%Z ->
  boundedTable n (B + load es) (fold_left (relax1 u) es t).
Proof.
  intros Hu. revert t B; induction es as [|e es IH]; intros t B Hes Hv HB;
    simpl in *.
  - rewrite Z.add_0_r. exact Hv.
  - pose proof (load_nonneg es) as H0.
    rewrite Z.add_assoc. apply IH.
    + intros e' He'. apply Hes. auto.
    + apply relax1_bounded; auto. lia.
    + lia.
Qed.

(** After the adjacency records of a node at a finite distance, every
    neighbour is at a finite distance. *)
Lemma fold_targets (u : ref) (es : list EdgeToNode)
  (t : list LookupTableEntry) (B : Z) :
  u < n -> (forall e, In e es -> In e (edgesOf h u)) ->
  boundedTable n B t -> (B + load es <= totalLoad h)%Z ->
  dOf t u <> Infinity ->
  forall e, In e es ->
            dOf (fold_left (relax1 u) es t) (targetNode e) <> Infinity.
Proof.
  intros Hu. revert t B; induction es as [|e0 es IH];
    intros t B Hes Hv HB Hd e He; simpl in *; [contradiction|].
  pose proof (load_nonneg es) as H0.
  assert (He0 : In e0 (edgesOf h u)) by auto.
  assert (HB0 : (B + Z.abs (weightOf e0) <= totalLoad h)%Z) by lia.
  assert (Hv1 : boundedTable n (B + Z.abs (weightOf e0)) (relax1 u t e0))
    by (apply relax1_bounded; auto).
  assert (Hd1 : dOf (relax1 u t e0) u <> Infinity)
    by (apply relax1_keeps_finite; exact Hd).
  destruct He as [<-|He].
  - apply fold_keeps_finite. rewrite dOf_relax1, Nat.eqb_refl. simpl.
    destruct (Hv u Hu) as [E|(a & Ea & Ha)]; [contradiction|].
    rewrite (candidate_exact u t e0 He0 HB0 Ea Ha).
    destruct (dOf t (targetNode e0)) eqn:Et; simpl; try discriminate.
    destruct (Z.ltb (a + weightOf e0) z); discriminate.
  - apply (IH (relax1 u t e0) (B + Z.abs (weightOf e0))%Z); auto. lia.
Qed.

Lemma finInv_step (st : LoopState) (u : ref) (l1 l2 : list ref) :
  structInv n st -> finInv h n st ->
  unvisited st = l1 ++ u :: l2 ->
  (forall x, In x (unvisited st) ->
             ltb (dOf (lookupTable st) x) (dOf (lookupTable st) u) = false) ->
  finInv h n (mkLoop (fold_left (relax1 u) (edgesOf h u) (lookupTable st))
                     (visited st ++ [u]) (l1 ++ l2)).
Proof.
  intros Hsi [Hnd Hv He Hr] El Hmin.
  assert (Hu : In u (unvisited st)) by (rewrite El; apply in_elt).
  assert (Hun : u < n) by (apply (si_unvisited Hsi); exact Hu).
  assert (Hsub : forall x, In x (l1 ++ l2) -> In x (unvisited st)).
  { intros x Hx. rewrite El. apply in_app_or in Hx. apply in_or_app.
    simpl. tauto. }
  assert (Hnd' : NoDup (visited st ++ [u])).
  { apply NoDup_add_last; auto. intros Hin.
    destruct (si_visited Hsi u Hin) as [_ Hno]. contradiction. }
  assert (HB : (visitedLoad h (visited st) + load (edgesOf h u)
                <= totalLoad h)%Z).
  { rewrite <- visitedLoad_snoc. apply visitedLoad_le; auto.
    intros x Hx. rewrite Hlen. apply in_app_or in Hx.
    destruct Hx as [Hx|[<-|[]]]; auto. apply (si_visited Hsi). exact Hx. }
  pose proof (boundedTable_finite Hv) as Hvals.
  destruct (Hvals u Hun) as [Einf|[a Ea]].
  - rewrite (@fold_relax1_infinity u (edgesOf h u) (lookupTable st) Einf).
    constructor; simpl; auto.
    + apply boundedTable_le with (B := visitedLoad h (visited st)); auto.
      rewrite visitedLoad_snoc. pose proof (load_nonneg (edgesOf h u)). lia.
    + intros v e Hvin Hd Hein. apply in_app_or in Hvin.
      destruct Hvin as [Hvin|[<-|[]]]; [eauto | contradiction].
    + intros v x Hvin Hd Hx. apply in_app_or in Hvin.
      destruct Hvin as [Hvin|[<-|[]]]; [eauto|].
      specialize (Hmin x (Hsub x Hx)). rewrite Einf in Hmin.
      destruct (Hvals x (si_unvisited Hsi x (Hsub x Hx))) as [E|[z E]]; auto.
      rewrite E in Hmin. discriminate.
  - assert (Hdu : dOf (lookupTable st) u <> Infinity) by congruence.
    assert (Hold : forall v, In v (visited st) ->
                             dOf (lookupTable st) v <> Infinity).
    { intros v Hvin E. apply Hdu. eapply Hr; eauto. }
    constructor; simpl.
    + exact Hnd'.
    + rewrite visitedLoad_snoc. apply fold_bounded; auto.
    + intros v e Hvin _ Hein. apply in_app_or in Hvin.
      destruct Hvin as [Hvin|[<-|[]]].
      * apply fold_keeps_finite. eapply He; eauto.
      * apply fold_targets with (B := visitedLoad h (visited st)); auto.
    + intros v x Hvin Hd Hx. exfalso. revert Hd.
      apply fold_keeps_finite. apply in_app_or in Hvin.
      destruct Hvin as [Hvin|[<-|[]]]; auto.
Qed.

Variable st0 : LoopState.
Hypothesis Hinit : structInv n st0.
Hypothesis Hfinit : finInv h n st0.

Lemma loopState_finInv (st : LoopState) :
  loopState h n st0 st -> finInv h n st.
Proof.
  induction 1 as [|st st' Hst IH Hlt Hbody]; auto.
  pose proof (@loopState_structInv h n Hlen Htargets st0 Hinit st Hst) as Hsi.
  destruct (@loopBody_spec h n Hlen Htargets st Hsi Hlt)
    as (u & l1 & l2 & El & Eb & _ & Hmin & _).
  rewrite Eb in Hbody. injection Hbody as <-.
  apply finInv_step; auto.
Qed.

End Finite.


Lemma initial_finInv (s : Store) (startNode : ref) :
  wf s -> finInv (heap s) (length (heap s)) (initialState s startNode).
Proof.
  intros [Hg Ht]. constructor; simpl.
  - constructor.
  - intros x Hx. rewrite (@dOf_init s startNode x Hg Hx).
    destruct (Nat.eqb x startNode); auto.
    right. exists 0%Z. split; [reflexivity | simpl; lia].
  - intros v e [].
  - intros v x [].
Qed.

(* ================================================================== *)
(** ** The query on a loaded graph *)

Lemma wf_In (s : Store) (x : ref) :
  wf s -> (In x (graphNodes s) <-> x < length (heap s)).
Proof.
  intros [Hg _]. rewrite Hg, in_seq. lia.
Qed.

Lemma getName_some (h : list GraphNode) (x : ref) :
  x < length h -> exists nm, getName h x = Some nm.
Proof.
  intros Hx. unfold getName.
  destruct (nth_error h x) eqn:E; simpl; eauto.
  apply nth_error_None in E. lia.
Qed.

(** On a loaded graph and with fuel for every node, the main loop runs
    to its end; what remains of the query reads the final table. *)
Lemma findShortestPathBetween_loaded (s : Store) (startNode targetNode : ref)
  (fuel : nat) :
  wf s -> startNode < length (heap s) -> targetNode < length (heap s) ->
  length (heap s) <= fuel ->
  exists st,
    loopState (heap s) (length (heap s)) (initialState s startNode) st /\
    unvisited st = [] /\ length (visited st) = length (heap s) /\
    lookupTable st = finalTable fuel s startNode /\
    findShortestPathBetween fuel s startNode targetNode
    = (mkStore (heap s) [],
       do pathNames <- rewind fuel (heap s) (lookupTable st) startNode
                              (Some targetNode) [];
       match getName (heap s) startNode with
       | None => Throw TypeError
       | Some startName =>
           match entryOf (lookupTable st) targetNode with
           | None => Throw TypeError
           | Some targetNodeTableEntry =>
               Return (mkShortestPath
                         (rev (pathNames ++ [startName]))
                         (shortestDistanceToTargetNode targetNodeTableEntry))
           end
       end).
Proof.
  intros Hwf Hs Ht Hfuel.
  pose proof (initial_structInv startNode Hwf) as Hi.
  destruct Hwf as [Hg Htg].
  assert (Hlen : length (graphNodes s) = length (heap s))
    by (rewrite Hg; apply length_seq).
  destruct (@mainLoop_returns (heap s) (length (heap s)) eq_refl Htg
              (initialState s startNode) Hi fuel (initialState s startNode))
    as (st & Eloop & Hst & Hv & Hu).
  { apply loop_enter. }
  { simpl. lia. }
  exists st. repeat split; auto.
  - unfold finalTable. rewrite Hlen, Eloop. reflexivity.
  - unfold findShortestPathBetween, getGraphNodesList.
    assert (Ein : forall x, x < length (heap s) ->
                            includes Nat.eqb (graphNodes s) x = true).
    { intros x Hx. apply includes_In. rewrite Hg. apply in_seq. lia. }
    rewrite (Ein _ Hs), (Ein _ Ht). simpl negb. cbn [orb].
    rewrite Hlen.
    change (mkLoop (initLookupTable s startNode) [] (graphNodes s))
      with (initialState s startNode).
    rewrite Eloop, Hu. reflexivity.
Qed.

Lemma rewind_none (fuel : nat) (h : list GraphNode)
  (t : list LookupTableEntry) (startNode : ref) (acc names : list string) :
  rewind fuel h t startNode None acc <> Return names.
Proof.
  destruct fuel; simpl; discriminate.
Qed.

Lemma rewind_start (fuel : nat) (h : list GraphNode)
  (t : list LookupTableEntry) (startNode : ref) (acc : list string) :
  rewind fuel h t startNode (Some startNode) acc = Return acc.
Proof.
  destruct fuel; simpl; rewrite Nat.eqb_refl; reflexivity.
Qed.

Lemma rewind_step (fuel : nat) (h : list GraphNode)
  (t : list LookupTableEntry) (n : nat) (startNode v : ref)
  (acc : list string) :
  tableShape n t -> length h = n -> v < n -> v <> startNode ->
  exists nm,
    getName h v = Some nm /\
    rewind (S fuel) h t startNode (Some v) acc
    = rewind fuel h t startNode (pOf t v) (acc ++ [nm]).
Proof.
  intros Hs Hlen Hv Hne.
  destruct (@getName_some h v) as [nm Hnm]; [lia|].
  exists nm. split; auto. simpl.
  destruct (Nat.eqb_spec v startNode); [contradiction|].
  rewrite Hnm, (getTableEntryforNode_shape Hs Hv).
  unfold pOf. destruct (tableShape_nth Hs Hv) as (e & -> & _). reflexivity.
Qed.

Lemma filter_length_le (A : Type) (p q : A -> bool) (l : list A) :
  (forall x, p x = true -> q x = true) ->
  length (filter p l) <= length (filter q l).
Proof.
  intros Hpq. induction l as [|x l IH]; simpl; auto.
  destruct (p x) eqn:Ep.
  - rewrite (Hpq x Ep). simpl. lia.
  - destruct (q x); simpl; lia.
Qed.

Lemma filter_length_lt (A : Type) (p q : A -> bool) (l : list A) (y : A) :
  (forall x, p x = true -> q x = true) ->
  In y l -> p y = false -> q y = true ->
  length (filter p l) < length (filter q l).
Proof.
  intros Hpq Hy Hpy Hqy. induction l as [|x l IH]; simpl; [contradiction|].
  destruct Hy as [->|Hy].
  - rewrite Hpy, Hqy. simpl.
    pose proof (@filter_length_le A p q l Hpq). lia.
  - specialize (IH Hy). destruct (p x) eqn:Ep.
    + rewrite (Hpq x Ep). simpl. lia.
    + destruct (q x); simpl; lia.
Qed.

Lemma filter_length_lt_all (A : Type) (q : A -> bool) (l : list A) (y : A) :
  In y l -> q y = false -> length (filter q l) < length l.
Proof.
  intros Hy Hqy. induction l as [|x l IH]; simpl; [contradiction|].
  destruct Hy as [->|Hy].
  - rewrite Hqy. pose proof (filter_length_le q (fun _ => true) l (fun _ _ => eq_refl)) as Hle. simpl. assert (length (filter (fun _ : A => true) l) <= length l); [|lia]. clear. induction l; simpl; lia.
  - specialize (IH Hy). destruct (q x); simpl; lia.
Qed.

Section Rewind.
Variable h : list GraphNode.
Variable n : nat.
Variable startNode : ref.
Variable t : list LookupTableEntry.
Hypothesis Hlen : length h = n.
Hypothesis Hshape : tableShape n t.
Hypothesis Hstart : dOf t startNode = Fin 0.
Hypothesis Hprev :
  forall x p, x < n -> pOf t x = Some p ->
              p < n /\
              exists e, In e (edgesOf h p) /\ targetNode e = x /\
                        dOf t x = add (dOf t p) (weight e).

(** What the rewinding loop has collected when it returns: the names
    of a walk from the start, in reverse, whose weights add up to the
    distance of the table. *)
Lemma rewind_spec (fuel : nat) (v : ref) (acc names : list string) :
  v < n ->
  rewind fuel h t startNode (Some v) acc = Return names ->
  exists steps added,
    names = acc ++ added /\
    isPath h startNode steps v /\
    dOf t v = pathWeight steps /\
    map (getName h) (rev (map targetNode steps)) = map Some added.
Proof.
  revert v acc; induction fuel as [|fuel IH]; intros v acc Hv Hr.
  - simpl in Hr. destruct (Nat.eqb_spec v startNode) as [->|Hne];
      [|discriminate].
    injection Hr as <-. exists [], []. rewrite app_nil_r.
    repeat split; auto.
  - destruct (Nat.eq_dec v startNode) as [->|Hne].
    + rewrite rewind_start in Hr. injection Hr as <-.
      exists [], []. rewrite app_nil_r. repeat split; auto.
    + destruct (@rewind_step fuel h t n startNode v acc Hshape Hlen Hv Hne)
        as (nm & Hnm & Er).
      rewrite Er in Hr.
      destruct (pOf t v) as [p|] eqn:Ep;
        [|exfalso; eapply rewind_none; eauto].
      destruct (Hprev Hv Ep) as (Hp & e & He & Et & Ed).
      destruct (IH p (acc ++ [nm]) Hp Hr)
        as (steps & added & En & Hpath & Hd & Hnames).
      exists (steps ++ [e]), (nm :: added).
      rewrite <- app_assoc in En. simpl in En.
      repeat split; auto.
      * eapply isPath_snoc; eauto.
      * rewrite pathWeight_snoc, <- Hd. exact Ed.
      * rewrite map_app, rev_app_distr. simpl.
        rewrite Et, Hnm, Hnames. reflexivity.
Qed.

Hypothesis Hnoprev :
  forall x, x < n -> pOf t x = None -> x = startNode \/ dOf t x = Infinity.

Lemma nearer_lt_n (v : ref) : v < n -> nearer t n v < n.
Proof.
  intros Hv. unfold nearer.
  assert (H : length (filter (fun x => ltb (dOf t x) (dOf t v)) (seq 0 n))
              < length (seq 0 n)).
  { apply filter_length_lt_all with (y := v).
    - apply in_seq. lia.
    - apply ltb_irrefl. }
  rewrite length_seq in H. exact H.
Qed.

(** When every predecessor is strictly nearer to the start than its
    node, the rewinding loop ends. *)
Lemma rewind_returns (fuel : nat) (v : ref) (acc : list string) :
  (forall x p, x < n -> pOf t x = Some p ->
               ltb (dOf t p) (dOf t x) = true) ->
  v < n -> dOf t v <> Infinity -> nearer t n v < fuel ->
  exists names, rewind fuel h t startNode (Some v) acc = Return names.
Proof.
  intros Hstrict.
  revert v acc; induction fuel as [|fuel IH]; intros v acc Hv Hd Hf.
  - lia.
  - destruct (Nat.eq_dec v startNode) as [->|Hne].
    + rewrite rewind_start. eauto.
    + destruct (@rewind_step fuel h t n startNode v acc Hshape Hlen Hv Hne)
        as (nm & Hnm & Er).
      rewrite Er.
      destruct (pOf t v) as [p|] eqn:Ep.
      * destruct (Hprev Hv Ep) as (Hp & _).
        pose proof (Hstrict v p Hv Ep) as L.
        apply IH; auto.
        -- intros E. rewrite E in L. destruct (dOf t v); discriminate.
        -- assert (nearer t n p < nearer t n v); [|lia].
           unfold nearer. apply filter_length_lt with (y := p).
           ++ intros x Hx. eapply ltb_trans; eauto.
           ++ apply in_seq. lia.
           ++ apply ltb_irrefl.
           ++ exact L.
      * destruct (Hnoprev Hv Ep); contradiction.
Qed.
End Rewind.

(* ================================================================== *)
(** ** Fuel *)

(** A run that ends with some fuel ends in the same way with more. *)
Lemma mainLoop_more_fuel (fuel k : nat) (h : list GraphNode) (n : nat)
  (st st' : LoopState) :
  mainLoop fuel h n st = (st', Return tt) ->
  mainLoop (fuel + k) h n st = (st', Return tt).
Proof.
  revert st; induction fuel as [|fuel IH]; intros st H.
  - simpl in H. destruct (length (visited st) <? n) eqn:C; [discriminate|].
    destruct k; simpl; rewrite C; exact H.
  - simpl in *. destruct (length (visited st) <? n); [|exact H].
    destruct (loopBody h st) as [st1| |]; try discriminate.
    apply IH. exact H.
Qed.

Lemma rewind_more_fuel (fuel k : nat) (h : list GraphNode)
  (t : list LookupTableEntry) (startNode : ref) (nodeToCheck : option ref)
  (acc names : list string) :
  rewind fuel h t startNode nodeToCheck acc = Return names ->
  rewind (fuel + k) h t startNode nodeToCheck acc = Return names.
Proof.
  revert nodeToCheck acc; induction fuel as [|fuel IH]; intros v acc H.
  - simpl in H.
    destruct (match v with Some x => Nat.eqb x startNode | None => false end)
      eqn:C; [|discriminate].
    destruct k; simpl; rewrite C; exact H.
  - simpl in *.
    destruct (match v with Some x => Nat.eqb x startNode | None => false end);
      [exact H|].
    destruct v as [x|]; [|discriminate].
    destruct (getName h x); [|discriminate].
    destruct (getTableEntryforNode t x) as [i|]; [|discriminate].
    destruct (nth_error t i); [|discriminate].
    apply IH. exact H.
Qed.

Lemma findShortestPathBetween_more_fuel (fuel k : nat) (s : Store)
  (u v : ref) (r : ShortestPath) :
  snd (findShortestPathBetween fuel s u v) = Return r ->
  snd (findShortestPathBetween (fuel + k) s u v) = Return r.
Proof.
  unfold findShortestPathBetween. intros H.
  destruct (negb (includes Nat.eqb (getGraphNodesList s) u)
            || negb (includes Nat.eqb (getGraphNodesList s) v));
    [discriminate|].
  destruct (mainLoop fuel (heap s) (length (getGraphNodesList s))
                     (mkLoop (initLookupTable s u) [] (getGraphNodesList s)))
    as [st r0] eqn:E.
  simpl in H. destruct r0 as [[]| |]; try discriminate.
  rewrite (@mainLoop_more_fuel fuel k _ _ _ _ E). simpl in *.
  destruct (rewind fuel (heap s) (lookupTable st) u (Some v) [])
    as [names| |] eqn:Er; try discriminate.
  rewrite (@rewind_more_fuel fuel k _ _ _ _ _ _ Er). exact H.
Qed.

Lemma dijkstra_more_fuel (fuel k : nat) (s : Store) (a b : string)
  (r : ShortestPath) :
  snd (dijkstra fuel s a b) = Return r ->
  snd (dijkstra (fuel + k) s a b) = Return r.
Proof.
  unfold dijkstra. destruct (findByName s a); [|discriminate].
  destruct (findByName s b); [|discriminate].
  apply findShortestPathBetween_more_fuel.
Qed.

(* ================================================================== *)
(** ** The invariants on a loaded graph *)

Lemma entryOf_fields (n : nat) (t : list LookupTableEntry) (r : ref) :
  tableShape n t -> r < n ->
  exists e, entryOf t r = Some e /\
            shortestDistanceToTargetNode e = dOf t r /\
            previousNode e = pOf t r.
Proof.
  intros Hs Hr. rewrite (entryOf_shape Hs Hr). unfold dOf, pOf.
  destruct (tableShape_nth Hs Hr) as (e & -> & _). eauto.
Qed.

Section Loaded.
Variable s : Store.
Variable startNode : ref.
Hypothesis Hwf : wf s.
Hypothesis Hstart : startNode < length (heap s).

Variable st : LoopState.
Hypothesis Hst :
  loopState (heap s) (length (heap s)) (initialState s startNode) st.

Lemma loaded_structInv : structInv (length (heap s)) st.
Proof.
  destruct Hwf as [Hg Ht].
  apply (@loopState_structInv (heap s) (length (heap s)) eq_refl Ht
           (initialState s startNode)); auto.
  apply initial_structInv. exact Hwf.
Qed.

Lemma loaded_genInv :
  genInv (heap s) startNode (length (heap s)) (lookupTable st).
Proof.
  destruct Hwf as [Hg Ht].
  apply (@loopState_genInv (heap s) (length (heap s)) startNode eq_refl Ht
           (initialState s startNode)); auto.
  - apply initial_structInv. exact Hwf.
  - apply initial_genInv; auto.
Qed.

Lemma loaded_posInv :
  positiveWeights (heap s) ->
  posInv (heap s) startNode (length (heap s)) st.
Proof.
  intros Hpos. destruct Hwf as [Hg Ht].
  apply (@loopState_posInv (heap s) (length (heap s)) startNode eq_refl Ht
           Hpos (initialState s startNode)); auto.
  - apply initial_structInv. exact Hwf.
  - apply initial_posInv; auto.
Qed.

Lemma loaded_finInv :
  finiteWeights (heap s) -> smallWeights (heap s) ->
  finInv (heap s) (length (heap s)) st.
Proof.
  intros Hfin Hsmall. destruct Hwf as [Hg Ht].
  apply (@loopState_finInv (heap s) (length (heap s)) eq_refl Ht
           Hfin Hsmall (initialState s startNode)); auto.
  - apply initial_structInv. exact Hwf.
  - apply initial_finInv. exact Hwf.
Qed.
End Loaded.

Lemma finalTable_loopState (fuel : nat) (s : Store) (startNode : ref) :
  wf s ->
  exists st,
    loopState (heap s) (length (heap s)) (initialState s startNode) st /\
    lookupTable st = finalTable fuel s startNode /\
    mainLoop fuel (heap s) (length (graphNodes s)) (initialState s startNode)
    = (st, snd (mainLoop fuel (heap s) (length (graphNodes s))
                         (initialState s startNode))).
Proof.
  intros [Hg Ht].
  assert (Hlen : length (graphNodes s) = length (heap s))
    by (rewrite Hg; apply length_seq).
  exists (fst (mainLoop fuel (heap s) (length (heap s))
                        (initialState s startNode))).
  split; [|split].
  - apply mainLoop_loopState. apply loop_enter.
  - unfold finalTable. rewrite Hlen. reflexivity.
  - rewrite Hlen. apply surjective_pairing.
Qed.

(** What a query that returns has computed. *)
Lemma findShortestPathBetween_result (fuel : nat) (s : Store)
  (startNode targetNode : ref) (r : ShortestPath) :
  wf s ->
  snd (findShortestPathBetween fuel s startNode targetNode) = Return r ->
  startNode < length (heap s) /\ targetNode < length (heap s) /\
  exists pathNames startName e,
    rewind fuel (heap s) (finalTable fuel s startNode) startNode
           (Some targetNode) [] = Return pathNames /\
    getName (heap s) startNode = Some startName /\
    entryOf (finalTable fuel s startNode) targetNode = Some e /\
    r = mkShortestPath (rev (pathNames ++ [startName]))
                       (shortestDistanceToTargetNode e).
Proof.
  intros Hwf H. unfold findShortestPathBetween, getGraphNodesList in H.
  destruct (includes Nat.eqb (graphNodes s) startNode) eqn:Is;
    [|simpl in H; discriminate].
  destruct (includes Nat.eqb (graphNodes s) targetNode) eqn:It;
    [|simpl in H; discriminate].
  apply includes_In in Is. apply includes_In in It.
  apply (wf_In startNode Hwf) in Is. apply (wf_In targetNode Hwf) in It.
  split; auto. split; auto.
  simpl in H. unfold finalTable.
  change (mkLoop (initLookupTable s startNode) [] (graphNodes s))
    with (initialState s startNode) in H.
  destruct (mainLoop fuel (heap s) (length (graphNodes s))
                     (initialState s startNode)) as [st r0].
  simpl in *. destruct r0 as [[]| |]; simpl in H; try discriminate.
  destruct (rewind fuel (heap s) (lookupTable st) startNode (Some targetNode) [])
    as [pathNames| |]; simpl in H; try discriminate.
  destruct (getName (heap s) startNode) as [startName|]; try discriminate.
  destruct (entryOf (lookupTable st) targetNode) as [e|]; try discriminate.
  injection H as <-. exists pathNames, startName, e. auto.
Qed.

Lemma dijkstra_result (fuel : nat) (s : Store) (a b : string)
  (r : ShortestPath) :
  snd (dijkstra fuel s a b) = Return r ->
  exists startNode targetNode,
    findByName s a = Some startNode /\ findByName s b = Some targetNode /\
    snd (findShortestPathBetween fuel s startNode targetNode) = Return r.
Proof.
  unfold dijkstra. intros H.
  destruct (findByName s a) as [u|]; [|discriminate].
  destruct (findByName s b) as [v|]; [|discriminate].
  eauto.
Qed.

(* ================================================================== *)
(** ** The query over small positive weights: no sum is rounded *)

Unset Implicit Arguments.

Lemma positive_finite (h : list GraphNode) :
  positiveWeights h -> finiteWeights h.
Proof.
  intros Hpos u e He. destruct (Hpos u e He) as (z & Ez & _). eauto.
Qed.

Lemma positive_weightOf (h : list GraphNode) (u : ref) (e : EdgeToNode) :
  positiveWeights h -> In e (edgesOf h u) ->
  weight e = Fin (weightOf e) /\ (0 < weightOf e)%Z.
Proof.
  intros Hpos He. destruct (Hpos u e He) as (z & Ez & Hz).
  unfold weightOf. rewrite Ez. auto.
Qed.

Lemma walkSum_nonneg (h : list GraphNode) (steps : list EdgeToNode)
  (u v : ref) :
  positiveWeights h -> isPath h u steps v -> (0 <= walkSum steps)%Z.
Proof.
  intros Hpos. revert u.
  induction steps as [|e steps IH]; intros u Hp; simpl in *; [lia|].
  destruct Hp as [He Hp]. specialize (IH _ Hp).
  destruct (positive_weightOf h u e Hpos He) as [_ Hw]. lia.
Qed.

Section SmallPositive.
Variable s : Store.
Variable startNode : ref.
Hypothesis Hwf : wf s.
Hypothesis Hstart : startNode < length (heap s).
Hypothesis Hpos : positiveWeights (heap s).
Hypothesis Hsmall : smallWeights (heap s).
Variable st : LoopState.
Hypothesis Hst :
  loopState (heap s) (length (heap s)) (initialState s startNode) st.

(** Every distance of the table is [Infinity] or an integer that the
    weights of the graph bound. *)
Lemma small_entry (x : ref) :
  x < length (heap s) ->
  dOf (lookupTable st) x = Infinity
  \/ exists c, dOf (lookupTable st) x = Fin c /\
               (0 <= c <= totalLoad (heap s))%Z.
Proof.
  intros Hx.
  pose proof (loaded_structInv Hwf Hst) as Hsi.
  pose proof (loaded_posInv Hwf Hstart Hst Hpos) as Hpi.
  pose proof (loaded_finInv Hwf Hst (positive_finite _ Hpos) Hsmall) as Hfi.
  destruct (fi_bound Hfi Hx) as [E|(z & E & Hz)]; auto.
  right. exists z. split; [exact E|].
  assert (Hle : (visitedLoad (heap s) (visited st) <= totalLoad (heap s))%Z).
  { apply visitedLoad_le; [apply (fi_nodup Hfi)|].
    intros y Hy. apply (si_visited Hsi). exact Hy. }
  destruct (pi_nonneg Hpi Hx) as [E'|(z' & E' & H0 & _)]; [congruence|].
  assert (z' = z) by congruence. subst z'. lia.
Qed.

(** The candidate distance through a record of a node at a finite
    distance is the exact sum. *)
Lemma small_candidate (p : ref) (e : EdgeToNode) (a : Z) :
  p < length (heap s) -> In e (edgesOf (heap s) p) ->
  dOf (lookupTable st) p = Fin a ->
  add (dOf (lookupTable st) p) (weight e) = Fin (a + weightOf e)
  /\ (0 <= a)%Z /\ (0 < weightOf e)%Z.
Proof.
  intros Hp He Ea.
  destruct (positive_weightOf _ _ _ Hpos He) as [Ew Hw].
  destruct (small_entry p Hp) as [E|(c & E & Hc)]; [congruence|].
  assert (c = a) by congruence. subst c.
  pose proof (@weight_le_totalLoad (heap s) p e Hp He) as Hle.
  split; [|split; [lia | exact Hw]].
  rewrite Ea, Ew. apply add_exact. unfold smallWeights in Hsmall. lia.
Qed.

(** The predecessor of a node is strictly nearer to the start, by the
    weight of the record that joins them. *)
Lemma small_prev (x p : ref) :
  x < length (heap s) -> pOf (lookupTable st) x = Some p ->
  p < length (heap s) /\
  exists e a,
    In e (edgesOf (heap s) p) /\ targetNode e = x /\
    dOf (lookupTable st) p = Fin a /\
    dOf (lookupTable st) x = Fin (a + weightOf e) /\
    (0 <= a)%Z /\ (0 < weightOf e)%Z.
Proof.
  intros Hx Hpx.
  pose proof (loaded_structInv Hwf Hst) as Hsi.
  pose proof (loaded_posInv Hwf Hstart Hst Hpos) as Hpi.
  pose proof (loaded_genInv Hwf Hstart Hst) as Hgi.
  destruct (pi_prev Hpi Hx Hpx) as (Hin & e & He & Et & Ed).
  assert (Hp : p < length (heap s)) by (apply (si_visited Hsi); exact Hin).
  split; [exact Hp|].
  assert (Hxfin : dOf (lookupTable st) x <> Infinity).
  { intros E. rewrite (gi_inf_noprev Hgi Hx E) in Hpx. discriminate. }
  destruct (small_entry p Hp) as [E|(a & Ea & Ha)].
  - exfalso. apply Hxfin.
    destruct (positive_weightOf _ _ _ Hpos He) as [Ew _].
    rewrite Ed, E, Ew. reflexivity.
  - destruct (small_candidate p e a Hp He Ea) as (Ec & H0 & Hw).
    exists e, a. rewrite Ed, Ec. auto 10.
Qed.

Lemma small_strict (x p : ref) :
  x < length (heap s) -> pOf (lookupTable st) x = Some p ->
  ltb (dOf (lookupTable st) p) (dOf (lookupTable st) x) = true.
Proof.
  intros Hx Hpx.
  destruct (small_prev x p Hx Hpx) as (_ & e & a & _ & _ & Ea & Ex & _ & Hw).
  rewrite Ea, Ex. simpl. apply Z.ltb_lt. lia.
Qed.

(** Once every node is visited, the distance of a node is at most the
    exact weight of any walk from the start to it. *)
Lemma small_lower_bound (steps : list EdgeToNode) (x : ref) :
  (forall v, v < length (heap s) -> In v (visited st)) ->
  isPath (heap s) startNode steps x ->
  exists c, dOf (lookupTable st) x = Fin c /\ (0 <= c <= walkSum steps)%Z.
Proof.
  intros Hall.
  pose proof (loaded_posInv Hwf Hstart Hst Hpos) as Hpi.
  pose proof Hwf as [_ Ht].
  revert x. induction steps as [|e steps IH] using rev_ind; intros x Hp.
  - simpl in Hp. subst x. exists 0%Z.
    split; [apply (pi_start Hpi) | simpl; lia].
  - apply isPath_snoc_inv in Hp. destruct Hp as (p & Hp & He & <-).
    assert (Hpn : p < length (heap s)) by (eapply isPath_bound; eauto).
    destruct (IH p Hp) as (a & Ea & Ha).
    destruct (small_candidate p e a Hpn He Ea) as (Ec & _ & Hw).
    pose proof (@pi_relaxed _ _ _ _ Hpi p e (Hall p Hpn) He) as Hrel.
    rewrite Ec in Hrel. rewrite walkSum_snoc.
    destruct (small_entry (targetNode e) (Ht p e He)) as [E|(c & E & Hc)];
      rewrite E in Hrel; simpl in Hrel; [discriminate|].
    apply Z.ltb_ge in Hrel. exists c. split; [exact E | lia].
Qed.
End SmallPositive.

Section RewindExact.
Variable h : list GraphNode.
Variable n : nat.
Variable startNode : ref.
Variable t : list LookupTableEntry.
Hypothesis Hlen : length h = n.
Hypothesis Hshape : tableShape n t.
Hypothesis Hstart : dOf t startNode = Fin 0.
Hypothesis Hprev :
  forall x p, x < n -> pOf t x = Some p ->
              p < n /\
              exists e a, In e (edgesOf h p) /\ targetNode e = x /\
                          dOf t p = Fin a /\
                          dOf t x = Fin (a + weightOf e).

(** What the rewinding loop has collected when it returns: the names
    of a walk from the start, in reverse, whose exact weight is the
    distance of the table. *)
Lemma rewind_exact (fuel : nat) (v : ref) (acc names : list string) :
  v < n ->
  rewind fuel h t startNode (Some v) acc = Return names ->
  exists steps added,
    names = acc ++ added /\
    isPath h startNode steps v /\
    dOf t v = Fin (walkSum steps) /\
    map (getName h) (rev (map targetNode steps)) = map Some added.
Proof.
  revert v acc; induction fuel as [|fuel IH]; intros v acc Hv Hr.
  - simpl in Hr. destruct (Nat.eqb_spec v startNode) as [->|Hne];
      [|discriminate].
    injection Hr as <-. exists [], []. rewrite app_nil_r.
    repeat split; auto.
  - destruct (Nat.eq_dec v startNode) as [->|Hne].
    + rewrite rewind_start in Hr. injection Hr as <-.
      exists [], []. rewrite app_nil_r. repeat split; auto.
    + destruct (@rewind_step fuel h t n startNode v acc Hshape Hlen Hv Hne)
        as (nm & Hnm & Er).
      rewrite Er in Hr.
      destruct (pOf t v) as [p|] eqn:Ep;
        [|exfalso; eapply rewind_none; exact Hr].
      destruct (Hprev v p Hv Ep) as (Hp & e & a & He & Et & Ea & Ed).
      destruct (IH p (acc ++ [nm]) Hp Hr)
        as (steps & added & En & Hpath & Hd & Hnames).
      exists (steps ++ [e]), (nm :: added).
      rewrite <- app_assoc in En. simpl in En.
      split; [exact En|]. split; [|split].
      * apply (isPath_snoc h startNode p steps e Hpath He Et).
      * rewrite walkSum_snoc, Ed. f_equal.
        assert (a = walkSum steps) by congruence. lia.
      * rewrite map_app, rev_app_distr. simpl.
        rewrite Et, Hnm, Hnames. reflexivity.
Qed.
End RewindExact.

(** A query over small positive weights that returns: its names are
    those of a walk from the start to the target, its distance is the
    exact weight of that walk, and no walk between them weighs less. *)
Lemma small_positive_result (fuel : nat) (s : Store) (u v : ref)
  (r : ShortestPath) :
  wf s -> positiveWeights (heap s) -> smallWeights (heap s) ->
  snd (findShortestPathBetween fuel s u v) = Return r ->
  u < length (heap s) /\ v < length (heap s) /\
  exists steps,
    isPath (heap s) u steps v /\
    shortestDistance r = Fin (walkSum steps) /\
    map (getName (heap s)) (pathNodes u steps) = map Some (nodeNames r) /\
    forall steps', isPath (heap s) u steps' v ->
                   (walkSum steps <= walkSum steps')%Z.
Proof.
  intros Hwf Hpos Hsmall Hres.
  destruct (@findShortestPathBetween_result fuel s u v r Hwf Hres)
    as (Hu & Hv & _).
  split; [exact Hu|]. split; [exact Hv|].
  pose proof (@findShortestPathBetween_more_fuel fuel (length (heap s)) s u v r
                Hres) as Hmore.
  destruct (@findShortestPathBetween_loaded s u v (fuel + length (heap s))
              Hwf Hu Hv ltac:(lia)) as (st & Hst & Hunv & Hvis & _ & E).
  rewrite E in Hmore. simpl in Hmore.
  pose proof (loaded_structInv Hwf Hst) as Hsi.
  pose proof (loaded_posInv Hwf Hu Hst Hpos) as Hpi.
  assert (Hall : forall y, y < length (heap s) -> In y (visited st)).
  { intros y Hyn. destruct (si_cover Hsi Hyn) as [H|H]; auto.
    rewrite Hunv in H. contradiction. }
  destruct (rewind (fuel + length (heap s)) (heap s) (lookupTable st) u
                   (Some v) []) as [pathNames| |] eqn:Hrew;
    simpl in Hmore; try discriminate.
  destruct (getName (heap s) u) as [startName|] eqn:Hname;
    try discriminate.
  destruct (entryOf (lookupTable st) v) as [en|] eqn:Hen; try discriminate.
  injection Hmore as <-.
  destruct (rewind_exact (heap s) (length (heap s)) u (lookupTable st)
              eq_refl (si_shape Hsi) (proj1 (pi_start Hpi)))
    with (fuel := fuel + length (heap s)) (v := v) (acc := @nil string)
         (names := pathNames)
    as (steps & added & En & Hpath & Hd & Hnames); auto.
  { intros x p Hx Hpx.
    destruct (small_prev s u Hwf Hu Hpos Hsmall st Hst x p Hx Hpx)
      as (Hp & e & a & He & Et & Ea & Ex & _).
    split; [exact Hp|]. exists e, a. auto. }
  simpl in En. subst pathNames.
  destruct (entryOf_fields (si_shape Hsi) Hv) as (e' & Ee & Ed & _).
  assert (e' = en) by congruence. subst e'.
  exists steps. simpl.
  split; [exact Hpath|]. split; [rewrite Ed; exact Hd|]. split.
  - rewrite rev_app_distr. simpl. rewrite Hname. f_equal.
    rewrite <- (rev_involutive (map targetNode steps)).
    rewrite map_rev, Hnames, <- map_rev. reflexivity.
  - intros steps' Hp'.
    destruct (small_lower_bound s u Hwf Hu Hpos Hsmall st Hst steps' v
                Hall Hp') as (c & Ec & Hc).
    assert (c = walkSum steps) by congruence. lia.
Qed.

(** A query over small positive weights returns, with fuel for every
    node, when a walk joins the start to the target. *)
Lemma small_positive_returns (fuel : nat) (s : Store) (u v : ref) :
  wf s -> positiveWeights (heap s) -> smallWeights (heap s) ->
  u < length (heap s) -> v < length (heap s) ->
  reachable (heap s) u v ->
  length (heap s) <= fuel ->
  exists r, snd (findShortestPathBetween fuel s u v) = Return r.
Proof.
  intros Hwf Hpos Hsmall Hu Hv [steps0 Hp0] Hfuel.
  destruct (@findShortestPathBetween_loaded s u v fuel
              Hwf Hu Hv Hfuel) as (st & Hst & Hunv & Hvis & _ & E).
  pose proof (loaded_structInv Hwf Hst) as Hsi.
  pose proof (loaded_posInv Hwf Hu Hst Hpos) as Hpi.
  assert (Hall : forall y, y < length (heap s) -> In y (visited st)).
  { intros y Hyn. destruct (si_cover Hsi Hyn) as [H|H]; auto.
    rewrite Hunv in H. contradiction. }
  destruct (small_lower_bound s u Hwf Hu Hpos Hsmall st Hst steps0 v
              Hall Hp0) as (c & Ec & _).
  assert (Hfinite : dOf (lookupTable st) v <> Infinity) by congruence.
  assert (Hprev : forall x p,
             x < length (heap s) -> pOf (lookupTable st) x = Some p ->
             p < length (heap s) /\
             exists e, In e (edgesOf (heap s) p) /\ targetNode e = x /\
                       dOf (lookupTable st) x
                       = add (dOf (lookupTable st) p) (weight e)).
  { intros x p Hx Hpx. destruct (pi_prev Hpi Hx Hpx) as (Hin & Hex).
    split; auto. apply (si_visited Hsi). exact Hin. }
  destruct (@rewind_returns (heap s) (length (heap s)) u
              (lookupTable st) eq_refl (si_shape Hsi) Hprev (pi_noprev Hpi)
              fuel v []
              (small_strict s u Hwf Hu Hpos Hsmall st Hst)
              Hv Hfinite) as [names Hnames].
  { pose proof (@nearer_lt_n (heap s) (length (heap s)) (lookupTable st)
                  eq_refl v Hv). lia. }
  destruct (@getName_some (heap s) u Hu) as [nm Hnm].
  destruct (entryOf_fields (si_shape Hsi) Hv) as (e & Ee & Ed & _).
  rewrite E. simpl. rewrite Hnames. simpl. rewrite Hnm, Ee. eauto.
Qed.

(* ================================================================== *)
(** ** The properties of the specification *)

Unset Implicit Arguments.

Lemma parseGraphMl_wf (doc : XmlDocument) (s : Store) :
  parseGraphMl doc = Return s -> wf s /\ undirected (heap s).
Proof.
  intros H. destruct (parseGraphMl_loaded _ H) as (g & _ & [Hwf _ Hsym _] & _).
  auto.
Qed.

Lemma findByName_lt (s : Store) (nm : string) (r : ref) :
  wf s -> findByName s nm = Some r ->
  r < length (heap s) /\ getName (heap s) r = Some nm.
Proof.
  intros Hwf H. apply findByName_some in H. destruct H as [Hin Hn].
  split; auto. apply (wf_In r Hwf). exact Hin.
Qed.


Lemma names_by_address (h : list GraphNode) :
  map (getName h) (seq 0 (length h)) = map Some (map name h).
Proof.
  induction h as [|x h IH] using rev_ind; [reflexivity|].
  rewrite length_app, seq_app, !map_app. simpl.
  unfold getName at 2. rewrite nth_error_app2, Nat.sub_diag by lia. simpl.
  f_equal. rewrite <- IH. apply map_ext_in.
  intros i Hi. apply in_seq in Hi. unfold getName.
  rewrite nth_error_app1 by lia. reflexivity.
Qed.

(** Scenario 2: two nodes and one edge of weight 7. *)
Example scenario2_path_and_distance :
  query 2 twoNodeDoc "A" "B"
  = Return (mkShortestPath ["A"; "B"]%string (Fin 7)).
Proof. reflexivity. Qed.

(** C8.  On the graph of scenario 1 the query from A to E returns the
    names A, C, B, D, E and the distance 11, with any fuel that lets the
    loops of the query take their five turns. *)
Theorem C8_scenario1_path_and_distance (fuel : nat) :
  5 <= fuel ->
  query fuel scenario1 "A" "E"
  = Return (mkShortestPath ["A"; "C"; "B"; "D"; "E"]%string (Fin 11)).
Proof.
  intros Hfuel. replace fuel with (5 + (fuel - 5)) by lia.
  unfold query.
  change (parseGraphMl scenario1) with (Return (storeOf scenario1)).
  cbn [bind]. apply dijkstra_more_fuel. vm_compute. reflexivity.
Qed.

Lemma C8_scenario1_path_and_distance_witness :
  5 <= 7 /\
  query 7 scenario1 "A" "E"
  = Return (mkShortestPath ["A"; "C"; "B"; "D"; "E"]%string (Fin 11)).
Proof.
  split; [lia|]. apply (C8_scenario1_path_and_distance 7). lia.
Defined.

(** C3, as the loader has it.  The loader rejects a weight exactly when
    it is falsy: an edge tag whose attributes and data are present and
    whose weight is [NaN] or zero throws the invalid-number error; a
    document that loads has no such edge tag, and every weight stored in
    the loaded graph is a number other than [NaN] and zero.  Negative and
    infinite weights are accepted. *)
Theorem C3_loader_rejects_only_falsy_weights (doc : XmlDocument) (s : Store) :
  parseGraphMl doc = Return s ->
  (forall graphTag edge,
      doc = Some graphTag -> In edge (edges graphTag) ->
      exists w, data edge = Some w /\ w <> NaN /\ w <> Fin 0) /\
  (forall u e, In e (edgesOf (heap s) u) ->
               weight e <> NaN /\ weight e <> Fin 0) /\
  (forall s0 edge w,
      attr_missing (source edge) = false ->
      attr_missing (target edge) = false ->
      data edge = Some w -> (w = NaN \/ w = Fin 0) ->
      addEdgeTag s0 edge = Throw (Error msg_edge_weight)).
Proof.
  intros H. destruct (parseGraphMl_loaded _ H) as (g & -> & Hl & _ & He).
  split; [|split].
  - intros g' edge Eg Hin. injection Eg as <-.
    destruct (addEdgeTags_data _ _ He edge Hin) as (w & Hd & Hw).
    exists w. split; auto. apply falsy_spec. exact Hw.
  - intros u e Hin. apply falsy_spec. eapply loaded_weights; eauto.
  - intros s0 edge w Hs Ht Hd Hw. unfold addEdgeTag.
    rewrite Hs, Ht. simpl.
    destruct (source edge); [|discriminate].
    destruct (target edge); [|discriminate].
    rewrite Hd. destruct Hw as [-> | ->]; reflexivity.
Qed.

Lemma C3_loader_rejects_only_falsy_weights_witness :
  parseGraphMl scenario1 = Return (storeOf scenario1) /\
  forall u e, In e (edgesOf (heap (storeOf scenario1)) u) ->
              weight e <> NaN /\ weight e <> Fin 0.
Proof.
  split; [reflexivity|].
  apply (C3_loader_rejects_only_falsy_weights scenario1 (storeOf scenario1)).
  reflexivity.
Defined.

(** C3 fails as stated: a negative weight and an infinite weight load. *)
Lemma C3_negative_and_infinite_weights_load :
  (exists s, parseGraphMl negativeDoc = Return s /\
             In (mkEdgeToNode 1 (Fin (-1))) (edgesOf (heap s) 0)) /\
  (exists s, parseGraphMl infiniteDoc = Return s /\
             In (mkEdgeToNode 1 Infinity) (edgesOf (heap s) 0)).
Proof.
  split; eexists; (split; [reflexivity | simpl; auto]).
Qed.

(** C4, as the loader has it.  The loader does not compare identifiers:
    a document that loads yields one node per node record, in order,
    named by the identifier of the record, duplicates included. *)
Theorem C4_loaded_nodes_are_the_node_records (doc : XmlDocument) (s : Store) :
  parseGraphMl doc = Return s ->
  exists graphTag,
    doc = Some graphTag /\
    length (graphNodes s) = length (nodes graphTag) /\
    map (getName (heap s)) (graphNodes s) = map Some (nodes graphTag).
Proof.
  intros H. destruct (parseGraphMl_loaded _ H) as (g & -> & Hl & _ & _).
  exists g. split; auto.
  destruct Hl as [[Hg _] Hn _ _].
  rewrite Hg, length_seq, names_by_address, Hn.
  split; auto. rewrite <- Hn. symmetry. apply length_map.
Qed.

Lemma C4_loaded_nodes_are_the_node_records_witness :
  parseGraphMl duplicateDoc = Return (storeOf duplicateDoc) /\
  exists graphTag,
    duplicateDoc = Some graphTag /\
    length (graphNodes (storeOf duplicateDoc)) = length (nodes graphTag) /\
    map (getName (heap (storeOf duplicateDoc))) (graphNodes (storeOf duplicateDoc))
    = map Some (nodes graphTag).
Proof.
  split; [reflexivity|].
  apply (C4_loaded_nodes_are_the_node_records duplicateDoc (storeOf duplicateDoc)).
  reflexivity.
Defined.

(** C4 fails as stated: a document with two node records of identifier
    A loads, and the loaded graph has two nodes named A. *)
Lemma C4_duplicate_identifiers_load :
  exists s, parseGraphMl duplicateDoc = Return s /\
            map (getName (heap s)) (graphNodes s)
            = [Some "A"; Some "A"]%string.
Proof.
  eexists. split; reflexivity.
Qed.

(** C1, as the query has it.  The name [unvisited] of the main loop is a
    second name of the array of the graph, and the loop splices every
    node out of it: a query on a loaded graph leaves every node object
    (its name and its adjacency list) as it was and leaves the node list
    of the graph empty; the same query repeated on that graph finds no
    node by name and throws. *)
Theorem C1_query_empties_the_node_list
  (doc : XmlDocument) (s : Store) (a b : string)
  (startNode targetNode : ref) (fuel : nat) :
  parseGraphMl doc = Return s ->
  findByName s a = Some startNode ->
  findByName s b = Some targetNode ->
  length (graphNodes s) <= fuel ->
  heap (fst (dijkstra fuel s a b)) = heap s /\
  graphNodes (fst (dijkstra fuel s a b)) = [] /\
  forall fuel',
    snd (dijkstra fuel' (fst (dijkstra fuel s a b)) a b)
    = Throw (Error msg_not_contained).
Proof.
  intros Hp Ha Hb Hfuel.
  destruct (parseGraphMl_wf _ _ Hp) as [Hwf _].
  destruct (findByName_lt _ _ _ Hwf Ha) as [Hu _].
  destruct (findByName_lt _ _ _ Hwf Hb) as [Hv _].
  assert (Hlen : length (graphNodes s) = length (heap s)).
  { destruct Hwf as [Hg _]. rewrite Hg. apply length_seq. }
  destruct (@findShortestPathBetween_loaded s startNode targetNode fuel
              Hwf Hu Hv) as (st & _ & _ & _ & _ & E); [lia|].
  assert (Ed : fst (dijkstra fuel s a b) = mkStore (heap s) []).
  { unfold dijkstra. rewrite Ha, Hb, E. reflexivity. }
  rewrite Ed. simpl. repeat split.
Qed.

Lemma C1_query_empties_the_node_list_witness :
  parseGraphMl scenario1 = Return (storeOf scenario1) /\
  heap (fst (dijkstra 5 (storeOf scenario1) "A" "E")) = heap (storeOf scenario1) /\
  graphNodes (fst (dijkstra 5 (storeOf scenario1) "A" "E")) = [] /\
  forall fuel',
    snd (dijkstra fuel' (fst (dijkstra 5 (storeOf scenario1) "A" "E")) "A" "E")
    = Throw (Error msg_not_contained).
Proof.
  split; [reflexivity|].
  apply (C1_query_empties_the_node_list scenario1 (storeOf scenario1)
           "A" "E" 0 4 5); try reflexivity; simpl; lia.
Defined.

(** C1 fails as stated: after the query of scenario 1 the node list of
    the graph is not what it was, and the same query on the same graph
    does not give the same result. *)
Lemma C1_query_changes_the_graph :
  exists s,
    parseGraphMl scenario1 = Return s /\
    graphNodes (fst (dijkstra 5 s "A" "E")) <> graphNodes s /\
    snd (dijkstra 5 (fst (dijkstra 5 s "A" "E")) "A" "E")
    <> snd (dijkstra 5 s "A" "E").
Proof.
  eexists. split; [reflexivity|]. split; vm_compute; discriminate.
Qed.

(** C2, what the query does instead.  When the distance of the target
    is still [Infinity] after the main loop, the rewinding loop reads the
    name of the [null] predecessor of the target: the query throws the
    [TypeError] of the run time, not an error of its own. *)
Theorem C2_unreachable_target_raises_TypeError
  (doc : XmlDocument) (s : Store) (a b : string)
  (startNode targetNode : ref) (fuel : nat) :
  parseGraphMl doc = Return s ->
  findByName s a = Some startNode ->
  findByName s b = Some targetNode ->
  length (graphNodes s) <= fuel ->
  distanceOf (finalTable fuel s startNode) targetNode = Some Infinity ->
  snd (dijkstra fuel s a b) = Throw TypeError.
Proof.
  intros Hp Ha Hb Hfuel Hd.
  destruct (parseGraphMl_loaded _ Hp) as (g & _ & Hl & Hn2 & _).
  pose proof (loaded_length Hl) as Hn.
  destruct (parseGraphMl_wf _ _ Hp) as [Hwf _].
  destruct (findByName_lt _ _ _ Hwf Ha) as [Hu _].
  destruct (findByName_lt _ _ _ Hwf Hb) as [Hv _].
  assert (Hlen : length (graphNodes s) = length (heap s)).
  { destruct Hwf as [Hg _]. rewrite Hg. apply length_seq. }
  destruct (@findShortestPathBetween_loaded s startNode targetNode fuel
              Hwf Hu Hv) as (st & Hst & _ & _ & Et & E); [lia|].
  unfold dijkstra. rewrite Ha, Hb, E. simpl.
  pose proof (loaded_structInv Hwf Hst) as Hsi.
  pose proof (loaded_genInv Hwf Hu Hst) as Hgi.
  rewrite <- Et in Hd.
  rewrite (distanceOf_shape (si_shape Hsi) Hv) in Hd. injection Hd as Hd.
  assert (Hne : targetNode <> startNode).
  { intros ->. apply (gi_start Hgi). exact Hd. }
  destruct fuel as [|[|fuel]]; try lia.
  destruct (@rewind_step (S fuel) (heap s) (lookupTable st) (length (heap s))
              startNode targetNode [] (si_shape Hsi) eq_refl Hv Hne)
    as (nm & _ & Er).
  rewrite Er, (gi_inf_noprev Hgi Hv Hd). reflexivity.
Qed.

(** Scenario 3: node C is isolated, and the query from A to C throws
    the [TypeError]. *)
Lemma C2_unreachable_target_raises_TypeError_witness :
  parseGraphMl isolatedDoc = Return (storeOf isolatedDoc) /\
  distanceOf (finalTable 3 (storeOf isolatedDoc) 0) 2 = Some Infinity /\
  snd (dijkstra 3 (storeOf isolatedDoc) "A" "C") = Throw TypeError.
Proof.
  split; [reflexivity|]. split; [reflexivity|].
  apply (C2_unreachable_target_raises_TypeError isolatedDoc
           (storeOf isolatedDoc) "A" "C" 0 2 3); try reflexivity; simpl; lia.
Defined.

(** C9, over positive weights.  On a loaded graph whose weights are all
    strictly positive and finite, the query from a node to itself
    returns the name of the node alone and the distance 0. *)
Theorem C9_start_equals_target
  (doc : XmlDocument) (s : Store) (a : string) (startNode : ref)
  (fuel : nat) :
  parseGraphMl doc = Return s ->
  positiveWeights (heap s) ->
  findByName s a = Some startNode ->
  length (graphNodes s) <= fuel ->
  snd (dijkstra fuel s a a) = Return (mkShortestPath [a] (Fin 0)).
Proof.
  intros Hp Hpos Ha Hfuel.
  destruct (parseGraphMl_wf _ _ Hp) as [Hwf _].
  destruct (findByName_lt _ _ _ Hwf Ha) as [Hu Hname].
  assert (Hlen : length (graphNodes s) = length (heap s)).
  { destruct Hwf as [Hg _]. rewrite Hg. apply length_seq. }
  destruct (@findShortestPathBetween_loaded s startNode startNode fuel
              Hwf Hu Hu) as (st & Hst & _ & _ & _ & E); [lia|].
  unfold dijkstra. rewrite Ha, E. simpl.
  rewrite rewind_start, Hname. simpl.
  pose proof (loaded_structInv Hwf Hst) as Hsi.
  pose proof (loaded_posInv Hwf Hu Hst Hpos) as Hpi.
  destruct (entryOf_fields (si_shape Hsi) Hu) as (e & -> & Ed & _).
  rewrite Ed. destruct (pi_start Hpi) as [-> _]. reflexivity.
Qed.

Lemma scenario1_positive : positiveWeights (heap (storeOf scenario1)).
Proof.
  intros u e He.
  do 5 (destruct u as [|u];
        [simpl in He; repeat (destruct He as [<-|He]; [eexists; split;
           [reflexivity | lia]|]); contradiction|]).
  unfold edgesOf in He. simpl in He. destruct u; contradiction.
Qed.

Lemma C9_start_equals_target_witness :
  parseGraphMl scenario1 = Return (storeOf scenario1) /\
  snd (dijkstra 5 (storeOf scenario1) "A" "A")
  = Return (mkShortestPath ["A"%string] (Fin 0)).
Proof.
  split; [reflexivity|].
  apply (C9_start_equals_target scenario1 (storeOf scenario1) "A" 0 5);
    try reflexivity; try exact scenario1_positive; simpl; lia.
Defined.

(** C9 fails as stated: the loader accepts the weight -1, and on that
    graph the query from A to A returns the distance -2. *)
Lemma C9_negative_weight_lowers_the_start :
  exists s,
    parseGraphMl negativeDoc = Return s /\
    findByName s "A" = Some 0 /\
    snd (dijkstra 2 s "A" "A") = Return (mkShortestPath ["A"%string] (Fin (-2))).
Proof.
  eexists. split; [reflexivity|]. split; reflexivity.
Qed.

(** C6.  In every state in which the main loop over a loaded graph
    takes a turn, [findNodeWithSmallestKnownDistance] returns a node of
    [unvisited], not yet visited, whose distance no unvisited node beats;
    an unvisited node of the same distance does not come before it in
    the node list of the graph. *)
Theorem C6_selection_is_first_minimum
  (doc : XmlDocument) (s : Store) (startNode : ref) (st : LoopState) :
  parseGraphMl doc = Return s ->
  loopState (heap s) (length (graphNodes s)) (initialState s startNode) st ->
  length (visited st) < length (graphNodes s) ->
  exists u du,
    findNodeWithSmallestKnownDistance (lookupTable st) (unvisited st)
    = Return (Some u) /\
    In u (unvisited st) /\ ~ In u (visited st) /\
    distanceOf (lookupTable st) u = Some du /\ du <> NaN /\
    forall x, In x (unvisited st) ->
      exists dx,
        distanceOf (lookupTable st) x = Some dx /\ dx <> NaN /\
        ltb dx du = false /\
        (dx = du ->
         forall i j, nth_error (graphNodes s) i = Some u ->
                     nth_error (graphNodes s) j = Some x -> i <= j).
Proof.
  intros Hp Hst Hlt.
  destruct (parseGraphMl_wf _ _ Hp) as [Hwf _].
  assert (Hlen : length (graphNodes s) = length (heap s)).
  { destruct Hwf as [Hg _]. rewrite Hg. apply length_seq. }
  rewrite Hlen in *.
  pose proof (loaded_structInv Hwf Hst) as Hsi.
  destruct Hwf as [Hg Ht].
  destruct (@loopBody_spec (heap s) (length (heap s)) eq_refl Ht st Hsi Hlt)
    as (u & l1 & l2 & El & _ & Ef & Hmin & Hfirst).
  assert (Hu : In u (unvisited st)) by (rewrite El; apply in_elt).
  assert (Hun : u < length (heap s)) by (apply (si_unvisited Hsi); exact Hu).
  exists u, (dOf (lookupTable st) u).
  split; [exact Ef|]. split; [exact Hu|]. split.
  { intros Hv. apply (si_visited Hsi) in Hv. tauto. }
  split; [apply (distanceOf_shape (si_shape Hsi) Hun)|].
  split; [apply (si_nan Hsi); exact Hun|].
  intros x Hx.
  assert (Hxn : x < length (heap s)) by (apply (si_unvisited Hsi); exact Hx).
  exists (dOf (lookupTable st) x).
  split; [apply (distanceOf_shape (si_shape Hsi) Hxn)|].
  split; [apply (si_nan Hsi); exact Hxn|].
  split; [apply Hmin; exact Hx|].
  intros E i j Hi Hj. rewrite Hg in Hi, Hj.
  rewrite nth_error_seq in Hi, Hj.
  destruct (Nat.ltb_spec i (length (heap s))); [|discriminate].
  destruct (Nat.ltb_spec j (length (heap s))); [|discriminate].
  simpl in Hi, Hj. injection Hi as <-. injection Hj as <-.
  destruct (Nat.le_gt_cases i j) as [Hle|Hgt]; auto.
  specialize (Hfirst j Hx Hgt). rewrite E, ltb_irrefl in Hfirst.
  discriminate.
Qed.

Lemma C6_selection_is_first_minimum_witness :
  parseGraphMl scenario1 = Return (storeOf scenario1) /\
  exists u du,
    findNodeWithSmallestKnownDistance
      (lookupTable (initialState (storeOf scenario1) 0))
      (unvisited (initialState (storeOf scenario1) 0))
    = Return (Some u) /\
    In u (unvisited (initialState (storeOf scenario1) 0)) /\
    ~ In u (visited (initialState (storeOf scenario1) 0)) /\
    distanceOf (lookupTable (initialState (storeOf scenario1) 0)) u = Some du /\
    du <> NaN /\
    forall x, In x (unvisited (initialState (storeOf scenario1) 0)) ->
      exists dx,
        distanceOf (lookupTable (initialState (storeOf scenario1) 0)) x
        = Some dx /\ dx <> NaN /\
        ltb dx du = false /\
        (dx = du ->
         forall i j, nth_error (graphNodes (storeOf scenario1)) i = Some u ->
                     nth_error (graphNodes (storeOf scenario1)) j = Some x ->
                     i <= j).
Proof.
  split; [reflexivity|].
  apply (C6_selection_is_first_minimum scenario1 (storeOf scenario1) 0
           (initialState (storeOf scenario1) 0)).
  - reflexivity.
  - apply loop_enter.
  - simpl. lia.
Defined.

(** C5, over positive weights.  When a query on a loaded graph whose
    weights are all strictly positive and finite returns, the returned
    names are the names of the nodes of a walk along adjacency records
    from the start node to the target node, the returned distance is the
    sum of the weights of that walk, added from the start on, and it is
    the value that the final table holds for the target; the names begin
    with the name of the start and end with the name of the target. *)
Theorem C5_distance_is_the_weight_of_the_path
  (doc : XmlDocument) (s : Store) (a b : string) (fuel : nat)
  (r : ShortestPath) :
  parseGraphMl doc = Return s ->
  positiveWeights (heap s) ->
  snd (dijkstra fuel s a b) = Return r ->
  exists startNode targetNode steps,
    findByName s a = Some startNode /\
    findByName s b = Some targetNode /\
    isPath (heap s) startNode steps targetNode /\
    map (getName (heap s)) (pathNodes startNode steps)
    = map Some (nodeNames r) /\
    shortestDistance r = pathWeight steps /\
    distanceOf (finalTable fuel s startNode) targetNode
    = Some (shortestDistance r) /\
    hd_error (nodeNames r) = Some a /\
    last (nodeNames r) a = b.
Proof.
  intros Hp Hpos Hr.
  destruct (parseGraphMl_wf _ _ Hp) as [Hwf _].
  destruct (@dijkstra_result fuel s a b r Hr) as (u & v & Ha & Hb & Hres).
  destruct (@findShortestPathBetween_result fuel s u v r Hwf Hres)
    as (Hu & Hv & pathNames & startName & e & Hrew & Hname & He & ->).
  destruct (@finalTable_loopState fuel s u Hwf) as (st & Hst & Et & _).
  pose proof (loaded_structInv Hwf Hst) as Hsi.
  pose proof (loaded_posInv Hwf Hu Hst Hpos) as Hpi.
  rewrite <- Et in *.
  destruct (findByName_lt _ _ _ Hwf Ha) as [_ Hna].
  destruct (findByName_lt _ _ _ Hwf Hb) as [_ Hnb].
  assert (startName = a) by congruence. subst startName.
  destruct (@rewind_spec (heap s) (length (heap s)) u (lookupTable st)
              eq_refl (si_shape Hsi) (proj1 (pi_start Hpi)))
    with (fuel := fuel) (v := v) (acc := @nil string) (names := pathNames)
    as (steps & added & En & Hpath & Hd & Hnames); auto.
  { intros x p Hx Hpx. destruct (pi_prev Hpi Hx Hpx) as (Hin & Hex).
    split; auto. apply (si_visited Hsi). exact Hin. }
  simpl in En. subst pathNames.
  destruct (entryOf_fields (si_shape Hsi) Hv) as (e' & Ee & Ed & _).
  assert (e' = e) by congruence. subst e'.
  assert (Hnodes : map (getName (heap s)) (pathNodes u steps)
                   = map Some (rev (added ++ [a]))).
  { rewrite rev_app_distr. simpl. rewrite Hna. f_equal.
    rewrite <- (rev_involutive (map targetNode steps)).
    rewrite map_rev, Hnames, <- map_rev. reflexivity. }
  exists u, v, steps. simpl.
  repeat split; auto.
  - rewrite Ed. exact Hd.
  - rewrite <- Et. unfold distanceOf. rewrite Ee. reflexivity.
  - rewrite rev_app_distr. reflexivity.
  - assert (H : last (map (getName (heap s)) (pathNodes u steps))
                     (getName (heap s) u) = getName (heap s) v).
    { rewrite last_map_default. f_equal. eapply isPath_last; eauto. }
    rewrite Hnodes, Hna, last_map_default, Hnb in H.
    injection H as H. exact H.
Qed.

Lemma C5_distance_is_the_weight_of_the_path_witness :
  parseGraphMl scenario1 = Return (storeOf scenario1) /\
  snd (dijkstra 5 (storeOf scenario1) "A" "E")
  = Return (mkShortestPath ["A"; "C"; "B"; "D"; "E"]%string (Fin 11)) /\
  exists startNode targetNode steps,
    findByName (storeOf scenario1) "A" = Some startNode /\
    findByName (storeOf scenario1) "E" = Some targetNode /\
    isPath (heap (storeOf scenario1)) startNode steps targetNode /\
    map (getName (heap (storeOf scenario1))) (pathNodes startNode steps)
    = map Some ["A"; "C"; "B"; "D"; "E"]%string /\
    Fin 11 = pathWeight steps /\
    distanceOf (finalTable 5 (storeOf scenario1) startNode) targetNode
    = Some (Fin 11) /\
    hd_error ["A"; "C"; "B"; "D"; "E"]%string = Some "A"%string /\
    last ["A"; "C"; "B"; "D"; "E"]%string "A"%string = "E"%string.
Proof.
  split; [reflexivity|]. split; [reflexivity|].
  apply (C5_distance_is_the_weight_of_the_path scenario1 (storeOf scenario1)
           "A" "E" 5
           (mkShortestPath ["A"; "C"; "B"; "D"; "E"]%string (Fin 11))).
  - reflexivity.
  - exact scenario1_positive.
  - reflexivity.
Defined.

(** C5 fails as stated: on the loaded graph with the weight -1 the query
    from A to A returns, its path is the single node A, whose walk has
    no edge and weighs 0, and its distance is -2. *)
Lemma C5_distance_differs_from_the_path_weight :
  exists s r,
    parseGraphMl negativeDoc = Return s /\
    snd (dijkstra 2 s "A" "A") = Return r /\
    nodeNames r = ["A"%string] /\
    isPath (heap s) 0 [] 0 /\
    shortestDistance r = Fin (-2) /\
    shortestDistance r <> pathWeight [].
Proof.
  do 2 eexists. split; [reflexivity|]. split; [reflexivity|].
  repeat split. simpl. discriminate.
Qed.






Lemma map_Some_inj (A : Type) (l1 l2 : list A) :
  map Some l1 = map Some l2 -> l1 = l2.
Proof.
  revert l2; induction l1 as [|x l1 IH]; intros [|y l2] H; simpl in H;
    try discriminate; auto.
  injection H as -> H. f_equal. apply IH. exact H.
Qed.

Lemma scenario1_small : smallWeights (heap (storeOf scenario1)).
Proof. reflexivity. Qed.

(** C7, over small positive weights.  On a loaded graph whose weights
    are all strictly positive integers, so small that no sum of a query
    rounds (twice the weights of all adjacency records stay below
    [2^53]), when a walk joins two nodes, the query from the first to
    the second and the query from the second to the first, each on the
    graph as loaded, both return, and they return the same distance.
    When every walk of least weight between the two nodes passes through
    the same nodes, the sequence of names of the second query is the
    reverse of the sequence of the first. *)
Theorem C7_distances_are_symmetric
  (doc : XmlDocument) (s : Store) (a e : string) (u v : ref) (fuel : nat) :
  parseGraphMl doc = Return s ->
  positiveWeights (heap s) ->
  smallWeights (heap s) ->
  findByName s a = Some u ->
  findByName s e = Some v ->
  reachable (heap s) u v ->
  length (graphNodes s) <= fuel ->
  exists r1 r2,
    snd (dijkstra fuel s a e) = Return r1 /\
    snd (dijkstra fuel s e a) = Return r2 /\
    shortestDistance r1 = shortestDistance r2 /\
    ((forall p q,
         isPath (heap s) u p v -> isPath (heap s) u q v ->
         (forall c, isPath (heap s) u c v -> (walkSum p <= walkSum c)%Z) ->
         (forall c, isPath (heap s) u c v -> (walkSum q <= walkSum c)%Z) ->
         pathNodes u p = pathNodes u q) ->
     nodeNames r2 = rev (nodeNames r1)).
Proof.
  intros Hp Hpos Hsmall Ha He Hreach Hfuel.
  destruct (parseGraphMl_wf _ _ Hp) as [Hwf Hsym].
  destruct (findByName_lt _ _ _ Hwf Ha) as [Hu _].
  destruct (findByName_lt _ _ _ Hwf He) as [Hv _].
  assert (Hlen : length (graphNodes s) = length (heap s)).
  { destruct Hwf as [Hg _]. rewrite Hg. apply length_seq. }
  rewrite Hlen in Hfuel.
  assert (Hback : reachable (heap s) v u).
  { destruct Hreach as [steps Hpath]. exists (reverseWalk u steps).
    apply isPath_reverse; auto. }
  destruct (small_positive_returns fuel s u v Hwf Hpos Hsmall Hu Hv
              Hreach Hfuel) as [r1 E1].
  destruct (small_positive_returns fuel s v u Hwf Hpos Hsmall Hv Hu
              Hback Hfuel) as [r2 E2].
  destruct (small_positive_result fuel s u v r1 Hwf Hpos Hsmall E1)
    as (_ & _ & steps1 & P1 & D1 & N1 & L1).
  destruct (small_positive_result fuel s v u r2 Hwf Hpos Hsmall E2)
    as (_ & _ & steps2 & P2 & D2 & N2 & L2).
  pose proof (@isPath_reverse (heap s) steps2 v u Hsym P2) as R2.
  pose proof (@isPath_reverse (heap s) steps1 u v Hsym P1) as R1.
  pose proof (L1 _ R2) as B1. rewrite walkSum_reverse in B1.
  pose proof (L2 _ R1) as B2. rewrite walkSum_reverse in B2.
  assert (Esum : walkSum steps1 = walkSum steps2) by lia.
  exists r1, r2. unfold dijkstra. rewrite Ha, He.
  split; [exact E1|]. split; [exact E2|]. split.
  - rewrite D1, D2, Esum. reflexivity.
  - intros Hunique.
    assert (Hnodes : pathNodes u steps1 = pathNodes u (reverseWalk v steps2)).
    { apply Hunique; auto.
      intros c Hc. rewrite walkSum_reverse, <- Esum. apply L1. exact Hc. }
    rewrite (@pathNodes_reverse (heap s) steps2 v u P2) in Hnodes.
    rewrite Hnodes, map_rev, N2, <- map_rev in N1.
    apply map_Some_inj in N1.
    rewrite <- N1. symmetry. apply rev_involutive.
Qed.

Lemma twoNode_positive : positiveWeights (heap (storeOf twoNodeDoc)).
Proof.
  intros u e He.
  do 2 (destruct u as [|u];
        [simpl in He;
         repeat (destruct He as [<-|He];
                 [eexists; split; [reflexivity | reflexivity]|]);
         contradiction|]).
  unfold edgesOf in He. simpl in He. destruct u; contradiction.
Qed.

Lemma twoNode_small : smallWeights (heap (storeOf twoNodeDoc)).
Proof. reflexivity. Qed.

(** Between the two nodes of [twoNodeDoc] a walk of weight at most 7 is
    the edge itself. *)
Lemma twoNode_least_walk (p : list EdgeToNode) :
  isPath (heap (storeOf twoNodeDoc)) 0 p 1 ->
  (walkSum p <= 7)%Z -> pathNodes 0 p = [0; 1].
Proof.
  intros Hp Hle.
  destruct p as [|e1 p]; simpl in Hp; [discriminate|].
  destruct Hp as [He1 Hp]. simpl in He1. destruct He1 as [<-|[]].
  destruct p as [|e2 p]; simpl in Hp.
  - reflexivity.
  - destruct Hp as [He2 Hp]. simpl in He2. destruct He2 as [<-|[]].
    pose proof (walkSum_nonneg (heap (storeOf twoNodeDoc)) p 0 1
                  twoNode_positive Hp) as H0.
    change (7 + (7 + walkSum p) <= 7)%Z in Hle. lia.
Qed.

Lemma C7_distances_are_symmetric_witness :
  (exists r1 r2,
      snd (dijkstra 5 (storeOf scenario1) "A" "E") = Return r1 /\
      snd (dijkstra 5 (storeOf scenario1) "E" "A") = Return r2 /\
      shortestDistance r1 = shortestDistance r2) /\
  (exists r1 r2,
      snd (dijkstra 2 (storeOf twoNodeDoc) "A" "B") = Return r1 /\
      snd (dijkstra 2 (storeOf twoNodeDoc) "B" "A") = Return r2 /\
      shortestDistance r1 = shortestDistance r2 /\
      nodeNames r2 = rev (nodeNames r1)).
Proof.
  split.
  - destruct (C7_distances_are_symmetric scenario1 (storeOf scenario1)
                "A" "E" 0 4 5 eq_refl scenario1_positive scenario1_small
                eq_refl eq_refl)
      as (r1 & r2 & E1 & E2 & D & _).
    + exists [mkEdgeToNode 1 (Fin 4); mkEdgeToNode 4 (Fin 10)].
      simpl. auto 10.
    + simpl. lia.
    + exists r1, r2. auto.
  - destruct (C7_distances_are_symmetric twoNodeDoc (storeOf twoNodeDoc)
                "A" "B" 0 1 2 eq_refl twoNode_positive twoNode_small
                eq_refl eq_refl)
      as (r1 & r2 & E1 & E2 & D & R).
    + exists [mkEdgeToNode 1 (Fin 7)]. simpl. auto.
    + simpl. lia.
    + exists r1, r2. split; [exact E1|]. split; [exact E2|].
      split; [exact D|]. apply R.
      intros p q Hp Hq Lp Lq.
      assert (H1 : isPath (heap (storeOf twoNodeDoc)) 0
                          [mkEdgeToNode 1 (Fin 7)] 1) by (simpl; auto).
      rewrite (twoNode_least_walk p Hp (Lp _ H1)).
      rewrite (twoNode_least_walk q Hq (Lq _ H1)). reflexivity.
Defined.

(** C7 fails as stated, in two ways.  Between A and D of the loaded
    graph [tieDoc] two paths weigh 3: the query from A to D returns
    A, B, D and the query from D to A returns D, C, A, which is not the
    reverse.  And on the chain A, B, C, D with the weights [2^53], 1
    and 1 the additions round: from A the two weights of 1 are lost one
    after the other and the distance is [2^53]; from D they add up
    first and the distance is [2^53 + 2]. *)
Lemma C7_ties_and_rounding_break_the_symmetry :
  (exists s r1 r2,
      parseGraphMl tieDoc = Return s /\
      undirected (heap s) /\
      snd (dijkstra 4 s "A" "D") = Return r1 /\
      snd (dijkstra 4 s "D" "A") = Return r2 /\
      shortestDistance r1 = shortestDistance r2 /\
      nodeNames r1 = ["A"; "B"; "D"]%string /\
      nodeNames r2 = ["D"; "C"; "A"]%string /\
      nodeNames r2 <> rev (nodeNames r1)) /\
  (exists s,
      parseGraphMl roundingDoc = Return s /\
      undirected (heap s) /\ positiveWeights (heap s) /\
      snd (dijkstra 4 s "A" "D")
      = Return (mkShortestPath ["A"; "B"; "C"; "D"]%string
                               (Fin 9007199254740992)) /\
      snd (dijkstra 4 s "D" "A")
      = Return (mkShortestPath ["D"; "C"; "B"; "A"]%string
                               (Fin 9007199254740994))).
Proof.
  split.
  - do 3 eexists. split; [reflexivity|].
    split; [apply (parseGraphMl_wf tieDoc _ eq_refl)|].
    split; [reflexivity|]. split; [reflexivity|].
    repeat split. simpl. discriminate.
  - exists (storeOf roundingDoc). split; [reflexivity|].
    split; [apply (parseGraphMl_wf roundingDoc _ eq_refl)|].
    split.
    { intros u e He.
      do 4 (destruct u as [|u];
            [vm_compute in He;
             repeat (destruct He as [<-|He];
                     [eexists; split; [reflexivity | reflexivity]|]);
             contradiction|]).
      unfold edgesOf in He. simpl in He. destruct u; contradiction. }
    split; vm_compute; reflexivity.
Qed.

(* ================================================================== *)
(** ** Further properties: the graph classes and the loader *)

Lemma find_seq_some (p : nat -> bool) (a k i : nat) :
  find p (seq a k) = Some i <->
  a <= i < a + k /\ p i = true /\ forall j, a <= j < i -> p j = false.
Proof.
  revert a; induction k as [|k IH]; intros a; simpl.
  - split; [discriminate | lia].
  - destruct (p a) eqn:Pa.
    + split.
      * intros E. injection E as <-. repeat split; auto; lia.
      * intros (Hr & Hp & Hb).
        destruct (Nat.eq_dec a i) as [->|Hne]; auto.
        rewrite (Hb a) in Pa by lia. discriminate.
    + rewrite IH. split.
      * intros (Hr & Hp & Hb). repeat split; auto; try lia.
        intros j Hj. destruct (Nat.eq_dec j a) as [->|Hne]; auto.
        apply Hb. lia.
      * intros (Hr & Hp & Hb).
        assert (a <> i) by (intros ->; congruence).
        repeat split; auto; try lia. intros j Hj. apply Hb. lia.
Qed.

Lemma getName_loaded (ids : list string) (s : Store) (i : nat) :
  loaded ids s -> getName (heap s) i = nth_error ids i.
Proof.
  intros Hl. unfold getName. rewrite <- (loaded_names Hl), nth_error_map.
  reflexivity.
Qed.

Lemma findByName_loaded_some (ids : list string) (s : Store) (nm : string)
  (i : nat) :
  loaded ids s ->
  (findByName s nm = Some i <->
   nth_error ids i = Some nm /\
   forall j, j < i -> nth_error ids j <> Some nm).
Proof.
  intros Hl. unfold findByName, getGraphNodesList.
  destruct (loaded_wf Hl) as [Hg _]. rewrite Hg, find_seq_some.
  assert (Hp : forall j,
             match getName (heap s) j with
             | Some n => String.eqb n nm
             | None => false
             end = true <-> nth_error ids j = Some nm).
  { intros j. rewrite (getName_loaded ids s j Hl).
    destruct (nth_error ids j) as [n|]; [|split; discriminate].
    rewrite String.eqb_eq. split; congruence. }
  split.
  - intros (Hr & Hpi & Hb). split; [apply Hp; exact Hpi|].
    intros j Hj E. apply Hp in E. rewrite Hb in E by lia. discriminate.
  - intros (Hi & Hb). split; [|split].
    + assert (i < length ids) by (apply nth_error_Some; congruence).
      rewrite (loaded_length Hl). lia.
    + apply Hp. exact Hi.
    + intros j Hj.
      destruct (match getName (heap s) j with
                | Some n => String.eqb n nm
                | None => false
                end) eqn:E; auto.
      apply Hp in E. exfalso. apply (Hb j); [lia | exact E].
Qed.

Lemma findByName_loaded_none (ids : list string) (s : Store) (nm : string) :
  loaded ids s -> (findByName s nm = None <-> ~ In nm ids).
Proof.
  intros Hl. split.
  - intros Hn Hin. destruct (In_nth_error _ _ Hin) as [i Hi].
    assert (Hex : exists k, nth_error ids k = Some nm) by eauto.
    clear i Hi.
    assert (Hfirst : exists k, nth_error ids k = Some nm /\
                               forall j, j < k -> nth_error ids j <> Some nm).
    { destruct Hex as [k Hk]. revert Hk.
      induction k as [k IHk] using lt_wf_ind. intros Hk.
      destruct (find (fun j => match nth_error ids j with
                               | Some n => String.eqb n nm
                               | None => false
                               end) (seq 0 k)) as [j|] eqn:Ef.
      - apply find_seq_some in Ef. destruct Ef as (Hr & Hp & _).
        apply (IHk j); [lia|].
        destruct (nth_error ids j) as [n|]; [|discriminate].
        apply String.eqb_eq in Hp. congruence.
      - exists k. split; auto. intros j Hj E.
        assert (Hin' : In j (seq 0 k)) by (apply in_seq; lia).
        pose proof (find_none _ _ Ef j Hin') as Hnone. cbv beta in Hnone.
        rewrite E, String.eqb_refl in Hnone. discriminate. }
    destruct Hfirst as (k & Hk & Hb).
    assert (E : findByName s nm = Some k)
      by (apply (findByName_loaded_some ids s nm k Hl); auto).
    congruence.
  - intros Hnin. destruct (findByName s nm) as [i|] eqn:E; auto.
    apply (findByName_loaded_some ids s nm i Hl) in E. destruct E as [Hi _].
    exfalso. apply Hnin. eapply nth_error_In; eauto.
Qed.

Lemma existsb_eqb_In (ids : list string) (a : string) :
  existsb (String.eqb a) ids = true <-> In a ids.
Proof.
  rewrite existsb_exists. split.
  - intros (x & Hx & E). apply String.eqb_eq in E. subst. exact Hx.
  - intros H. exists a. split; auto. apply String.eqb_refl.
Qed.

Lemma findByName_loaded_In (ids : list string) (s : Store) (a : string) :
  loaded ids s ->
  ((exists u, findByName s a = Some u) <-> existsb (String.eqb a) ids = true).
Proof.
  intros Hl. rewrite existsb_eqb_In. split.
  - intros [u Hu].
    apply (findByName_loaded_some ids s a u Hl) in Hu. destruct Hu as [Hi _].
    eapply nth_error_In; eauto.
  - intros Hin. destruct (findByName s a) as [u|] eqn:E; eauto.
    apply (findByName_loaded_none ids s a Hl) in E. contradiction.
Qed.

Lemma attr_missing_false (a : option string) :
  attr_missing a = false <->
  exists x, a = Some x /\ String.eqb x EmptyString = false.
Proof.
  destruct a as [x|]; simpl.
  - split; [eauto | intros (y & E & Hy); congruence].
  - split; [discriminate | intros (y & E & _); discriminate].
Qed.

(** One edge tag is added exactly when it passes every check. *)
Lemma addEdgeTag_returns (ids : list string) (s : Store) (edge : EdgeTag) :
  loaded ids s ->
  ((exists s', addEdgeTag s edge = Return s') <-> acceptable ids edge = true).
Proof.
  intros Hl. unfold addEdgeTag, acceptable.
  destruct (source edge) as [a|]; simpl;
    [|split; [intros [s' E]; discriminate | discriminate]].
  destruct (target edge) as [b|]; simpl;
    [|rewrite orb_true_r; split; [intros [s' E]; discriminate | discriminate]].
  destruct (String.eqb a EmptyString); simpl;
    [destruct (data edge); split;
       try discriminate; intros [s' E]; discriminate|].
  destruct (String.eqb b EmptyString); simpl;
    [destruct (data edge); split;
       try discriminate; intros [s' E]; discriminate|].
  destruct (data edge) as [w|];
    [|split; [intros [s' E]; discriminate | discriminate]].
  destruct (falsy w); simpl;
    [split; [intros [s' E]; discriminate | discriminate]|].
  pose proof (findByName_loaded_In ids s a Hl) as Ha.
  pose proof (findByName_loaded_In ids s b Hl) as Hb.
  destruct (findByName s a) as [u|].
  - destruct (findByName s b) as [v|].
    + split; [intros _ | eauto].
      rewrite (proj1 Ha), (proj1 Hb); eauto.
    + split; [intros [s' E]; discriminate|].
      intros E. apply andb_prop in E. destruct E as [_ E].
      apply Hb in E. destruct E as [v E]. discriminate.
  - split; [intros [s' E]; discriminate|].
    intros E. apply andb_prop in E. destruct E as [E _].
    apply Ha in E. destruct E as [u E]. discriminate.
Qed.

Lemma addEdgeTags_returns (ids : list string) (es : list EdgeTag) (s : Store) :
  loaded ids s ->
  ((exists s', addEdgeTags s es = Return s') <->
   forallb (acceptable ids) es = true).
Proof.
  revert s; induction es as [|edge es IH]; intros s Hl; simpl.
  - split; eauto.
  - rewrite andb_true_iff, <- (addEdgeTag_returns ids s edge Hl). split.
    + intros [s' E].
      destruct (addEdgeTag s edge) as [s1| |] eqn:E1; try discriminate.
      split; eauto. apply (IH s1); eauto.
      eapply addEdgeTag_loaded; eauto.
    + intros [[s1 E1] Hall]. rewrite E1. simpl.
      apply (IH s1); auto. eapply addEdgeTag_loaded; eauto.
Qed.

Lemma addEdgeTags_app (pre post : list EdgeTag) (s : Store) :
  addEdgeTags s (pre ++ post)
  = do s1 <- addEdgeTags s pre; addEdgeTags s1 post.
Proof.
  revert s; induction pre as [|e pre IH]; intros s; simpl; auto.
  destruct (addEdgeTag s e); simpl; auto.
Qed.

(** X1.  A document loads exactly when it has a graph tag, at least two
    node tags, at least one edge tag, and only edge tags that pass every
    check: source and target present and not empty, data present, a
    weight that is neither [NaN] nor zero, and both names among the
    identifiers of the node tags. *)
Theorem X1_documents_that_load (doc : XmlDocument) :
  (exists s, parseGraphMl doc = Return s) <->
  (exists graphTag,
      doc = Some graphTag /\
      2 <= length (nodes graphTag) /\
      edges graphTag <> [] /\
      forallb (acceptable (nodes graphTag)) (edges graphTag) = true).
Proof.
  split.
  - intros [s H].
    destruct (parseGraphMl_loaded _ H) as (g & -> & Hl & Hn & He).
    exists g. repeat split; auto.
    + intros E. unfold parseGraphMl in H. rewrite E in H.
      destruct (length (nodes g) <? 2); discriminate.
    + apply (addEdgeTags_returns (nodes g) (edges g)
               (fold_left addNodeTag (nodes g) newGraph)).
      * apply nodeStore_loaded.
      * eauto.
  - intros (g & -> & Hn & He & Hall). unfold parseGraphMl.
    destruct (Nat.ltb_spec (length (nodes g)) 2); [lia|].
    destruct (edges g) as [|e es] eqn:Ee; [congruence|].
    cbn [length Nat.eqb]. rewrite <- Ee in *.
    apply (addEdgeTags_returns (nodes g) (edges g)
             (fold_left addNodeTag (nodes g) newGraph)); auto.
    apply nodeStore_loaded.
Qed.

(** X2.  The first edge tag that fails a check stops the load with the
    error of the first check it fails, in the order: attributes, data,
    weight, endpoints. *)
Theorem X2_first_failing_edge_tag
  (g : GraphTag) (pre post : list EdgeTag) (edge : EdgeTag) :
  2 <= length (nodes g) ->
  edges g = pre ++ edge :: post ->
  forallb (acceptable (nodes g)) pre = true ->
  (attr_missing (source edge) || attr_missing (target edge) = true ->
   parseGraphMl (Some g) = Throw (Error msg_edge_attr)) /\
  (attr_missing (source edge) || attr_missing (target edge) = false ->
   (data edge = None ->
    parseGraphMl (Some g) = Throw (Error msg_edge_data)) /\
   (forall w, data edge = Some w -> falsy w = true ->
              parseGraphMl (Some g) = Throw (Error msg_edge_weight)) /\
   (forall w a b,
       data edge = Some w -> falsy w = false ->
       source edge = Some a -> target edge = Some b ->
       ~ In a (nodes g) \/ ~ In b (nodes g) ->
       parseGraphMl (Some g) = Throw (Error msg_edge_node))).
Proof.
  intros Hn Ee Hpre.
  assert (Hl0 : loaded (nodes g) (fold_left addNodeTag (nodes g) newGraph))
    by apply nodeStore_loaded.
  destruct (proj2 (addEdgeTags_returns (nodes g) pre _ Hl0) Hpre) as [s1 E1].
  assert (Hl1 : loaded (nodes g) s1)
    by (eapply addEdgeTags_loaded; eauto).
  assert (Ep : parseGraphMl (Some g)
               = do s2 <- addEdgeTag s1 edge; addEdgeTags s2 post).
  { unfold parseGraphMl.
    destruct (Nat.ltb_spec (length (nodes g)) 2); [lia|].
    rewrite Ee, length_app. simpl length.
    replace (length pre + S (length post) =? 0) with false
      by (symmetry; apply Nat.eqb_neq; lia).
    rewrite addEdgeTags_app, E1. reflexivity. }
  rewrite Ep. unfold addEdgeTag. split.
  - intros Ha. rewrite Ha. reflexivity.
  - intros Ha. rewrite Ha.
    apply orb_false_elim in Ha. destruct Ha as [Hs Ht].
    apply attr_missing_false in Hs. destruct Hs as (a & Ea & _).
    apply attr_missing_false in Ht. destruct Ht as (b & Eb & _).
    rewrite Ea, Eb. split; [|split].
    + intros ->. reflexivity.
    + intros w -> ->. reflexivity.
    + intros w a' b' -> -> Ea' Eb' Hnin.
      injection Ea' as <-. injection Eb' as <-.
      destruct Hnin as [Hnin|Hnin].
      * apply (findByName_loaded_none (nodes g) s1 a Hl1) in Hnin.
        rewrite Hnin. reflexivity.
      * apply (findByName_loaded_none (nodes g) s1 b Hl1) in Hnin.
        rewrite Hnin. destruct (findByName s1 a); reflexivity.
Qed.

Lemma X2_first_failing_edge_tag_witness :
  parseGraphMl unknownEndpointDoc = Throw (Error msg_edge_node).
Proof.
  assert (Hn : 2 <= length ["A"; "B"]%string) by (simpl; lia).
  pose proof (X2_first_failing_edge_tag
                (mkGraphTag ["A"; "B"]%string
                            [edgeTag "A" "B" 1; edgeTag "A" "Z" 2])
                [edgeTag "A" "B" 1] [] (edgeTag "A" "Z" 2)
                Hn eq_refl eq_refl) as H.
  destruct H as (_ & H). destruct (H eq_refl) as (_ & _ & Hnode).
  apply (Hnode (Fin 2) "A"%string "Z"%string eq_refl eq_refl eq_refl eq_refl).
  right. simpl. intros [E|[E|[]]]; discriminate.
Defined.

(** X3.  In a loaded graph a name resolves to the first node whose node
    tag has that identifier, and to no node exactly when no node tag has
    it. *)
Theorem X3_lookup_by_name_is_first_match
  (g : GraphTag) (s : Store) (nm : string) :
  parseGraphMl (Some g) = Return s ->
  (forall i, findByName s nm = Some i <->
             nth_error (nodes g) i = Some nm /\
             forall j, j < i -> nth_error (nodes g) j <> Some nm) /\
  (findByName s nm = None <-> ~ In nm (nodes g)).
Proof.
  intros H. destruct (parseGraphMl_loaded _ H) as (g' & E & Hl & _).
  injection E as <-. split.
  - intros i. apply findByName_loaded_some. exact Hl.
  - apply findByName_loaded_none. exact Hl.
Qed.

Lemma X3_lookup_by_name_is_first_match_witness :
  (forall i, findByName (storeOf duplicateDoc) "A" = Some i <->
             nth_error ["A"; "A"]%string i = Some "A"%string /\
             forall j, j < i -> nth_error ["A"; "A"]%string j <> Some "A"%string) /\
  (findByName (storeOf duplicateDoc) "A" = None <->
   ~ In "A"%string ["A"; "A"]%string).
Proof.
  apply (X3_lookup_by_name_is_first_match
           (mkGraphTag ["A"; "A"]%string [edgeTag "A" "A" 1])
           (storeOf duplicateDoc) "A").
  reflexivity.
Defined.

(** X4.  In a loaded graph every adjacency record points to a node of
    the graph, and that node holds the reciprocal record: the same
    weight, pointing back. *)
Theorem X4_adjacency_records_are_reciprocal
  (doc : XmlDocument) (s : Store) (u : ref) (e : EdgeToNode) :
  parseGraphMl doc = Return s ->
  In e (edgesOf (heap s) u) ->
  In u (graphNodes s) /\ In (targetNode e) (graphNodes s) /\
  In (mkEdgeToNode u (weight e)) (edgesOf (heap s) (targetNode e)).
Proof.
  intros H He.
  destruct (parseGraphMl_loaded _ H) as (g & _ & Hl & _).
  pose proof (loaded_wf Hl) as Hwf.
  split; [|split].
  - apply (wf_In u Hwf).
    destruct (Nat.lt_ge_cases u (length (heap s))) as [Hlt|Hge]; auto.
    unfold edgesOf in He. apply nth_error_None in Hge. rewrite Hge in He.
    contradiction.
  - apply (wf_In (targetNode e) Hwf). destruct Hwf as [_ Ht]. eauto.
  - apply (loaded_sym Hl). exact He.
Qed.

Lemma X4_adjacency_records_are_reciprocal_witness :
  In 0 (graphNodes (storeOf scenario1)) /\
  In 2 (graphNodes (storeOf scenario1)) /\
  In (mkEdgeToNode 0 (Fin 2)) (edgesOf (heap (storeOf scenario1)) 2).
Proof.
  apply (X4_adjacency_records_are_reciprocal scenario1 (storeOf scenario1)
           0 (mkEdgeToNode 2 (Fin 2))).
  - reflexivity.
  - simpl. auto.
Defined.

Lemma list_sum_update (A : Type) (f : A -> nat) (g : A -> A) (i : nat)
  (l : list A) :
  (forall x, f (g x) = S (f x)) -> i < length l ->
  list_sum (map f (update i g l)) = S (list_sum (map f l)).
Proof.
  intros Hfg. revert i; induction l as [|x l IH]; intros i Hi; simpl in *.
  - lia.
  - destruct i as [|i]; simpl.
    + rewrite Hfg. reflexivity.
    + rewrite IH by lia. lia.
Qed.

Lemma addEdgeTag_count (ids : list string) (s s' : Store) (edge : EdgeTag) :
  loaded ids s -> addEdgeTag s edge = Return s' ->
  recordCount (heap s') = 2 + recordCount (heap s).
Proof.
  intros Hl H. apply addEdgeTag_spec in H.
  destruct H as (a & b & w & u & v & _ & _ & _ & _ & Hu & Hv & ->).
  pose proof (loaded_wf Hl) as Hwf.
  apply findByName_some in Hu. destruct Hu as [Hu _].
  apply findByName_some in Hv. destruct Hv as [Hv _].
  apply (wf_In u Hwf) in Hu. apply (wf_In v Hwf) in Hv.
  unfold recordCount. simpl.
  rewrite list_sum_update.
  - rewrite list_sum_update; auto.
    intros x. simpl. rewrite length_app. simpl. lia.
  - intros x. simpl. rewrite length_app. simpl. lia.
  - rewrite update_length. exact Hv.
Qed.

Lemma addEdgeTags_count (ids : list string) (es : list EdgeTag) (s s' : Store) :
  loaded ids s -> addEdgeTags s es = Return s' ->
  recordCount (heap s') = 2 * length es + recordCount (heap s).
Proof.
  revert s; induction es as [|edge es IH]; intros s Hl H; simpl in H.
  - injection H as <-. reflexivity.
  - destruct (addEdgeTag s edge) as [s1| |] eqn:E; simpl in H; try discriminate.
    rewrite (IH s1 (@addEdgeTag_loaded ids s s1 edge Hl E) H).
    rewrite (addEdgeTag_count ids s s1 edge Hl E). simpl. lia.
Qed.

(** X5.  A loaded graph holds exactly two adjacency records for every
    edge tag of the document, self-loops and parallel edges included. *)
Theorem X5_two_records_per_edge_tag (g : GraphTag) (s : Store) :
  parseGraphMl (Some g) = Return s ->
  recordCount (heap s) = 2 * length (edges g).
Proof.
  intros H. destruct (parseGraphMl_loaded _ H) as (g' & E & _ & _ & He).
  injection E as <-.
  rewrite (addEdgeTags_count (nodes g) (edges g) _ s
             (nodeStore_loaded (nodes g)) He).
  assert (E0 : recordCount (heap (fold_left addNodeTag (nodes g) newGraph)) = 0).
  { unfold newGraph.
    change (mkStore [] [])
      with (mkStore (@nil GraphNode) (seq 0 (length (@nil GraphNode)))).
    rewrite addNodeTags_spec. simpl. unfold recordCount.
    rewrite map_map. simpl. generalize (nodes g) as l.
    induction l; simpl; auto. }
  rewrite E0. lia.
Qed.

Lemma X5_two_records_per_edge_tag_witness :
  recordCount (heap (storeOf duplicateDoc)) = 2 * 1.
Proof.
  apply (X5_two_records_per_edge_tag
           (mkGraphTag ["A"; "A"]%string [edgeTag "A" "A" 1])
           (storeOf duplicateDoc)).
  reflexivity.
Defined.

(** X6.  Adding a node tag to the nodes already added never changes
    the node that an existing name resolves to; a name that resolved to
    no node resolves to the new node exactly when it is the new
    identifier. *)
Theorem X6_adding_a_node_keeps_lookups (ids : list string) (id nm : string) :
  findByName (addNodeTag (fold_left addNodeTag ids newGraph) id) nm
  = match findByName (fold_left addNodeTag ids newGraph) nm with
    | Some r => Some r
    | None => if String.eqb id nm then Some (length ids) else None
    end.
Proof.
  pose proof (nodeStore_loaded ids) as Hl.
  pose proof (nodeStore_loaded (ids ++ [id])) as Hl'.
  rewrite fold_left_app in Hl'. simpl in Hl'.
  destruct (findByName (fold_left addNodeTag ids newGraph) nm) as [r|] eqn:E.
  - apply (findByName_loaded_some ids _ nm r Hl) in E. destruct E as [Hr Hb].
    assert (Hlt : r < length ids) by (apply nth_error_Some; congruence).
    apply (findByName_loaded_some (ids ++ [id]) _ nm r Hl'). split.
    + rewrite nth_error_app1; auto.
    + intros j Hj. rewrite nth_error_app1 by lia. auto.
  - apply (findByName_loaded_none ids _ nm Hl) in E.
    destruct (String.eqb_spec id nm) as [->|Hne].
    + apply (findByName_loaded_some (ids ++ [nm]) _ nm (length ids) Hl'). split.
      * rewrite nth_error_app2, Nat.sub_diag by lia. reflexivity.
      * intros j Hj. rewrite nth_error_app1 by lia. intros Hj'.
        apply E. eapply nth_error_In; eauto.
    + apply (findByName_loaded_none (ids ++ [id]) _ nm Hl').
      intros Hin. apply in_app_or in Hin. destruct Hin as [Hin|[Hin|[]]]; auto.
Qed.

(** X7.  On the nodes of a loaded graph [areSameGraphNodes] compares the
    identifiers of the node tags; it agrees with the identity of the
    nodes when the identifiers of the document are pairwise distinct. *)
Theorem X7_same_nodes_by_name
  (g : GraphTag) (s : Store) (u v : ref) :
  parseGraphMl (Some g) = Return s ->
  In u (graphNodes s) -> In v (graphNodes s) ->
  (areSameGraphNodes (heap s) u v = true <->
   nth_error (nodes g) u = nth_error (nodes g) v) /\
  (NoDup (nodes g) -> (areSameGraphNodes (heap s) u v = true <-> u = v)).
Proof.
  intros H Hu Hv. destruct (parseGraphMl_loaded _ H) as (g' & E & Hl & _).
  injection E as <-.
  pose proof (loaded_wf Hl) as Hwf.
  apply (wf_In u Hwf) in Hu. apply (wf_In v Hwf) in Hv.
  rewrite (loaded_length Hl) in Hu, Hv.
  assert (Hsame : areSameGraphNodes (heap s) u v = true <->
                  nth_error (nodes g) u = nth_error (nodes g) v).
  { unfold areSameGraphNodes.
    rewrite (getName_loaded (nodes g) s u Hl), (getName_loaded (nodes g) s v Hl).
    destruct (nth_error (nodes g) u) as [a|] eqn:Ea;
      [|apply nth_error_None in Ea; lia].
    destruct (nth_error (nodes g) v) as [b|] eqn:Eb;
      [|apply nth_error_None in Eb; lia].
    rewrite String.eqb_eq. split; congruence. }
  split; [exact Hsame|].
  intros Hnd. rewrite Hsame. split; [|intros ->; reflexivity].
  intros Heq. apply (proj1 (NoDup_nth_error (nodes g)) Hnd u v Hu Heq).
Qed.

Lemma X7_same_nodes_by_name_witness :
  (areSameGraphNodes (heap (storeOf duplicateDoc)) 0 1 = true <->
   nth_error ["A"; "A"]%string 0 = nth_error ["A"; "A"]%string 1) /\
  (NoDup ["A"; "A"]%string ->
   (areSameGraphNodes (heap (storeOf duplicateDoc)) 0 1 = true <-> 0 = 1)).
Proof.
  apply (X7_same_nodes_by_name
           (mkGraphTag ["A"; "A"]%string [edgeTag "A" "A" 1])
           (storeOf duplicateDoc) 0 1).
  - reflexivity.
  - simpl. auto.
  - simpl. auto.
Defined.

(* ================================================================== *)
(** ** Further properties: the shortest-path engine *)

Lemma findIndex_from_some (A : Type) (p : A -> bool) (l : list A) (i k : nat) :
  findIndex_from i p l = Some k ->
  i <= k /\ exists e, nth_error l (k - i) = Some e /\ p e = true.
Proof.
  revert i; induction l as [|x l IH]; intros i H; simpl in H; [discriminate|].
  destruct (p x) eqn:Px.
  - injection H as <-. split; auto. rewrite Nat.sub_diag.
    exists x. split; [reflexivity | exact Px].
  - destruct (IH (S i) H) as (Hle & e & He & Hp). split; [lia|].
    exists e. split; auto.
    replace (k - i) with (S (k - S i)) by lia. exact He.
Qed.

Lemma findIndex_from_none (A : Type) (p : A -> bool) (l : list A) (i : nat) :
  findIndex_from i p l = None <-> forall e, In e l -> p e = false.
Proof.
  revert i; induction l as [|x l IH]; intros i; simpl.
  - split; auto. intros _ e [].
  - destruct (p x) eqn:Px.
    + split; [discriminate|]. intros H. rewrite H in Px; auto. discriminate.
    + rewrite IH. split.
      * intros H e [<-|He]; auto.
      * intros H e He. auto.
Qed.

(** X9.  The fresh lookup table has the entry of every node of the
    graph: distance 0 for the start node, [Infinity] for the others, and
    no predecessor; a node that the graph does not list has no entry. *)
Theorem X9_fresh_table_entries (s : Store) (startNode x : ref) :
  (In x (graphNodes s) ->
   entryOf (initLookupTable s startNode) x
   = Some (mkEntry x (if Nat.eqb x startNode then Fin 0 else Infinity) None)) /\
  (~ In x (graphNodes s) -> entryOf (initLookupTable s startNode) x = None).
Proof.
  unfold entryOf, getTableEntryforNode, findIndex, initLookupTable,
    getGraphNodesList.
  set (f := fun graphNode =>
              mkEntry graphNode
                      (if Nat.eqb graphNode startNode then Fin 0 else Infinity)
                      None).
  split.
  - intros Hin.
    destruct (findIndex_from 0 (fun e => Nat.eqb (node e) x)
                             (map f (graphNodes s))) as [k|] eqn:E.
    + destruct (findIndex_from_some _ _ _ _ _ E) as (_ & e & He & Hp).
      rewrite Nat.sub_0_r in He. rewrite He.
      apply nth_error_In in He. apply in_map_iff in He.
      destruct He as (y & <- & _). simpl in Hp.
      apply Nat.eqb_eq in Hp. subst y. reflexivity.
    + exfalso. rewrite findIndex_from_none in E.
      specialize (E (f x) (in_map f _ _ Hin)). simpl in E.
      rewrite Nat.eqb_refl in E. discriminate.
  - intros Hnin.
    destruct (findIndex_from 0 (fun e => Nat.eqb (node e) x)
                             (map f (graphNodes s))) as [k|] eqn:E; auto.
    exfalso. destruct (findIndex_from_some _ _ _ _ _ E) as (_ & e & He & Hp).
    apply nth_error_In in He. apply in_map_iff in He.
    destruct He as (y & <- & Hy). simpl in Hp.
    apply Nat.eqb_eq in Hp. subst y. contradiction.
Qed.

Lemma indexOf_from_absent (l : list ref) (x : ref) (i : Z) :
  ~ In x l -> indexOf_from Nat.eqb i l x = (-1)%Z.
Proof.
  revert i; induction l as [|y l IH]; intros i Hn; simpl; auto.
  destruct (Nat.eqb_spec y x) as [->|Hne].
  - exfalso. apply Hn. simpl. auto.
  - apply IH. intros H. apply Hn. simpl. auto.
Qed.

Lemma remove_at_last (A : Type) (l : list A) :
  remove_at (length l - 1) l = removelast l.
Proof.
  induction l as [|x l IH]; simpl; auto.
  destruct l as [|y l]; simpl in *; auto.
  rewrite Nat.sub_0_r in IH. rewrite IH. reflexivity.
Qed.

(** X20.  [unvisited.splice(unvisited.indexOf(node), 1)] removes the
    first occurrence of a node that the array holds and keeps the rest
    in order; for a node that the array does not hold, [indexOf] gives
    -1 and the splice removes the last element. *)
Theorem X20_splice_at_indexOf (l : list ref) (x : ref) :
  (In x l ->
   exists l1 l2, l = l1 ++ x :: l2 /\ ~ In x l1 /\
                 splice1 l (indexOf Nat.eqb l x) = l1 ++ l2) /\
  (~ In x l -> splice1 l (indexOf Nat.eqb l x) = removelast l).
Proof.
  split.
  - apply splice_indexOf.
  - intros Hn. unfold indexOf. rewrite (indexOf_from_absent l x 0 Hn).
    unfold splice1. simpl.
    replace (Z.to_nat (Z.max (Z.of_nat (length l) + -1) 0))
      with (length l - 1) by lia.
    apply remove_at_last.
Qed.

Lemma NoDup_snoc (A : Type) (l : list A) (x : A) :
  NoDup l -> ~ In x l -> NoDup (l ++ [x]).
Proof.
  induction l as [|y l IH]; intros Hnd Hn; simpl.
  - constructor; auto.
  - inversion Hnd as [|y' l' Hy Hl]; subst. constructor.
    + intros H. apply in_app_or in H. destruct H as [H|[H|[]]]; auto.
      subst. apply Hn. simpl. auto.
    + apply IH; auto. intros H. apply Hn. simpl. auto.
Qed.

Lemma wf_length (s : Store) :
  wf s -> length (graphNodes s) = length (heap s).
Proof. intros [Hg _]. rewrite Hg. apply length_seq. Qed.

(** What one turn does to a state of the main loop of a loaded graph. *)
Lemma loaded_turn (s : Store) (startNode : ref) (st st' : LoopState) :
  wf s ->
  loopState (heap s) (length (heap s)) (initialState s startNode) st ->
  length (visited st) < length (heap s) ->
  loopBody (heap s) st = Return st' ->
  exists u l1 l2,
    unvisited st = l1 ++ u :: l2 /\
    st' = mkLoop (fold_left (relax1 u) (edgesOf (heap s) u) (lookupTable st))
                 (visited st ++ [u]) (l1 ++ l2) /\
    findNodeWithSmallestKnownDistance (lookupTable st) (unvisited st)
    = Return (Some u) /\
    (forall x, In x (unvisited st) ->
               ltb (dOf (lookupTable st) x) (dOf (lookupTable st) u) = false).
Proof.
  intros Hwf Hst Hlt Hb.
  pose proof (loaded_structInv Hwf Hst) as Hsi.
  destruct Hwf as [Hg Ht].
  destruct (@loopBody_spec (heap s) (length (heap s)) eq_refl Ht st Hsi Hlt)
    as (u & l1 & l2 & El & Eb & Ef & Hmin & _).
  rewrite Eb in Hb. injection Hb as <-.
  exists u, l1, l2. auto.
Qed.

Lemma first_selected (s : Store) (startNode : ref) :
  wf s -> startNode < length (heap s) ->
  findNodeWithSmallestKnownDistance (initLookupTable s startNode)
                                    (graphNodes s)
  = Return (Some startNode).
Proof.
  intros Hwf Hs.
  pose proof (initial_structInv startNode Hwf) as Hsi.
  destruct Hwf as [Hg Ht].
  assert (Hne : graphNodes s <> []).
  { rewrite Hg. destruct (length (heap s)); [lia | discriminate]. }
  destruct (@findNode_spec (length (heap s)) (initLookupTable s startNode)
              (graphNodes s) (si_shape Hsi) (si_nan Hsi) Hne
              (si_unvisited Hsi)) as (u & Ef & Hu & Hmin & _).
  assert (Hsin : In startNode (graphNodes s))
    by (rewrite Hg; apply in_seq; lia).
  specialize (Hmin startNode Hsin).
  assert (Hun : u < length (heap s)) by (apply (si_unvisited Hsi); exact Hu).
  rewrite (@dOf_init s startNode startNode Hg Hs), Nat.eqb_refl in Hmin.
  rewrite (@dOf_init s startNode u Hg Hun) in Hmin.
  destruct (Nat.eqb_spec u startNode) as [->|Hne']; [exact Ef|].
  discriminate.
Qed.

Lemma loopState_first_visited (s : Store) (startNode : ref) (st : LoopState) :
  wf s -> startNode < length (heap s) ->
  loopState (heap s) (length (heap s)) (initialState s startNode) st ->
  st = initialState s startNode \/ hd_error (visited st) = Some startNode.
Proof.
  intros Hwf Hs Hst.
  induction Hst as [|st st' Hst IH Hlt Hbody]; auto.
  destruct (loaded_turn s startNode st st' Hwf Hst Hlt Hbody)
    as (u & l1 & l2 & El & -> & Ef & _).
  right. simpl. destruct IH as [->|IH].
  - simpl in *. unfold getGraphNodesList in Ef.
    rewrite (first_selected s startNode Hwf Hs) in Ef.
    injection Ef as <-. reflexivity.
  - destruct (visited st); simpl in *; [discriminate | exact IH].
Qed.

Lemma loopState_visited_NoDup (s : Store) (startNode : ref) (st : LoopState) :
  wf s ->
  loopState (heap s) (length (heap s)) (initialState s startNode) st ->
  NoDup (visited st).
Proof.
  intros Hwf Hst.
  induction Hst as [|st st' Hst IH Hlt Hbody]; [constructor|].
  destruct (loaded_turn s startNode st st' Hwf Hst Hlt Hbody)
    as (u & l1 & l2 & El & -> & _). simpl.
  pose proof (loaded_structInv Hwf Hst) as Hsi.
  apply NoDup_snoc; auto.
  intros Hu. apply (si_visited Hsi) in Hu. destruct Hu as [_ Hu].
  apply Hu. rewrite El. apply in_elt.
Qed.

(** The main loop as the query runs it on a loaded graph, with fuel for
    every node. *)
Lemma loaded_mainLoop (s : Store) (startNode : ref) (fuel : nat) :
  wf s -> length (graphNodes s) <= fuel ->
  exists st,
    mainLoop fuel (heap s) (length (graphNodes s)) (initialState s startNode)
    = (st, Return tt) /\
    loopState (heap s) (length (heap s)) (initialState s startNode) st /\
    length (visited st) = length (heap s) /\ unvisited st = [].
Proof.
  intros Hwf Hfuel. rewrite (wf_length s Hwf) in *.
  pose proof (initial_structInv startNode Hwf) as Hi0.
  destruct Hwf as [Hg Ht].
  apply (@mainLoop_returns (heap s) (length (heap s)) eq_refl Ht
           (initialState s startNode) Hi0 fuel (initialState s startNode)).
  - apply loop_enter.
  - simpl. lia.
Qed.

(** X10.  The start node is the first node that the main loop of a query
    on a loaded graph visits. *)
Theorem X10_start_is_visited_first
  (doc : XmlDocument) (s : Store) (a : string) (startNode : ref)
  (fuel : nat) :
  parseGraphMl doc = Return s ->
  findByName s a = Some startNode ->
  length (graphNodes s) <= fuel ->
  hd_error (visited (fst (mainLoop fuel (heap s) (length (graphNodes s))
                                   (initialState s startNode))))
  = Some startNode.
Proof.
  intros Hp Ha Hfuel.
  destruct (parseGraphMl_wf _ _ Hp) as [Hwf _].
  destruct (findByName_lt _ _ _ Hwf Ha) as [Hu _].
  destruct (loaded_mainLoop s startNode fuel Hwf Hfuel)
    as (st & E & Hst & Hlen & _).
  rewrite E. simpl.
  destruct (loopState_first_visited s startNode st Hwf Hu Hst) as [->|H]; auto.
  simpl in Hlen. lia.
Qed.

Lemma X10_start_is_visited_first_witness :
  hd_error (visited (fst (mainLoop 5 (heap (storeOf scenario1))
                                   (length (graphNodes (storeOf scenario1)))
                                   (initialState (storeOf scenario1) 2))))
  = Some 2.
Proof.
  apply (X10_start_is_visited_first scenario1 (storeOf scenario1) "C" 2 5
           eq_refl eq_refl).
  simpl. lia.
Defined.

(** X11.  The main loop of a query on a loaded graph visits every node
    of the graph exactly once. *)
Theorem X11_every_node_is_visited_once
  (doc : XmlDocument) (s : Store) (startNode : ref) (fuel : nat) :
  parseGraphMl doc = Return s ->
  length (graphNodes s) <= fuel ->
  NoDup (visited (fst (mainLoop fuel (heap s) (length (graphNodes s))
                                (initialState s startNode)))) /\
  length (visited (fst (mainLoop fuel (heap s) (length (graphNodes s))
                                 (initialState s startNode))))
  = length (graphNodes s) /\
  forall x,
    In x (visited (fst (mainLoop fuel (heap s) (length (graphNodes s))
                                 (initialState s startNode))))
    <-> In x (graphNodes s).
Proof.
  intros Hp Hfuel.
  destruct (parseGraphMl_wf _ _ Hp) as [Hwf _].
  destruct (loaded_mainLoop s startNode fuel Hwf Hfuel)
    as (st & E & Hst & Hlen & Hunv).
  rewrite E. simpl.
  pose proof (loaded_structInv Hwf Hst) as Hsi.
  split; [apply (loopState_visited_NoDup s startNode st Hwf Hst)|].
  split; [rewrite (wf_length s Hwf); exact Hlen|].
  intros x. rewrite (wf_In x Hwf). split.
  - intros Hx. apply (si_visited Hsi) in Hx. tauto.
  - intros Hx. destruct (si_cover Hsi Hx) as [H|H]; auto.
    rewrite Hunv in H. contradiction.
Qed.

Lemma X11_every_node_is_visited_once_witness :
  NoDup (visited (fst (mainLoop 5 (heap (storeOf scenario1))
                                (length (graphNodes (storeOf scenario1)))
                                (initialState (storeOf scenario1) 0)))) /\
  length (visited (fst (mainLoop 5 (heap (storeOf scenario1))
                                 (length (graphNodes (storeOf scenario1)))
                                 (initialState (storeOf scenario1) 0))))
  = length (graphNodes (storeOf scenario1)) /\
  forall x,
    In x (visited (fst (mainLoop 5 (heap (storeOf scenario1))
                                 (length (graphNodes (storeOf scenario1)))
                                 (initialState (storeOf scenario1) 0))))
    <-> In x (graphNodes (storeOf scenario1)).
Proof.
  apply (X11_every_node_is_visited_once scenario1 (storeOf scenario1) 0 5
           eq_refl).
  simpl. lia.
Defined.

Lemma mainLoop_never_throws (s : Store) (startNode : ref) (fuel : nat)
  (st : LoopState) (e : exn) :
  wf s ->
  loopState (heap s) (length (heap s)) (initialState s startNode) st ->
  snd (mainLoop fuel (heap s) (length (heap s)) st) <> Throw e.
Proof.
  intros Hwf. revert st; induction fuel as [|fuel IH]; intros st Hst; simpl.
  - destruct (length (visited st) <? length (heap s)); discriminate.
  - destruct (Nat.ltb_spec (length (visited st)) (length (heap s)))
      as [Hlt|Hge]; [|discriminate].
    pose proof (loaded_structInv Hwf Hst) as Hsi.
    pose proof Hwf as [Hg Ht].
    destruct (@loopBody_spec (heap s) (length (heap s)) eq_refl Ht st Hsi Hlt)
      as (u & l1 & l2 & El & Eb & _).
    rewrite Eb. apply IH. eapply loop_turn; eauto.
Qed.

Lemma rewind_never_throws_Error (fuel : nat) (h : list GraphNode)
  (t : list LookupTableEntry) (startNode : ref) (v : option ref)
  (acc : list string) (msg : string) :
  rewind fuel h t startNode v acc <> Throw (Error msg).
Proof.
  revert v acc; induction fuel as [|fuel IH]; intros v acc; simpl.
  - destruct (match v with Some x => Nat.eqb x startNode | None => false end);
      discriminate.
  - destruct (match v with Some x => Nat.eqb x startNode | None => false end);
      [discriminate|].
    destruct v as [x|]; [|discriminate].
    destruct (getName h x); [|discriminate].
    destruct (getTableEntryforNode t x) as [i|]; [|discriminate].
    destruct (nth_error t i); [|discriminate].
    apply IH.
Qed.

(** The query on two nodes of the graph: the main loop, then the
    rewinding loop on the table that the main loop leaves. *)
Lemma findShortestPathBetween_unfold (fuel : nat) (s : Store) (u v : ref) :
  In u (graphNodes s) -> In v (graphNodes s) ->
  snd (findShortestPathBetween fuel s u v)
  = do _ <- snd (mainLoop fuel (heap s) (length (graphNodes s))
                          (initialState s u));
    do pathNames <- rewind fuel (heap s) (finalTable fuel s u) u (Some v) [];
    match getName (heap s) u with
    | None => Throw TypeError
    | Some startName =>
        match entryOf (finalTable fuel s u) v with
        | None => Throw TypeError
        | Some e =>
            Return (mkShortestPath (rev (pathNames ++ [startName]))
                                   (shortestDistanceToTargetNode e))
        end
    end.
Proof.
  intros Hu Hv. unfold findShortestPathBetween, finalTable, getGraphNodesList.
  rewrite (proj2 (includes_In (graphNodes s) u) Hu).
  rewrite (proj2 (includes_In (graphNodes s) v) Hv). simpl.
  change (mkLoop (initLookupTable s u) [] (graphNodes s))
    with (initialState s u).
  destruct (mainLoop fuel (heap s) (length (graphNodes s)) (initialState s u))
    as [st r0]. reflexivity.
Qed.

(** X12.  Whatever the weights of a loaded graph, no entry of the lookup
    table ever holds the distance [NaN], and no query returns it. *)
Theorem X12_no_distance_is_NaN (doc : XmlDocument) (s : Store) :
  parseGraphMl doc = Return s ->
  (forall startNode st x,
      loopState (heap s) (length (graphNodes s)) (initialState s startNode) st ->
      In x (graphNodes s) ->
      exists d, distanceOf (lookupTable st) x = Some d /\ d <> NaN) /\
  (forall fuel a b r,
      snd (dijkstra fuel s a b) = Return r -> shortestDistance r <> NaN).
Proof.
  intros Hp. destruct (parseGraphMl_wf _ _ Hp) as [Hwf _].
  assert (Hstate : forall startNode st x,
             loopState (heap s) (length (heap s)) (initialState s startNode) st ->
             x < length (heap s) ->
             distanceOf (lookupTable st) x = Some (dOf (lookupTable st) x) /\
             dOf (lookupTable st) x <> NaN).
  { intros startNode st x Hst Hx.
    pose proof (loaded_structInv Hwf Hst) as Hsi.
    split; [apply (distanceOf_shape (si_shape Hsi) Hx)|].
    apply (si_nan Hsi). exact Hx. }
  split.
  - intros startNode st x Hst Hx. rewrite (wf_length s Hwf) in Hst.
    apply (wf_In x Hwf) in Hx.
    destruct (Hstate startNode st x Hst Hx). eauto.
  - intros fuel a b r Hr.
    destruct (@dijkstra_result fuel s a b r Hr) as (u & v & _ & _ & Hres).
    destruct (@findShortestPathBetween_result fuel s u v r Hwf Hres)
      as (Hu & Hv & names & nm & e & _ & _ & He & ->).
    destruct (@finalTable_loopState fuel s u Hwf) as (st & Hst & Et & _).
    rewrite <- Et in He. simpl.
    destruct (Hstate u st v Hst Hv) as [Hd Hn].
    unfold distanceOf in Hd. rewrite He in Hd. simpl in Hd.
    injection Hd as Hd. rewrite Hd. exact Hn.
Qed.

Lemma X12_no_distance_is_NaN_witness :
  (forall startNode st x,
      loopState (heap (storeOf infiniteDoc))
                (length (graphNodes (storeOf infiniteDoc)))
                (initialState (storeOf infiniteDoc) startNode) st ->
      In x (graphNodes (storeOf infiniteDoc)) ->
      exists d, distanceOf (lookupTable st) x = Some d /\ d <> NaN) /\
  (forall fuel a b r,
      snd (dijkstra fuel (storeOf infiniteDoc) a b) = Return r ->
      shortestDistance r <> NaN).
Proof.
  apply (X12_no_distance_is_NaN infiniteDoc (storeOf infiniteDoc)).
  reflexivity.
Defined.

Lemma dijkstra_never_throws_Error (s : Store) (a b : string) (u v : ref)
  (fuel : nat) (msg : string) :
  wf s ->
  findByName s a = Some u ->
  findByName s b = Some v ->
  snd (dijkstra fuel s a b) <> Throw (Error msg).
Proof.
  intros Hwf Ha Hb.
  destruct (findByName_some _ _ Ha) as [Hu _].
  destruct (findByName_some _ _ Hb) as [Hv _].
  unfold dijkstra. rewrite Ha, Hb.
  rewrite (findShortestPathBetween_unfold fuel s u v Hu Hv).
  pose proof (mainLoop_never_throws s u fuel (initialState s u) (Error msg) Hwf
                (loop_enter _ _ _)) as Hloop.
  rewrite (wf_length s Hwf).
  destruct (snd (mainLoop fuel (heap s) (length (heap s)) (initialState s u)))
    as [[]| |]; simpl; try congruence.
  pose proof (rewind_never_throws_Error fuel (heap s) (finalTable fuel s u) u
                (Some v) [] msg) as Hrew.
  destruct (rewind fuel (heap s) (finalTable fuel s u) u (Some v) [])
    as [names| |]; simpl; try congruence.
  destruct (getName (heap s) u); [|discriminate].
  destruct (entryOf (finalTable fuel s u) v); discriminate.
Qed.

(** X13.  A query on a loaded graph between two names that resolve never
    throws an error of the program: the empty-table error of
    [findNodeWithSmallestKnownDistance] and the not-represented error of
    [findShortestPathBetween] cannot occur. *)
Theorem X13_no_error_of_the_program
  (doc : XmlDocument) (s : Store) (a b : string) (u v : ref)
  (fuel : nat) (msg : string) :
  parseGraphMl doc = Return s ->
  findByName s a = Some u ->
  findByName s b = Some v ->
  snd (dijkstra fuel s a b) <> Throw (Error msg).
Proof.
  intros Hp Ha Hb.
  destruct (parseGraphMl_wf _ _ Hp) as [Hwf _].
  apply (dijkstra_never_throws_Error s a b u v fuel msg Hwf Ha Hb).
Qed.

Lemma X13_no_error_of_the_program_witness :
  snd (dijkstra 3 (storeOf isolatedDoc) "A" "C")
  <> Throw (Error msg_filtered_empty).
Proof.
  apply (X13_no_error_of_the_program isolatedDoc (storeOf isolatedDoc)
           "A" "C" 0 2 3 msg_filtered_empty); reflexivity.
Defined.

(** X14.  On a loaded graph [dijkstra] throws its not-contained error
    exactly when one of the two names is the identifier of no node tag,
    and it then leaves the graph as it was. *)
Theorem X14_unknown_names (g : GraphTag) (s : Store) (a b : string)
  (fuel : nat) :
  parseGraphMl (Some g) = Return s ->
  (snd (dijkstra fuel s a b) = Throw (Error msg_not_contained) <->
   ~ In a (nodes g) \/ ~ In b (nodes g)) /\
  (~ In a (nodes g) \/ ~ In b (nodes g) -> fst (dijkstra fuel s a b) = s).
Proof.
  intros Hp.
  destruct (parseGraphMl_loaded _ Hp) as (g' & E & Hl & _).
  injection E as <-.
  pose proof (findByName_loaded_none (nodes g) s a Hl) as Na.
  pose proof (findByName_loaded_none (nodes g) s b Hl) as Nb.
  split; [split|].
  - intros H.
    destruct (findByName s a) as [u|] eqn:Ea; [|left; apply Na; reflexivity].
    destruct (findByName s b) as [v|] eqn:Eb; [|right; apply Nb; reflexivity].
    exfalso. destruct (parseGraphMl_wf _ _ Hp) as [Hwf _].
    apply (dijkstra_never_throws_Error s a b u v fuel msg_not_contained
             Hwf Ea Eb).
    exact H.
  - intros [H|H]; unfold dijkstra.
    + apply Na in H. rewrite H. reflexivity.
    + apply Nb in H. rewrite H. destruct (findByName s a); reflexivity.
  - intros [H|H]; unfold dijkstra.
    + apply Na in H. rewrite H. reflexivity.
    + apply Nb in H. rewrite H. destruct (findByName s a); reflexivity.
Qed.

Lemma X14_unknown_names_witness :
  (snd (dijkstra 5 (storeOf scenario1) "A" "Z")
   = Throw (Error msg_not_contained) <->
   ~ In "A"%string ["A"; "B"; "C"; "D"; "E"]%string
   \/ ~ In "Z"%string ["A"; "B"; "C"; "D"; "E"]%string) /\
  (~ In "A"%string ["A"; "B"; "C"; "D"; "E"]%string
   \/ ~ In "Z"%string ["A"; "B"; "C"; "D"; "E"]%string ->
   fst (dijkstra 5 (storeOf scenario1) "A" "Z") = storeOf scenario1).
Proof.
  apply (X14_unknown_names
           (mkGraphTag ["A"; "B"; "C"; "D"; "E"]%string
                       [edgeTag "A" "B" 4; edgeTag "A" "C" 2; edgeTag "C" "B" 1;
                        edgeTag "B" "D" 5; edgeTag "C" "D" 8; edgeTag "D" "E" 3;
                        edgeTag "B" "E" 10])
           (storeOf scenario1) "A" "Z" 5).
  reflexivity.
Defined.

Lemma pathNodes_snoc (u : ref) (steps : list EdgeToNode) (e : EdgeToNode) :
  pathNodes u (steps ++ [e]) = pathNodes u steps ++ [targetNode e].
Proof.
  unfold pathNodes. rewrite map_app. reflexivity.
Qed.

(** The predecessors of the table of a loaded graph follow its edges. *)
Lemma relax1_prevEdge (h : list GraphNode) (n : nat) (u : ref)
  (t : list LookupTableEntry) (e : EdgeToNode) :
  u < n -> In e (edgesOf h u) ->
  prevEdge h n t -> prevEdge h n (relax1 u t e).
Proof.
  intros Hu He H x p Hx Hp. rewrite pOf_relax1 in Hp.
  destruct (Nat.eqb_spec x (targetNode e)) as [Ex|Hne]; simpl in Hp.
  - destruct (ltb (add (dOf t u) (weight e)) (dOf t (targetNode e))).
    + injection Hp as <-. split; [exact Hu|]. exists e. split; auto.
    + apply H; assumption.
  - apply H; assumption.
Qed.

Lemma fold_prevEdge (h : list GraphNode) (n : nat) (u : ref)
  (es : list EdgeToNode) (t : list LookupTableEntry) :
  u < n -> (forall e, In e es -> In e (edgesOf h u)) ->
  prevEdge h n t -> prevEdge h n (fold_left (relax1 u) es t).
Proof.
  intros Hu. revert t; induction es as [|e es IH]; intros t Hes H; simpl; auto.
  apply IH.
  - intros e' He'. apply Hes. simpl. auto.
  - apply relax1_prevEdge; auto. apply Hes. simpl. auto.
Qed.

Lemma loopState_prevEdge (s : Store) (startNode : ref) (st : LoopState) :
  wf s ->
  loopState (heap s) (length (heap s)) (initialState s startNode) st ->
  prevEdge (heap s) (length (heap s)) (lookupTable st).
Proof.
  intros Hwf Hst.
  induction Hst as [|st st' Hst IH Hlt Hbody].
  - intros x p _ Hp. simpl in Hp. rewrite pOf_init in Hp. discriminate.
  - destruct (loaded_turn s startNode st st' Hwf Hst Hlt Hbody)
      as (u & l1 & l2 & El & -> & _).
    pose proof (loaded_structInv Hwf Hst) as Hsi.
    simpl. apply fold_prevEdge; auto.
    apply (si_unvisited Hsi). rewrite El. apply in_elt.
Qed.

Section RewindWalk.
Variable h : list GraphNode.
Variable n : nat.
Variable startNode : ref.
Variable t : list LookupTableEntry.
Hypothesis Hlen : length h = n.
Hypothesis Hshape : tableShape n t.
Hypothesis Hprev : prevEdge h n t.

(** What the rewinding loop has collected when it returns, whatever
    the distances: the names of a walk from the start, in reverse. *)
Lemma rewind_walk (fuel : nat) (v : ref) (acc names : list string) :
  v < n ->
  rewind fuel h t startNode (Some v) acc = Return names ->
  exists steps added,
    names = acc ++ added /\
    isPath h startNode steps v /\
    map (getName h) (rev (map targetNode steps)) = map Some added.
Proof.
  revert v acc; induction fuel as [|fuel IH]; intros v acc Hv Hr.
  - simpl in Hr. destruct (Nat.eqb_spec v startNode) as [->|Hne];
      [|discriminate].
    injection Hr as <-. exists [], []. rewrite app_nil_r.
    repeat split; auto.
  - destruct (Nat.eq_dec v startNode) as [->|Hne].
    + rewrite rewind_start in Hr. injection Hr as <-.
      exists [], []. rewrite app_nil_r. repeat split; auto.
    + destruct (@rewind_step fuel h t n startNode v acc Hshape Hlen Hv Hne)
        as (nm & Hnm & Er).
      rewrite Er in Hr.
      destruct (pOf t v) as [p|] eqn:Ep;
        [|exfalso; eapply rewind_none; exact Hr].
      destruct (Hprev v p Hv Ep) as (Hp & e & He & Et).
      destruct (IH p (acc ++ [nm]) Hp Hr)
        as (steps & added & En & Hpath & Hnames).
      exists (steps ++ [e]), (nm :: added).
      rewrite <- app_assoc in En. simpl in En.
      split; [exact En|]. split.
      * apply (isPath_snoc h startNode p steps e Hpath He Et).
      * rewrite map_app, rev_app_distr. simpl.
        rewrite Et, Hnm, Hnames. reflexivity.
Qed.

(** Two runs of the rewinding loop from the same node collect the same
    number of names. *)
Lemma rewind_count (f1 f2 : nat) (v : ref) (acc1 acc2 names1 names2 : list string) :
  v < n ->
  rewind f1 h t startNode (Some v) acc1 = Return names1 ->
  rewind f2 h t startNode (Some v) acc2 = Return names2 ->
  length names1 + length acc2 = length names2 + length acc1.
Proof.
  revert f2 v acc1 acc2; induction f1 as [|f1 IH];
    intros f2 v acc1 acc2 Hv H1 H2.
  - simpl in H1. destruct (Nat.eqb_spec v startNode) as [->|Hne];
      [|discriminate].
    injection H1 as <-. rewrite rewind_start in H2. injection H2 as <-. lia.
  - destruct (Nat.eq_dec v startNode) as [->|Hne].
    + rewrite rewind_start in H1, H2.
      injection H1 as <-. injection H2 as <-. lia.
    + destruct f2 as [|f2].
      { simpl in H2. destruct (Nat.eqb_spec v startNode);
          [contradiction | discriminate]. }
      destruct (@rewind_step f1 h t n startNode v acc1 Hshape Hlen Hv Hne)
        as (nm & Hnm & E1).
      destruct (@rewind_step f2 h t n startNode v acc2 Hshape Hlen Hv Hne)
        as (nm' & Hnm' & E2).
      rewrite E1 in H1. rewrite E2 in H2.
      destruct (pOf t v) as [p|] eqn:Ep;
        [|exfalso; eapply rewind_none; exact H1].
      destruct (Hprev v p Hv Ep) as (Hp & _).
      pose proof (IH f2 p _ _ Hp H1 H2) as Hc.
      rewrite !length_app in Hc. simpl in Hc. lia.
Qed.

(** The walk that the rewinding loop has followed when it returns
    passes through no node twice: from a node met twice the loop would
    go round for ever. *)
Lemma rewind_walk_simple (fuel : nat) (v : ref) (acc names : list string) :
  startNode < n -> v < n ->
  rewind fuel h t startNode (Some v) acc = Return names ->
  exists steps added,
    names = acc ++ added /\
    isPath h startNode steps v /\
    map (getName h) (rev (map targetNode steps)) = map Some added /\
    NoDup (pathNodes startNode steps) /\
    forall y, In y (pathNodes startNode steps) ->
              y < n /\
              exists f' acc' names',
                rewind f' h t startNode (Some y) acc' = Return names' /\
                length names' <= length acc' + length steps.
Proof.
  intros Hstart.
  revert v acc; induction fuel as [|fuel IH]; intros v acc Hv Hr.
  - simpl in Hr. destruct (Nat.eqb_spec v startNode) as [->|Hne];
      [|discriminate].
    injection Hr as <-. exists [], []. rewrite app_nil_r.
    split; [reflexivity|]. split; [reflexivity|]. split; [reflexivity|].
    split; [constructor; [intros [] | constructor]|].
    intros y [<-|[]]. split; [exact Hstart|].
    exists 0, [], []. split; [apply rewind_start | simpl; lia].
  - destruct (Nat.eq_dec v startNode) as [->|Hne].
    + rewrite rewind_start in Hr. injection Hr as <-.
      exists [], []. rewrite app_nil_r.
      split; [reflexivity|]. split; [reflexivity|]. split; [reflexivity|].
      split; [constructor; [intros [] | constructor]|].
      intros y [<-|[]]. split; [exact Hstart|].
      exists 0, [], []. split; [apply rewind_start | simpl; lia].
    + pose proof Hr as Hr0.
      destruct (@rewind_step fuel h t n startNode v acc Hshape Hlen Hv Hne)
        as (nm & Hnm & Er).
      rewrite Er in Hr.
      destruct (pOf t v) as [p|] eqn:Ep;
        [|exfalso; eapply rewind_none; exact Hr].
      destruct (Hprev v p Hv Ep) as (Hp & e & He & Et).
      destruct (IH p (acc ++ [nm]) Hp Hr)
        as (steps & added & En & Hpath & Hnames & Hnd & Hall).
      rewrite <- app_assoc in En. simpl in En.
      assert (Hadded : length added = length steps).
      { apply (f_equal (@length (option string))) in Hnames.
        rewrite !length_map, length_rev, length_map in Hnames. lia. }
      assert (Hlong : length names = length acc + S (length steps)).
      { rewrite En, length_app. simpl. lia. }
      exists (steps ++ [e]), (nm :: added).
      split; [exact En|]. split.
      { apply (isPath_snoc h startNode p steps e Hpath He Et). }
      split.
      { rewrite map_app, rev_app_distr. simpl.
        rewrite Et, Hnm, Hnames. reflexivity. }
      assert (Enodes : pathNodes startNode (steps ++ [e])
                       = pathNodes startNode steps ++ [v]).
      { unfold pathNodes. rewrite map_app. simpl. rewrite Et. reflexivity. }
      rewrite Enodes.
      split.
      * apply NoDup_add_last; [exact Hnd|]. intros Hin.
        destruct (Hall v Hin) as (_ & f' & acc' & names' & Hr' & Hle).
        pose proof (rewind_count (S fuel) f' v acc acc' names names'
                      Hv Hr0 Hr') as Hc.
        lia.
      * intros y Hy. apply in_app_or in Hy. destruct Hy as [Hy|[<-|[]]].
        -- destruct (Hall y Hy) as (Hyn & f' & acc' & names' & Hr' & Hle).
           split; [exact Hyn|]. exists f', acc', names'.
           split; [exact Hr'|]. rewrite length_app. simpl. lia.
        -- split; [exact Hv|]. exists (S fuel), acc, names.
           split; [exact Hr0|]. rewrite length_app. simpl. lia.
Qed.
End RewindWalk.

(** What a query has followed when it returns, whatever the weights. *)
Lemma returned_walk (fuel : nat) (s : Store) (u v : ref) (r : ShortestPath) :
  wf s ->
  snd (findShortestPathBetween fuel s u v) = Return r ->
  u < length (heap s) /\ v < length (heap s) /\
  exists steps,
    isPath (heap s) u steps v /\
    map (getName (heap s)) (pathNodes u steps) = map Some (nodeNames r) /\
    NoDup (pathNodes u steps) /\
    (forall y, In y (pathNodes u steps) -> y < length (heap s)).
Proof.
  intros Hwf Hres.
  destruct (@findShortestPathBetween_result fuel s u v r Hwf Hres)
    as (Hu & Hv & pathNames & startName & e & Hrew & Hname & He & ->).
  destruct (@finalTable_loopState fuel s u Hwf) as (st & Hst & Et & _).
  pose proof (loaded_structInv Hwf Hst) as Hsi.
  rewrite <- Et in *.
  destruct (rewind_walk_simple (heap s) (length (heap s)) u (lookupTable st)
              eq_refl (si_shape Hsi) (loopState_prevEdge s u st Hwf Hst)
              fuel v [] pathNames Hu Hv Hrew)
    as (steps & added & En & Hpath & Hnames & Hnd & Hall).
  simpl in En. subst pathNames.
  split; auto. split; auto. exists steps.
  split; [exact Hpath|]. split; [|split; [exact Hnd|]].
  - simpl. rewrite rev_app_distr. simpl. rewrite Hname. f_equal.
    rewrite <- (rev_involutive (map targetNode steps)).
    rewrite map_rev, Hnames, <- map_rev. reflexivity.
  - intros y Hy. apply (Hall y Hy).
Qed.

(** X15.  Over strictly positive integer weights so small that no sum
    of the query rounds (twice the weights of all adjacency records
    stay below [2^53]), the distance that a query on a loaded graph
    returns is the least weight of a walk from the start node to the
    target node: it is the exact sum of the weights of the walk whose
    names the query returns, no walk between the two nodes weighs less,
    and it is not negative. *)
Theorem X15_returned_distance_is_least
  (doc : XmlDocument) (s : Store) (a b : string) (fuel : nat)
  (r : ShortestPath) :
  parseGraphMl doc = Return s ->
  positiveWeights (heap s) ->
  smallWeights (heap s) ->
  snd (dijkstra fuel s a b) = Return r ->
  exists u v steps,
    findByName s a = Some u /\ findByName s b = Some v /\
    isPath (heap s) u steps v /\
    map (getName (heap s)) (pathNodes u steps) = map Some (nodeNames r) /\
    shortestDistance r = Fin (walkSum steps) /\
    (forall steps', isPath (heap s) u steps' v ->
                    (walkSum steps <= walkSum steps')%Z) /\
    (0 <= walkSum steps)%Z.
Proof.
  intros Hp Hpos Hsmall Hr.
  destruct (parseGraphMl_wf _ _ Hp) as [Hwf _].
  destruct (@dijkstra_result fuel s a b r Hr) as (u & v & Ha & Hb & Hres).
  destruct (small_positive_result fuel s u v r Hwf Hpos Hsmall Hres)
    as (_ & _ & steps & P & D & N & L).
  exists u, v, steps.
  split; [exact Ha|]. split; [exact Hb|]. split; [exact P|].
  split; [exact N|]. split; [exact D|]. split; [exact L|].
  apply (walkSum_nonneg (heap s) steps u v Hpos P).
Qed.

Lemma X15_returned_distance_is_least_witness :
  exists u v steps,
    findByName (storeOf scenario1) "A" = Some u /\
    findByName (storeOf scenario1) "E" = Some v /\
    isPath (heap (storeOf scenario1)) u steps v /\
    map (getName (heap (storeOf scenario1))) (pathNodes u steps)
    = map Some ["A"; "C"; "B"; "D"; "E"]%string /\
    Fin 11 = Fin (walkSum steps) /\
    (forall steps', isPath (heap (storeOf scenario1)) u steps' v ->
                    (walkSum steps <= walkSum steps')%Z) /\
    (0 <= walkSum steps)%Z.
Proof.
  apply (X15_returned_distance_is_least scenario1 (storeOf scenario1)
           "A" "E" 5
           (mkShortestPath ["A"; "C"; "B"; "D"; "E"]%string (Fin 11))
           eq_refl scenario1_positive scenario1_small eq_refl).
Defined.

(** A target that no walk from the start reaches makes the query throw
    the [TypeError], whatever the weights. *)
Lemma unreachable_TypeError (s : Store) (u v : ref) (fuel : nat) :
  wf s -> 2 <= length (heap s) ->
  u < length (heap s) -> v < length (heap s) ->
  length (heap s) <= fuel ->
  ~ reachable (heap s) u v ->
  snd (findShortestPathBetween fuel s u v) = Throw TypeError.
Proof.
  intros Hwf Hn Hu Hv Hfuel Hnr.
  destruct (@findShortestPathBetween_loaded s u v fuel Hwf Hu Hv Hfuel)
    as (st & Hst & _ & _ & _ & E).
  rewrite E. simpl.
  pose proof (loaded_structInv Hwf Hst) as Hsi.
  pose proof (loaded_genInv Hwf Hu Hst) as Hgi.
  assert (Hd : dOf (lookupTable st) v = Infinity).
  { destruct (dOf (lookupTable st) v) eqn:Ed; auto;
      exfalso; apply Hnr; apply (gi_reach Hgi Hv); rewrite Ed; discriminate. }
  assert (Hne : v <> u).
  { intros ->. apply (gi_start Hgi). exact Hd. }
  destruct fuel as [|[|fuel]]; try lia.
  destruct (@rewind_step (S fuel) (heap s) (lookupTable st) (length (heap s))
              u v [] (si_shape Hsi) eq_refl Hv Hne) as (nm & _ & Er).
  rewrite Er, (gi_inf_noprev Hgi Hv Hd). reflexivity.
Qed.

(** X16.  Over strictly positive integer weights so small that no sum
    of the query rounds or overflows, and with fuel for every node, a
    query on a loaded graph returns exactly when a walk joins the start
    node to the target node, and throws the [TypeError] exactly when no
    walk does. *)
Theorem X16_query_returns_iff_reachable
  (doc : XmlDocument) (s : Store) (a b : string) (u v : ref) (fuel : nat) :
  parseGraphMl doc = Return s ->
  positiveWeights (heap s) ->
  smallWeights (heap s) ->
  findByName s a = Some u ->
  findByName s b = Some v ->
  length (graphNodes s) <= fuel ->
  ((exists r, snd (dijkstra fuel s a b) = Return r) <->
   reachable (heap s) u v) /\
  (snd (dijkstra fuel s a b) = Throw TypeError <->
   ~ reachable (heap s) u v).
Proof.
  intros Hp Hpos Hsmall Ha Hb Hfuel.
  destruct (parseGraphMl_loaded _ Hp) as (g & _ & Hl & Hn2 & _).
  pose proof (loaded_length Hl) as Hn.
  destruct (parseGraphMl_wf _ _ Hp) as [Hwf _].
  destruct (findByName_lt _ _ _ Hwf Ha) as [Hu _].
  destruct (findByName_lt _ _ _ Hwf Hb) as [Hv _].
  rewrite (wf_length s Hwf) in Hfuel.
  unfold dijkstra. rewrite Ha, Hb.
  assert (Hret : reachable (heap s) u v ->
                 exists r, snd (findShortestPathBetween fuel s u v) = Return r).
  { intros Hre.
    apply (small_positive_returns fuel s u v Hwf Hpos Hsmall Hu Hv Hre Hfuel). }
  split; split.
  - intros [r Hr].
    destruct (returned_walk fuel s u v r Hwf Hr)
      as (_ & _ & steps & Hpath & _).
    exists steps. exact Hpath.
  - exact Hret.
  - intros Ht Hre. destruct (Hret Hre) as [r Hr]. congruence.
  - intros Hnr. apply unreachable_TypeError; auto. lia.
Qed.

Lemma X16_query_returns_iff_reachable_witness :
  ((exists r, snd (dijkstra 5 (storeOf scenario1) "A" "E") = Return r) <->
   reachable (heap (storeOf scenario1)) 0 4) /\
  (snd (dijkstra 5 (storeOf scenario1) "A" "E") = Throw TypeError <->
   ~ reachable (heap (storeOf scenario1)) 0 4).
Proof.
  apply (X16_query_returns_iff_reachable scenario1 (storeOf scenario1)
           "A" "E" 0 4 5 eq_refl scenario1_positive scenario1_small
           eq_refl eq_refl).
  simpl. lia.
Defined.

(** X17.  Over strictly positive weights the names that a query on a
    loaded graph returns are the names of a walk that passes through no
    node twice; there are at most as many names as the graph has
    nodes. *)
Theorem X17_returned_path_is_simple
  (doc : XmlDocument) (s : Store) (a b : string) (fuel : nat)
  (r : ShortestPath) :
  parseGraphMl doc = Return s ->
  positiveWeights (heap s) ->
  snd (dijkstra fuel s a b) = Return r ->
  exists u v steps,
    findByName s a = Some u /\ findByName s b = Some v /\
    isPath (heap s) u steps v /\
    map (getName (heap s)) (pathNodes u steps) = map Some (nodeNames r) /\
    NoDup (pathNodes u steps) /\
    length (nodeNames r) <= length (graphNodes s).
Proof.
  intros Hp Hpos Hr.
  destruct (parseGraphMl_wf _ _ Hp) as [Hwf _].
  destruct (@dijkstra_result fuel s a b r Hr) as (u & v & Ha & Hb & Hres).
  destruct (returned_walk fuel s u v r Hwf Hres)
    as (Hu & Hv & steps & Hpath & Hnames & Hnd & Hall).
  exists u, v, steps. repeat split; auto.
  assert (Hle : length (pathNodes u steps) <= length (seq 0 (length (heap s)))).
  { apply NoDup_incl_length; auto.
    intros y Hy. apply in_seq. specialize (Hall y Hy). lia. }
  rewrite length_seq in Hle.
  apply (f_equal (@length (option string))) in Hnames.
  rewrite !length_map in Hnames.
  rewrite (wf_length s Hwf), <- Hnames. exact Hle.
Qed.

Lemma X17_returned_path_is_simple_witness :
  exists u v steps,
    findByName (storeOf scenario1) "A" = Some u /\
    findByName (storeOf scenario1) "E" = Some v /\
    isPath (heap (storeOf scenario1)) u steps v /\
    map (getName (heap (storeOf scenario1))) (pathNodes u steps)
    = map Some ["A"; "C"; "B"; "D"; "E"]%string /\
    NoDup (pathNodes u steps) /\
    length ["A"; "C"; "B"; "D"; "E"]%string
    <= length (graphNodes (storeOf scenario1)).
Proof.
  apply (X17_returned_path_is_simple scenario1 (storeOf scenario1)
           "A" "E" 5
           (mkShortestPath ["A"; "C"; "B"; "D"; "E"]%string (Fin 11))
           eq_refl scenario1_positive eq_refl).
Defined.

(** On predecessors that lead around without meeting the start node the
    rewinding loop never ends. *)
Lemma rewind_on_cycle (h : list GraphNode) (t : list LookupTableEntry)
  (n : nat) (startNode : ref) (C : list ref) :
  tableShape n t -> length h = n ->
  (forall x, In x C ->
             x < n /\ x <> startNode /\ exists y, In y C /\ pOf t x = Some y) ->
  forall fuel x acc,
    In x C -> rewind fuel h t startNode (Some x) acc = OutOfFuel.
Proof.
  intros Hs Hlen HC. induction fuel as [|fuel IH]; intros x acc Hx.
  - destruct (HC x Hx) as (_ & Hne & _). simpl.
    destruct (Nat.eqb_spec x startNode); [contradiction | reflexivity].
  - destruct (HC x Hx) as (Hxn & Hne & y & Hy & Ep).
    destruct (@rewind_step fuel h t n startNode x acc Hs Hlen Hxn Hne)
      as (nm & _ & Er).
    rewrite Er, Ep. apply IH. exact Hy.
Qed.

(** The table that the main loop leaves does not depend on the fuel
    with which it ran to its end. *)
Lemma finalTable_stable (s : Store) (u : ref) (fuel : nat) :
  wf s ->
  snd (mainLoop fuel (heap s) (length (graphNodes s)) (initialState s u))
  = Return tt ->
  finalTable fuel s u = finalTable (length (graphNodes s)) s u.
Proof.
  intros Hwf Hr. unfold finalTable.
  destruct (loaded_mainLoop s u (length (graphNodes s)) Hwf (le_n _))
    as (st0 & E0 & _).
  destruct (mainLoop fuel (heap s) (length (graphNodes s)) (initialState s u))
    as [st r0] eqn:E.
  simpl in Hr. subst r0.
  pose proof (@mainLoop_more_fuel fuel (length (graphNodes s)) _ _ _ _ E) as M1.
  pose proof (@mainLoop_more_fuel (length (graphNodes s)) fuel _ _ _ _ E0) as M2.
  rewrite Nat.add_comm in M2. rewrite M1 in M2. injection M2 as <-.
  rewrite E0. reflexivity.
Qed.

(** On predecessors that lead around a set of nodes without the start
    node, the rewinding loop of the query is still going round when the
    fuel of the model is spent, whatever the fuel. *)
Lemma predecessor_cycle_runs_on
  (doc : XmlDocument) (s : Store) (a b : string) (u v : ref)
  (C : list ref) :
  parseGraphMl doc = Return s ->
  findByName s a = Some u ->
  findByName s b = Some v ->
  In v C ->
  (forall x, In x C ->
             x <> u /\ In x (graphNodes s) /\
             exists y, In y C /\
                       previousOf (finalTable (length (graphNodes s)) s u) x
                       = Some y) ->
  forall fuel, snd (dijkstra fuel s a b) = OutOfFuel.
Proof.
  intros Hp Ha Hb HvC HC fuel.
  destruct (parseGraphMl_wf _ _ Hp) as [Hwf _].
  destruct (findByName_some _ _ Ha) as [Hu _].
  destruct (findByName_some _ _ Hb) as [Hv _].
  unfold dijkstra. rewrite Ha, Hb.
  rewrite (findShortestPathBetween_unfold fuel s u v Hu Hv).
  pose proof (mainLoop_never_throws s u fuel (initialState s u)) as Hloop.
  rewrite <- (wf_length s Hwf) in Hloop.
  destruct (snd (mainLoop fuel (heap s) (length (graphNodes s))
                          (initialState s u))) as [[]|e|] eqn:Er.
  - simpl. rewrite (finalTable_stable s u fuel Hwf Er).
    destruct (@finalTable_loopState (length (graphNodes s)) s u Hwf)
      as (st & Hst & Et & _).
    pose proof (loaded_structInv Hwf Hst) as Hsi.
    rewrite <- Et in *.
    rewrite (@rewind_on_cycle (heap s) (lookupTable st) (length (heap s)) u C
               (si_shape Hsi) eq_refl); auto.
    intros x Hx. destruct (HC x Hx) as (Hne & Hin & y & Hy & Ep).
    apply (wf_In x Hwf) in Hin.
    rewrite (previousOf_shape (si_shape Hsi) Hin) in Ep. eauto.
  - exfalso. apply (Hloop e Hwf (loop_enter _ _ _)). reflexivity.
  - reflexivity.
Qed.

(** X18.  When the table that the main loop leaves makes the
    predecessors of the target lead around a set of nodes that does not
    hold the start node, the query never returns a path: the rewinding
    loop goes round those nodes, pushing their names, and ends neither
    by reaching the start node nor by the [TypeError] nor by an error
    of the program. *)
Theorem X18_predecessor_cycle_never_returns
  (doc : XmlDocument) (s : Store) (a b : string) (u v : ref)
  (C : list ref) :
  parseGraphMl doc = Return s ->
  findByName s a = Some u ->
  findByName s b = Some v ->
  In v C ->
  (forall x, In x C ->
             x <> u /\ In x (graphNodes s) /\
             exists y, In y C /\
                       previousOf (finalTable (length (graphNodes s)) s u) x
                       = Some y) ->
  forall fuel,
    (forall r, snd (dijkstra fuel s a b) <> Return r) /\
    snd (dijkstra fuel s a b) <> Throw TypeError /\
    (forall msg, snd (dijkstra fuel s a b) <> Throw (Error msg)).
Proof.
  intros Hp Ha Hb HvC HC fuel.
  rewrite (predecessor_cycle_runs_on doc s a b u v C Hp Ha Hb HvC HC fuel).
  split; [intros r; discriminate|]. split; [discriminate|].
  intros msg; discriminate.
Qed.

Lemma X18_predecessor_cycle_never_returns_witness :
  (forall r, snd (dijkstra 1000 (storeOf cycleDoc) "S" "X") <> Return r) /\
  snd (dijkstra 1000 (storeOf cycleDoc) "S" "X") <> Throw TypeError /\
  (forall msg,
      snd (dijkstra 1000 (storeOf cycleDoc) "S" "X") <> Throw (Error msg)).
Proof.
  assert (H : In 1 [1; 2] /\
              forall x, In x [1; 2] ->
                x <> 0 /\ In x (graphNodes (storeOf cycleDoc)) /\
                exists y, In y [1; 2] /\
                          previousOf (finalTable
                                        (length (graphNodes (storeOf cycleDoc)))
                                        (storeOf cycleDoc) 0) x
                          = Some y).
  { split; [simpl; auto|].
    intros x [<-|[<-|[]]].
    - split; [discriminate|]. split; [simpl; auto|].
      exists 2. split; [simpl; auto | reflexivity].
    - split; [discriminate|]. split; [simpl; auto|].
      exists 1. split; [simpl; auto | reflexivity]. }
  destruct H as [H1 H2].
  apply (X18_predecessor_cycle_never_returns cycleDoc (storeOf cycleDoc)
           "S" "X" 0 1 [1; 2] eq_refl eq_refl eq_refl H1 H2 1000).
Defined.

(** Over positive weights a turn of the main loop leaves the entries of
    the visited nodes and of the selected node as they were. *)
Lemma turn_freezes_visited (h : list GraphNode) (n : nat) (startNode : ref)
  (st : LoopState) (u : ref) (l1 l2 : list ref) :
  positiveWeights h ->
  structInv n st -> posInv h startNode n st ->
  unvisited st = l1 ++ u :: l2 ->
  dOf (fold_left (relax1 u) (edgesOf h u) (lookupTable st)) u
  = dOf (lookupTable st) u /\
  forall v, In v (visited st) ->
            dOf (fold_left (relax1 u) (edgesOf h u) (lookupTable st)) v
            = dOf (lookupTable st) v.
Proof.
  intros Hpos Hsi Hpi El.
  assert (Hu : In u (unvisited st)) by (rewrite El; apply in_elt).
  assert (Hun : u < n) by (apply (si_unvisited Hsi); exact Hu).
  assert (Hdu : nonneg (dOf (lookupTable st) u))
    by (apply (pi_nonneg Hpi); exact Hun).
  destruct (@relax_fold_pos u (dOf (lookupTable st) u) Hdu (edgesOf h u)
              (lookupTable st) (Hpos u) eq_refl) as (Hd & Hx & _).
  split; [exact Hd|].
  intros v Hv. destruct (Hx v) as [[E _]|(L & _ & e & He & _ & Ed)]; auto.
  destruct (Hpos u e He) as (z & Ez & Hz). rewrite Ed, Ez in L.
  destruct (@add_pos_less_inv _ _ _ Hdu Hz L) as (a & _ & _ & L2 & _).
  rewrite (pi_order Hpi v u Hv Hu) in L2. discriminate.
Qed.

Lemma byDistance_snoc (n : nat) (t t' : list LookupTableEntry)
  (l : list ref) (u : ref) :
  tableShape n t -> tableShape n t' ->
  (forall a, In a l -> a < n) -> u < n ->
  (forall x, x < n -> dOf t' x <> NaN) ->
  (forall a, In a l -> dOf t' a = dOf t a) ->
  (forall a, In a l -> ltb (dOf t' u) (dOf t' a) = false) ->
  byDistance t l -> byDistance t' (l ++ [u]).
Proof.
  intros Hs Hs' Hl Hu Hnan Hfr Hle.
  induction l as [|a l IH]; intros Hby; simpl.
  - split; auto. intros b da db [].
  - destruct Hby as [Hhead Htail].
    assert (Ha : a < n) by (apply Hl; simpl; auto).
    split.
    + intros b da db Hb Eda Edb.
      rewrite (distanceOf_shape Hs' Ha) in Eda. injection Eda as <-.
      apply in_app_or in Hb. destruct Hb as [Hb|[<-|[]]].
      * assert (Hbn : b < n) by (apply Hl; simpl; auto).
        rewrite (distanceOf_shape Hs' Hbn) in Edb. injection Edb as <-.
        split; [apply Hnan; exact Hbn|]. split; [apply Hnan; exact Ha|].
        rewrite (Hfr a), (Hfr b) by (simpl; auto).
        apply (Hhead b (dOf t a) (dOf t b) Hb
                 (distanceOf_shape Hs Ha) (distanceOf_shape Hs Hbn)).
      * rewrite (distanceOf_shape Hs' Hu) in Edb. injection Edb as <-.
        split; [apply Hnan; exact Hu|]. split; [apply Hnan; exact Ha|].
        apply Hle. simpl. auto.
    + apply IH; auto.
      * intros x Hx. apply Hl. simpl. auto.
      * intros x Hx. apply Hfr. simpl. auto.
      * intros x Hx. apply Hle. simpl. auto.
Qed.

(** X19.  Over strictly positive weights the main loop of a query on a
    loaded graph visits the nodes by non-decreasing distance: in every
    state of the loop, no visited node has a smaller distance than a
    node visited before it. *)
Theorem X19_nodes_are_visited_by_distance
  (doc : XmlDocument) (s : Store) (a : string) (startNode : ref)
  (st : LoopState) :
  parseGraphMl doc = Return s ->
  positiveWeights (heap s) ->
  findByName s a = Some startNode ->
  loopState (heap s) (length (graphNodes s)) (initialState s startNode) st ->
  byDistance (lookupTable st) (visited st).
Proof.
  intros Hp Hpos Ha Hst.
  destruct (parseGraphMl_wf _ _ Hp) as [Hwf _].
  destruct (findByName_lt _ _ _ Hwf Ha) as [Hu _].
  rewrite (wf_length s Hwf) in Hst.
  induction Hst as [|st st' Hst IH Hlt Hbody]; [exact I|].
  pose proof (loop_turn Hst Hlt Hbody) as Hst'.
  destruct (loaded_turn s startNode st st' Hwf Hst Hlt Hbody)
    as (u & l1 & l2 & El & -> & _ & Hmin).
  pose proof (loaded_structInv Hwf Hst) as Hsi.
  pose proof (loaded_structInv Hwf Hst') as Hsi'.
  pose proof (loaded_posInv Hwf Hu Hst Hpos) as Hpi.
  destruct (turn_freezes_visited (heap s) (length (heap s)) startNode st u
              l1 l2 Hpos Hsi Hpi El) as (Hdu & Hfr).
  assert (Hin : In u (unvisited st)) by (rewrite El; apply in_elt).
  simpl in *.
  apply (byDistance_snoc (length (heap s)) (lookupTable st)); auto.
  - apply (si_shape Hsi).
  - apply (si_shape Hsi').
  - intros x Hx. apply (si_visited Hsi). exact Hx.
  - apply (si_unvisited Hsi). exact Hin.
  - apply (si_nan Hsi').
  - intros x Hx. rewrite Hdu, (Hfr x Hx).
    apply (pi_order Hpi x u Hx Hin).
Qed.

Lemma X19_nodes_are_visited_by_distance_witness :
  byDistance
    (lookupTable
       (fst (mainLoop 6 (heap (storeOf scenario1))
                      (length (graphNodes (storeOf scenario1)))
                      (initialState (storeOf scenario1) 0))))
    (visited
       (fst (mainLoop 6 (heap (storeOf scenario1))
                      (length (graphNodes (storeOf scenario1)))
                      (initialState (storeOf scenario1) 0)))).
Proof.
  apply (X19_nodes_are_visited_by_distance scenario1 (storeOf scenario1)
           "A" 0 _ eq_refl scenario1_positive eq_refl).
  apply (@mainLoop_loopState (heap (storeOf scenario1))
           (length (graphNodes (storeOf scenario1)))
           (initialState (storeOf scenario1) 0) 6
           (initialState (storeOf scenario1) 0)).
  apply loop_enter.
Defined.

(* ================================================================== *)
(** ** Further properties of the engine, whatever the weights *)

(** What a pass over the edges of a node does to the entry of a node:
    nothing, or it lowers the distance and names the node as
    predecessor. *)
Lemma fold_relax1_lowers (u : ref) (es : list EdgeToNode)
  (t : list LookupTableEntry) (x : nat) :
  (dOf (fold_left (relax1 u) es t) x = dOf t x /\
   pOf (fold_left (relax1 u) es t) x = pOf t x)
  \/ (ltb (dOf (fold_left (relax1 u) es t) x) (dOf t x) = true /\
      pOf (fold_left (relax1 u) es t) x = Some u /\
      exists e, In e es /\ targetNode e = x).
Proof.
  revert t; induction es as [|e es IH]; intros t; simpl; [left; auto|].
  destruct (IH (relax1 u t e)) as [[Ed Ep]|(L & Ep & e' & He' & Et)];
    destruct (relax1_cases u t e x) as [[Ed1 Ep1]|(Ex & L1 & Ed1 & Ep1)].
  - left. split; congruence.
  - right. split; [|split].
    + rewrite Ed, Ed1. exact L1.
    + congruence.
    + exists e. split; simpl; auto.
  - right. split; [|split].
    + rewrite <- Ed1. exact L.
    + exact Ep.
    + exists e'. split; simpl; auto.
  - right. split; [|split].
    + apply (ltb_trans _ (dOf (relax1 u t e) x)); auto.
      rewrite Ed1. exact L1.
    + exact Ep.
    + exists e'. split; simpl; auto.
Qed.

(** X21.  On a loaded graph [checkNeighboringNodes] never fails and
    never raises a distance: the entry of a node either stays as it
    was, or the node is the target of an edge of the checked node, its
    distance gets strictly smaller and the checked node becomes its
    predecessor. *)
Theorem X21_checking_neighbours_only_lowers
  (doc : XmlDocument) (s : Store) (startNode : ref) (st : LoopState)
  (u : ref) :
  parseGraphMl doc = Return s ->
  loopState (heap s) (length (graphNodes s)) (initialState s startNode) st ->
  In u (graphNodes s) ->
  exists t',
    checkNeighboringNodes (heap s) (lookupTable st) u = Return t' /\
    forall x, In x (graphNodes s) ->
      (distanceOf t' x = distanceOf (lookupTable st) x /\
       previousOf t' x = previousOf (lookupTable st) x)
      \/ (exists d d' e,
             distanceOf (lookupTable st) x = Some d /\
             distanceOf t' x = Some d' /\
             ltb d' d = true /\
             previousOf t' x = Some u /\
             In e (edgesOf (heap s) u) /\ targetNode e = x).
Proof.
  intros Hp Hst Hu.
  destruct (parseGraphMl_wf _ _ Hp) as [Hwf _].
  rewrite (wf_length s Hwf) in Hst.
  pose proof (loaded_structInv Hwf Hst) as Hsi.
  apply (wf_In u Hwf) in Hu.
  pose proof (si_shape Hsi) as Hs.
  pose proof (@fold_relax1_shape (length (heap s)) u (edgesOf (heap s) u)
                (lookupTable st) Hs) as Hs'.
  exists (fold_left (relax1 u) (edgesOf (heap s) u) (lookupTable st)).
  split.
  - destruct Hwf as [Hg Ht].
    apply (@checkNeighboringNodes_spec (heap s) (length (heap s)) eq_refl Ht
             (lookupTable st) u Hs Hu).
  - intros x Hx. apply (wf_In x Hwf) in Hx.
    rewrite (distanceOf_shape Hs Hx), (distanceOf_shape Hs' Hx),
      (previousOf_shape Hs Hx), (previousOf_shape Hs' Hx).
    destruct (fold_relax1_lowers u (edgesOf (heap s) u) (lookupTable st) x)
      as [[Ed Ep]|(L & Ep & e & He & Et)].
    + left. split; congruence.
    + right. exists (dOf (lookupTable st) x),
        (dOf (fold_left (relax1 u) (edgesOf (heap s) u) (lookupTable st)) x), e.
      repeat split; auto.
Qed.

Lemma X21_checking_neighbours_only_lowers_witness :
  exists t',
    checkNeighboringNodes (heap (storeOf scenario1))
      (lookupTable (initialState (storeOf scenario1) 0)) 0 = Return t' /\
    forall x, In x (graphNodes (storeOf scenario1)) ->
      (distanceOf t' x
       = distanceOf (lookupTable (initialState (storeOf scenario1) 0)) x /\
       previousOf t' x
       = previousOf (lookupTable (initialState (storeOf scenario1) 0)) x)
      \/ (exists d d' e,
             distanceOf (lookupTable (initialState (storeOf scenario1) 0)) x
             = Some d /\
             distanceOf t' x = Some d' /\
             ltb d' d = true /\
             previousOf t' x = Some 0 /\
             In e (edgesOf (heap (storeOf scenario1)) 0) /\ targetNode e = x).
Proof.
  apply (X21_checking_neighbours_only_lowers scenario1 (storeOf scenario1) 0
           (initialState (storeOf scenario1) 0) 0 eq_refl).
  - apply loop_enter.
  - simpl. auto.
Defined.

(** The scan of the selection on any entries: it ends on one of them
    that none of them beats. *)
Lemma ltb_below (e a m : number) :
  ltb e a = false -> ltb m a = true -> ltb e m = false.
Proof. intros; num_cases. Qed.

Lemma smaller_scan_any (l : list LookupTableEntry) (a : LookupTableEntry) :
  In (fold_left smaller l a) (a :: l) /\
  (fold_left smaller l a = a \/
   ltb (shortestDistanceToTargetNode (fold_left smaller l a))
       (shortestDistanceToTargetNode a) = true) /\
  forall e, In e l ->
            ltb (shortestDistanceToTargetNode e)
                (shortestDistanceToTargetNode (fold_left smaller l a)) = false.
Proof.
  revert a; induction l as [|e l IH]; intros a.
  - simpl. split; [auto|]. split; [auto|]. intros e [].
  - cbn [fold_left].
    change (smaller a e)
      with (if ltb (shortestDistanceToTargetNode e)
                   (shortestDistanceToTargetNode a) then e else a).
    destruct (ltb (shortestDistanceToTargetNode e)
                  (shortestDistanceToTargetNode a)) eqn:L.
    + destruct (IH e) as (Hin & Hm & Hall).
      split; [right; exact Hin|]. split.
      * right. destruct Hm as [->|Hm]; [exact L|].
        apply (ltb_trans _ _ _ Hm L).
      * intros e' [<-|He']; [|apply Hall; exact He'].
        destruct Hm as [->|Hm]; [apply ltb_irrefl | apply ltb_asym; exact Hm].
    + destruct (IH a) as (Hin & Hm & Hall).
      split; [|split].
      * destruct Hin as [Hin|Hin]; [left; exact Hin | right; right; exact Hin].
      * exact Hm.
      * intros e' [<-|He']; [|apply Hall; exact He'].
        destruct Hm as [->|Hm]; [exact L|].
        apply (ltb_below _ _ _ L Hm).
Qed.

(** X22.  On any table and any list of nodes
    [findNodeWithSmallestKnownDistance] throws its error exactly when
    no entry of the table is the entry of a listed node; otherwise it
    returns the node of such an entry, and no such entry has a smaller
    distance. *)
Theorem X22_selection_on_any_table
  (t : list LookupTableEntry) (unv : list ref) :
  (findNodeWithSmallestKnownDistance t unv = Throw (Error msg_filtered_empty)
   <-> forall e, In e t -> ~ In (node e) unv) /\
  ((exists e, In e t /\ In (node e) unv) ->
   exists m,
     In m t /\ In (node m) unv /\
     findNodeWithSmallestKnownDistance t unv = Return (Some (node m)) /\
     forall e, In e t -> In (node e) unv ->
               ltb (shortestDistanceToTargetNode e)
                   (shortestDistanceToTargetNode m) = false).
Proof.
  unfold findNodeWithSmallestKnownDistance.
  set (p := fun e => includes Nat.eqb unv (node e)).
  assert (Hp : forall e, In e (filter p t) <-> In e t /\ In (node e) unv).
  { intros e. rewrite filter_In. unfold p. rewrite includes_In. tauto. }
  remember (filter p t) as fl eqn:Ef.
  destruct fl as [|first rest].
  - split.
    + split; [|reflexivity].
      intros _ e He Hin. apply (proj2 (Hp e)). split; assumption.
    + intros (e & He & Hin). destruct (proj2 (Hp e) (conj He Hin)).
  - split.
    + split; [discriminate|].
      intros Hno. exfalso.
      destruct (proj1 (Hp first) (or_introl eq_refl)) as [H1 H2].
      apply (Hno first H1 H2).
    + intros _.
      destruct (smaller_scan_any (first :: rest) first) as (Hin & _ & Hall).
      assert (Hm : In (fold_left smaller (first :: rest) first)
                      (first :: rest)).
      { destruct Hin as [E|Hin]; [rewrite <- E; simpl; auto | exact Hin]. }
      destruct (proj1 (Hp _) Hm) as [Hmt Hmu].
      exists (fold_left smaller (first :: rest) first).
      split; [exact Hmt|]. split; [exact Hmu|]. split.
      * rewrite (find_ref _ _ Hmu). reflexivity.
      * intros e He Hu. apply Hall. apply (proj2 (Hp e)). split; assumption.
Qed.

(** X23.  Whatever the weights, the names that a query on a loaded
    graph returns are the names of a walk of the graph from the start
    node to the target node: the first name is the start name, the last
    one the target name, and the distance is the one of the target's
    entry in the table that the main loop left. *)
Theorem X23_returned_names_are_a_walk
  (doc : XmlDocument) (s : Store) (a b : string) (fuel : nat)
  (r : ShortestPath) :
  parseGraphMl doc = Return s ->
  snd (dijkstra fuel s a b) = Return r ->
  exists u v steps,
    findByName s a = Some u /\ findByName s b = Some v /\
    isPath (heap s) u steps v /\
    map (getName (heap s)) (pathNodes u steps) = map Some (nodeNames r) /\
    hd_error (nodeNames r) = Some a /\
    last (nodeNames r) a = b /\
    distanceOf (finalTable fuel s u) v = Some (shortestDistance r).
Proof.
  intros Hp Hr.
  destruct (parseGraphMl_wf _ _ Hp) as [Hwf _].
  destruct (dijkstra_result fuel s a b Hr) as (u & v & Ha & Hb & Hres).
  destruct (@findShortestPathBetween_result fuel s u v r Hwf Hres)
    as (Hu & Hv & pathNames & startName & e & Hrew & Hname & He & ->).
  destruct (@finalTable_loopState fuel s u Hwf) as (st & Hst & Et & _).
  pose proof (loaded_structInv Hwf Hst) as Hsi.
  rewrite <- Et in *.
  destruct (findByName_lt _ _ _ Hwf Ha) as [_ Hna].
  destruct (findByName_lt _ _ _ Hwf Hb) as [_ Hnb].
  assert (startName = a) by congruence. subst startName.
  destruct (rewind_walk (heap s) (length (heap s)) u (lookupTable st)
              eq_refl (si_shape Hsi) (loopState_prevEdge s u st Hwf Hst)
              fuel v [] pathNames Hv Hrew)
    as (steps & added & En & Hpath & Hnames).
  simpl in En. subst pathNames.
  assert (Hnodes : map (getName (heap s)) (pathNodes u steps)
                   = map Some (rev (added ++ [a]))).
  { rewrite rev_app_distr. simpl. rewrite Hna. f_equal.
    rewrite <- (rev_involutive (map targetNode steps)).
    rewrite map_rev, Hnames, <- map_rev. reflexivity. }
  exists u, v, steps. simpl.
  split; [exact Ha|]. split; [exact Hb|]. split; [exact Hpath|].
  split; [exact Hnodes|]. split; [|split].
  - rewrite rev_app_distr. reflexivity.
  - assert (H : last (map (getName (heap s)) (pathNodes u steps))
                     (getName (heap s) u) = getName (heap s) v).
    { rewrite last_map_default. f_equal. eapply isPath_last; eauto. }
    rewrite Hnodes, Hna, last_map_default, Hnb in H.
    injection H as H. exact H.
  - rewrite <- Et. unfold distanceOf. rewrite He. reflexivity.
Qed.

Lemma X23_returned_names_are_a_walk_witness :
  exists u v steps,
    findByName (storeOf negativeDoc) "A" = Some u /\
    findByName (storeOf negativeDoc) "B" = Some v /\
    isPath (heap (storeOf negativeDoc)) u steps v /\
    map (getName (heap (storeOf negativeDoc))) (pathNodes u steps)
    = map Some ["A"; "B"]%string /\
    hd_error ["A"; "B"]%string = Some "A"%string /\
    last ["A"; "B"]%string "A"%string = "B"%string /\
    distanceOf (finalTable 2 (storeOf negativeDoc) u) v = Some (Fin (-1)).
Proof.
  exact (X23_returned_names_are_a_walk negativeDoc (storeOf negativeDoc)
           "A" "B" 2 (mkShortestPath ["A"; "B"]%string (Fin (-1)))
           eq_refl eq_refl).
Defined.

(** The distance of the start node never rises above 0. *)
Lemma loopState_start_le (s : Store) (startNode : ref) (st : LoopState) :
  wf s -> startNode < length (heap s) ->
  loopState (heap s) (length (heap s)) (initialState s startNode) st ->
  ltb (Fin 0) (dOf (lookupTable st) startNode) = false.
Proof.
  intros Hwf Hu Hst.
  induction Hst as [|st st' Hst IH Hlt Hbody].
  - simpl. destruct Hwf as [Hg _].
    rewrite (@dOf_init s startNode startNode Hg Hu), Nat.eqb_refl.
    reflexivity.
  - destruct (loaded_turn s startNode st st' Hwf Hst Hlt Hbody)
      as (u & l1 & l2 & El & -> & _).
    simpl.
    destruct (fold_relax1_lowers u (edgesOf (heap s) u) (lookupTable st)
                startNode) as [[Ed _]|(L & _)].
    + rewrite Ed. exact IH.
    + apply (ltb_below _ _ _ IH L).
Qed.

(** X24.  Whatever the weights, a query on a loaded graph from a node
    to itself returns the name of that node alone, with the distance of
    its entry: a number that is never above 0. *)
Theorem X24_query_from_a_node_to_itself
  (doc : XmlDocument) (s : Store) (a : string) (startNode : ref)
  (fuel : nat) :
  parseGraphMl doc = Return s ->
  findByName s a = Some startNode ->
  length (graphNodes s) <= fuel ->
  exists d,
    snd (dijkstra fuel s a a) = Return (mkShortestPath [a] d) /\
    distanceOf (finalTable fuel s startNode) startNode = Some d /\
    ltb (Fin 0) d = false /\ d <> NaN /\ d <> Infinity.
Proof.
  intros Hp Ha Hfuel.
  destruct (parseGraphMl_wf _ _ Hp) as [Hwf _].
  destruct (findByName_lt _ _ _ Hwf Ha) as [Hu Hname].
  rewrite (wf_length s Hwf) in Hfuel.
  destruct (@findShortestPathBetween_loaded s startNode startNode fuel
              Hwf Hu Hu Hfuel) as (st & Hst & _ & _ & Et & E).
  pose proof (loaded_structInv Hwf Hst) as Hsi.
  pose proof (loaded_genInv Hwf Hu Hst) as Hgi.
  destruct (entryOf_fields (si_shape Hsi) Hu) as (e & Ee & Ed & _).
  exists (dOf (lookupTable st) startNode).
  split; [|split; [|split; [|split]]].
  - unfold dijkstra. rewrite Ha, E. simpl.
    rewrite rewind_start, Hname, Ee, Ed. reflexivity.
  - rewrite <- Et. apply (distanceOf_shape (si_shape Hsi) Hu).
  - apply (loopState_start_le s startNode st Hwf Hu Hst).
  - apply (si_nan Hsi). exact Hu.
  - apply (gi_start Hgi).
Qed.

Lemma X24_query_from_a_node_to_itself_witness :
  exists d,
    snd (dijkstra 2 (storeOf negativeDoc) "A" "A")
    = Return (mkShortestPath ["A"%string] d) /\
    distanceOf (finalTable 2 (storeOf negativeDoc) 0) 0 = Some d /\
    ltb (Fin 0) d = false /\ d <> NaN /\ d <> Infinity.
Proof.
  apply (X24_query_from_a_node_to_itself negativeDoc (storeOf negativeDoc)
           "A" 0 2 eq_refl eq_refl).
  simpl. lia.
Defined.

Lemma isolated_unreachable : ~ reachable (heap (storeOf isolatedDoc)) 0 2.
Proof.
  assert (G : forall steps x,
             x = 0 \/ x = 1 ->
             ~ isPath (heap (storeOf isolatedDoc)) x steps 2).
  { induction steps as [|e steps IH]; intros x Hx Hpath; simpl in Hpath.
    - destruct Hx; subst; discriminate.
    - destruct Hpath as [He Hpath].
      destruct Hx as [->| ->]; vm_compute in He;
        destruct He as [<-|[]]; apply (IH _ (or_intror eq_refl) Hpath)
        || apply (IH _ (or_introl eq_refl) Hpath). }
  intros [steps Hpath]. apply (G steps 0 (or_introl eq_refl) Hpath).
Qed.

(** X25.  Whatever the weights, a query on a loaded graph to a target
    that no walk joins to the start node throws the [TypeError]. *)
Theorem X25_no_walk_gives_TypeError
  (doc : XmlDocument) (s : Store) (a b : string) (u v : ref) (fuel : nat) :
  parseGraphMl doc = Return s ->
  findByName s a = Some u ->
  findByName s b = Some v ->
  length (graphNodes s) <= fuel ->
  ~ reachable (heap s) u v ->
  snd (dijkstra fuel s a b) = Throw TypeError.
Proof.
  intros Hp Ha Hb Hfuel Hnr.
  destruct (parseGraphMl_loaded _ Hp) as (g & _ & Hl & Hn2 & _).
  pose proof (loaded_length Hl) as Hn.
  destruct (parseGraphMl_wf _ _ Hp) as [Hwf _].
  destruct (findByName_lt _ _ _ Hwf Ha) as [Hu _].
  destruct (findByName_lt _ _ _ Hwf Hb) as [Hv _].
  rewrite (wf_length s Hwf) in Hfuel.
  unfold dijkstra. rewrite Ha, Hb.
  apply unreachable_TypeError; auto. lia.
Qed.

Lemma X25_no_walk_gives_TypeError_witness :
  snd (dijkstra 3 (storeOf isolatedDoc) "A" "C") = Throw TypeError.
Proof.
  apply (X25_no_walk_gives_TypeError isolatedDoc (storeOf isolatedDoc)
           "A" "C" 0 2 3 eq_refl eq_refl eq_refl).
  - simpl. lia.
  - exact isolated_unreachable.
Defined.
